(** * scripts/sync_keymap_outputs.py: a shallow embedding and its properties

    The script renders every layer of keymap.json into the textual binding
    block of config/glove80.keymap, patches the block found by a regular
    expression, and replaces the "Custom Defined Behaviors" region by the
    generated keymap.dtsi.

    Python [str] values are sequences of Unicode code points: a character is
    an [N] and a string a [list N].  The operations of the [re] module the
    script calls are modelled by a backtracking matcher with Python's
    priorities (leftmost start, greedy and lazy repetition). *)

From Stdlib Require Import String Ascii DecimalString.
From Stdlib Require Import List NArith Arith Lia Bool Permutation.
Import ListNotations.

Set Implicit Arguments.

(** ** Python strings *)

Definition char := N.
Definition pystr := list char.

Definition str (s : string) : pystr :=
  map N_of_ascii (list_ascii_of_string s).

Definition nl : char := 10%N.
Definition sp : char := 32%N.

Fixpoint eqb_str (a b : pystr) : bool :=
  match a, b with
  | [], [] => true
  | x :: a', y :: b' => N.eqb x y && eqb_str a' b'
  | _, _ => false
  end.

(** [str.isspace] of one code point; the [re] module's [\s] on [str]
    patterns and [str.split()] without argument both use this set. *)
Definition isspace (c : char) : bool :=
  ((9 <=? c) && (c <=? 13) || (28 <=? c) && (c <=? 32)
   || (c =? 133) || (c =? 160) || (c =? 5760)
   || (8192 <=? c) && (c <=? 8202)
   || (c =? 8232) || (c =? 8233) || (c =? 8239) || (c =? 8287)
   || (c =? 12288))%N.

(** [sep.join(parts)] *)
Fixpoint join (sep : pystr) (parts : list pystr) : pystr :=
  match parts with
  | [] => []
  | [p] => p
  | p :: rest => p ++ sep ++ join sep rest
  end.

(** [s.split()]: the maximal runs of non-whitespace characters. [w] is the
    word being read. *)
Definition flush (w : pystr) : list pystr :=
  match w with [] => [] | _ => [w] end.

Fixpoint split_acc (w : pystr) (s : pystr) : list pystr :=
  match s with
  | [] => flush w
  | c :: s' =>
      if isspace c then flush w ++ split_acc [] s'
      else split_acc (w ++ [c]) s'
  end.

Definition split (s : pystr) : list pystr := split_acc [] s.

(** [" ".join(s.split())] *)
Definition normalize (s : pystr) : pystr := join [sp] (split s).

Fixpoint lstrip (s : pystr) : pystr :=
  match s with
  | c :: s' => if isspace c then lstrip s' else s
  | [] => []
  end.

(** [s.rstrip()] *)
Definition rstrip (s : pystr) : pystr := rev (lstrip (rev s)).

(** [s.strip()] *)
Definition strip (s : pystr) : pystr := lstrip (rstrip s).

(** [l[i:j]] for [0 <= i <= j] *)
Definition slice (A : Type) (l : list A) (i j : nat) : list A :=
  firstn (j - i) (skipn i l).

(** [str(n)] of a non-negative integer *)
Definition str_of_nat (n : nat) : pystr :=
  str (NilZero.string_of_uint (Nat.to_uint n)).

(** ** Exceptions and results *)

Inductive exn : Type :=
| ValueError (msg : pystr)
| RuntimeError (msg : pystr)
| TemplateError.   (* re.error or IndexError of a bad replacement template *)

Inductive result (A : Type) : Type :=
| Ok (a : A)
| Raise (e : exn).
Arguments Ok {A} a.
Arguments Raise {A} e.

Definition bind (A B : Type) (r : result A) (k : A -> result B) : result B :=
  match r with
  | Ok a => k a
  | Raise e => Raise e
  end.

Notation "x <- r ;; k" := (bind r (fun x => k))
  (at level 61, r at next level, right associativity).

(** ** Key bindings as decoded from keymap.json

    A parameter of a binding is [None], a dict with the entries "value" and
    "params", or any other JSON value; the script only ever takes [str()]
    of the latter, so such a leaf carries that string.  A dict is kept as
    what the script reads from it: [str(d.get("value", ""))] and
    [d.get("params") or []]. *)

Inductive node : Type :=
| NNone
| NLeaf (s : pystr)
| NDict (k : key)
with key : Type :=
| Key (value : pystr) (params : list node).

Definition KP : pystr := Eval cbv in str "&kp".
Definition CUSTOM : pystr := Eval cbv in str "Custom".
Definition NONE_STR : pystr := Eval cbv in str "None".
Definition lparen : char := 40%N.
Definition rparen : char := 41%N.

Fixpoint _resolve_nested (n : node) : option pystr :=
  match n with
  | NNone => None
  | NLeaf s => Some s
  | NDict (Key value params) =>
      let child :=
        match params with
        | p :: _ => _resolve_nested p
        | [] => None
        end in
      if eqb_str value KP then child
      else
        match child with
        | Some (c :: cs) => Some (value ++ [lparen] ++ (c :: cs) ++ [rparen])
        | _ => Some value
        end
  end.

Definition key_to_token (k : key) : pystr :=
  let '(Key behavior params) := k in
  match params with
  | [] => behavior
  | first :: _ =>
      if eqb_str behavior CUSTOM then
        match first with
        | NDict (Key v _) => v
        | NLeaf s => s
        | NNone => NONE_STR
        end
      else
        let nested := _resolve_nested first in
        if eqb_str behavior KP then
          match nested with
          | Some (c :: cs) => KP ++ [sp] ++ (c :: cs)
          | _ => KP
          end
        else
          match nested with
          | Some (c :: cs) => behavior ++ [sp] ++ (c :: cs)
          | _ => behavior
          end
  end.

(** ** Rendering a layer *)

Definition ROW_WIDTHS : list nat := [10; 12; 12; 12; 18; 16].

Definition sum (l : list nat) : nat := fold_right Nat.add 0 l.

Definition INDENT : pystr := repeat sp 12.

Definition expected_keys_msg (n : nat) : pystr :=
  str "Expected 80 keys, found " ++ str_of_nat n ++ str ".".

(** One turn of the loop [for width in ROW_WIDTHS]; the state is [(out, i)]. *)
Definition render_row (tokens : list pystr) (st : list pystr * nat)
    (width : nat) : list pystr * nat :=
  let '(out, i) := st in
  let row := join [sp] (slice tokens i (i + width)) in
  (out ++ [INDENT ++ row], i + width).

Definition render_bindings (keys : list key) : result pystr :=
  let tokens := map key_to_token keys in
  if negb (length tokens =? sum ROW_WIDTHS) then
    Raise (ValueError (expected_keys_msg (length tokens)))
  else
    let out := fst (fold_left (render_row tokens) ROW_WIDTHS ([], 0)) in
    Ok (join [nl] out).

(** ** The part of the [re] module the script uses

    A compiled pattern is a sequence of items: a literal character, a
    repetition [cls*] (greedy) or [cls*?] (lazy) of a character class, or
    the boundary of a group.  These are the only constructs of the two
    patterns of the script.  [re.escape(name)] makes every character of
    [name] a literal. *)

Inductive rx : Type :=
| RChar (c : char)
| RStar (greedy : bool) (cls : char -> bool)
| RMark.

(** A repetition of [cls] before the rest of the pattern [rest], on [s] at
    offset [pos].  A greedy repetition first tries one more character and
    falls back to the rest of the pattern; a lazy one tries the rest of the
    pattern first. *)
Fixpoint star_loop (greedy : bool) (cls : char -> bool)
    (rest : pystr -> nat -> option (list nat * nat))
    (s : pystr) (pos : nat) : option (list nat * nat) :=
  let more :=
    match s with
    | d :: s' => if cls d then star_loop greedy cls rest s' (S pos) else None
    | [] => None
    end in
  if greedy then
    match more with Some r => Some r | None => rest s pos end
  else
    match rest s pos with Some r => Some r | None => more end.

(** Match [p] against [s], which starts at offset [pos] of the subject.
    The result is the offsets of the group boundaries met, and the offset of
    the end of the match. *)
Fixpoint rx_match (p : list rx) (s : pystr) (pos : nat)
  : option (list nat * nat) :=
  match p with
  | [] => Some ([], pos)
  | RChar c :: p' =>
      match s with
      | d :: s' => if N.eqb c d then rx_match p' s' (S pos) else None
      | [] => None
      end
  | RMark :: p' =>
      match rx_match p' s pos with
      | Some (ms, e) => Some (pos :: ms, e)
      | None => None
      end
  | RStar greedy cls :: p' => star_loop greedy cls (rx_match p') s pos
  end.

(** A match object: [m.start()], the group boundaries, [m.end()]. *)
Record rmatch : Type := Match {
  m_start : nat;
  m_marks : list nat;
  m_end : nat
}.

(** The first suffix of [s], from the left, on which [f] gives a result;
    [pos] is the offset of [s] in the subject. *)
Fixpoint first_suffix (B : Type) (f : pystr -> nat -> option B)
    (s : pystr) (pos : nat) : option B :=
  match f s pos with
  | Some b => Some b
  | None =>
      match s with
      | [] => None
      | _ :: s' => first_suffix f s' (S pos)
      end
  end.

Definition match_at (p : list rx) (s : pystr) (pos : nat) : option rmatch :=
  match rx_match p s pos with
  | Some (ms, e) => Some (Match pos ms e)
  | None => None
  end.

(** [pattern.search]: the match at the leftmost offset that has one. *)
Definition search (p : list rx) (text : pystr) : option rmatch :=
  first_suffix (match_at p) text 0.

Definition lit (s : pystr) : list rx := map RChar s.
Definition any_char (c : char) : bool := true.      (* [.] under re.S *)
Definition ws : list rx := [RStar true isspace].    (* [\s*] *)
Definition lazy_any : list rx := [RStar false any_char].  (* [.*?] *)

(** *** Replacement templates

    [pattern.subn(repl, ...)] with a [str] replacement reads it as a
    template (CPython 3.12, [re._parser.parse_template]), here for a pattern
    without groups: a backslash introduces an escape, [\g<0>] stands for the
    whole match, any other group reference and a bad escape are errors.  The
    template is compiled before the search. *)

Inductive titem : Type :=
| TLit (c : char)
| TWhole.

Definition backslash : char := 92%N.
Definition is_octdigit (c : char) : bool := ((48 <=? c) && (c <=? 55))%N.
Definition is_digit (c : char) : bool := ((48 <=? c) && (c <=? 57))%N.
Definition is_ascii_letter (c : char) : bool :=
  ((65 <=? c) && (c <=? 90) || (97 <=? c) && (c <=? 122))%N.
Definition digit_val (c : char) : N := (c - 48)%N.

(** The table ESCAPES: \a \b \f \n \r \t \v and the backslash itself. *)
Definition escape_char (c : char) : option char :=
  (if c =? 97 then Some 7 else if c =? 98 then Some 8
   else if c =? 102 then Some 12 else if c =? 110 then Some 10
   else if c =? 114 then Some 13 else if c =? 116 then Some 9
   else if c =? 118 then Some 11 else if c =? 92 then Some 92
   else None)%N.

Inductive tstate : Type :=
| TText
| TName (seen : bool).   (* inside [\g<...]; [seen]: a digit 0 was read *)

(** [None] stands for the [re.error] (or [IndexError]) of a bad template. *)
Fixpoint parse_template_st (st : tstate) (s : pystr) : option (list titem) :=
  let lit_then c rest :=
    option_map (cons (TLit c)) (parse_template_st TText rest) in
  match st with
  | TName seen =>
      match s with
      | [] => None
      | c :: s' =>
          if (c =? 62)%N then
            if seen then option_map (cons TWhole) (parse_template_st TText s')
            else None
          else if (c =? 48)%N then parse_template_st (TName true) s'
          else None
      end
  | TText =>
      match s with
      | [] => Some []
      | c :: s1 =>
          if negb (c =? backslash)%N then lit_then c s1
          else
            match s1 with
            | [] => None
            | e :: s2 =>
                if (e =? 103)%N then              (* \g *)
                  match s2 with
                  | l :: s3 =>
                      if (l =? 60)%N then parse_template_st (TName false) s3
                      else None
                  | [] => None
                  end
                else if (e =? 48)%N then          (* \0, \0o, \0oo *)
                  match s2 with
                  | d1 :: s3 =>
                      if is_octdigit d1 then
                        match s3 with
                        | d2 :: s4 =>
                            if is_octdigit d2 then
                              lit_then
                                (N.land (digit_val d1 * 8 + digit_val d2) 255) s4
                            else lit_then (digit_val d1) s3
                        | [] => lit_then (digit_val d1) s3
                        end
                      else lit_then 0%N s2
                  | [] => lit_then 0%N s2
                  end
                else if is_digit e then           (* \1 .. \9 *)
                  match s2 with
                  | d1 :: d2 :: s4 =>
                      if is_octdigit e && is_octdigit d1 && is_octdigit d2 then
                        let v := (digit_val e * 64 + digit_val d1 * 8
                                  + digit_val d2)%N in
                        if (255 <? v)%N then None else lit_then v s4
                      else None
                  | _ => None
                  end
                else
                  match escape_char e with
                  | Some x => lit_then x s2
                  | None =>
                      if is_ascii_letter e then None
                      else
                        option_map (fun t => TLit backslash :: TLit e :: t)
                          (parse_template_st TText s2)
                  end
            end
      end
  end.

Definition parse_template (repl : pystr) : option (list titem) :=
  parse_template_st TText repl.

Definition expand_template (t : list titem) (whole : pystr) : pystr :=
  flat_map (fun i => match i with TLit c => [c] | TWhole => whole end) t.

(** [pattern.subn(repl, text, count=1)] *)
Definition subn1 (p : list rx) (repl text : pystr) : result (pystr * nat) :=
  match parse_template repl with
  | None => Raise TemplateError
  | Some t =>
      match search p text with
      | None => Ok (text, 0)
      | Some m =>
          let whole := slice text (m_start m) (m_end m) in
          Ok (firstn (m_start m) text ++ expand_template t whole
                ++ skipn (m_end m) text, 1)
      end
  end.

(** ** The two patches *)

Definition CDB_OPEN : pystr :=
  Eval cbv in str "/* Custom Defined Behaviors */" ++ [nl] ++ str "/ {" ++ [nl].
Definition CDB_CLOSE : pystr :=
  Eval cbv in [nl] ++ str "/* Generated input processors */".

Definition CDB_PATTERN : list rx :=
  lit CDB_OPEN ++ lazy_any ++ lit CDB_CLOSE.

Definition cdb_replacement (dtsi_text : pystr) : pystr :=
  str "/* Custom Defined Behaviors */" ++ [nl]
  ++ str "/ {" ++ [nl]
  ++ rstrip dtsi_text ++ [nl; nl]
  ++ str "};" ++ [nl; nl]
  ++ str "/* Generated input processors */".

Definition sync_custom_defined_behaviors (config_text dtsi_text : pystr)
  : result (pystr * nat) :=
  subn1 CDB_PATTERN (cdb_replacement dtsi_text) config_text.

Definition LAYER_ : pystr := Eval cbv in str "layer_".

(** Group 1, then the lazy body as group 2, then group 3. *)
Definition layer_open (layer_name : pystr) : list rx :=
  lit (LAYER_ ++ layer_name) ++ ws ++ lit (str "{") ++ ws
  ++ lit (str "bindings") ++ ws ++ lit (str "=") ++ ws
  ++ lit (str "<" ++ [nl]).

Definition layer_close : list rx :=
  lit [nl] ++ ws ++ lit (str ">;" ++ [nl]) ++ ws ++ lit (str "};").

Definition layer_pattern (layer_name : pystr) : list rx :=
  layer_open layer_name ++ [RMark] ++ lazy_any ++ [RMark] ++ layer_close.

(** The boundaries of group 2 in a match of [layer_pattern]. *)
Definition body_start (m : rmatch) : nat := nth 0 (m_marks m) 0.
Definition body_end (m : rmatch) : nat := nth 1 (m_marks m) 0.

Definition sync_layer_bindings (config_text layer_name : pystr)
    (keys : list key) : result (pystr * nat * bool) :=
  block <- render_bindings keys ;;
  match search (layer_pattern layer_name) config_text with
  | None => Ok (config_text, 0, false)
  | Some m =>
      let old_block := slice config_text (body_start m) (body_end m) in
      let old_norm := normalize old_block in
      let new_norm := normalize block in
      if eqb_str old_norm new_norm then Ok (config_text, 1, false)
      else
        let updated :=
          slice config_text (m_start m) (body_start m) ++ block
          ++ slice config_text (body_end m) (m_end m) in
        Ok (firstn (m_start m) config_text ++ updated
              ++ skipn (m_end m) config_text, 1, true)
  end.

(** ** The orchestrator *)

(** What [subprocess.run(cmd, check=True, capture_output=True)] does. *)
Inductive cmd_outcome : Type :=
| CmdOk
| CmdNotFound                                     (* FileNotFoundError *)
| CmdFailed (stderr stdout exc_str : pystr).      (* CalledProcessError *)

(** The files and programs a run meets.  The file contents are those read
    after the rake step. *)
Record world : Type := World {
  run_cmd : pystr -> cmd_outcome;      (* by the name of the executable *)
  json_layer_names : list pystr;       (* data["layer_names"] *)
  json_layers : list (list key);       (* data["layers"] *)
  build_keymap : pystr;                (* config/glove80.keymap *)
  keymap_dtsi : pystr                  (* keymap.dtsi *)
}.

Record arguments : Type := Args {
  arg_write : bool;
  arg_skip_rake : bool
}.

Inductive event : Type :=
| EWrite (text : pystr)      (* BUILD_KEYMAP.write_text *)
| EPrint (line : pystr).

Definition rake_candidates : list pystr :=
  [str "/opt/homebrew/opt/ruby/bin/rake"; str "rake"].

Definition first_truthy (a b c : pystr) : pystr :=
  match a with
  | _ :: _ => a
  | [] => match b with _ :: _ => b | [] => c end
  end.

Fixpoint regenerate_loop (w : world) (cands : list pystr) : result unit :=
  match cands with
  | [] =>
      Raise (RuntimeError
               (str "Unable to find rake executable to regenerate keymap.dtsi."))
  | cmd :: rest =>
      match run_cmd w cmd with
      | CmdOk => Ok tt
      | CmdNotFound => regenerate_loop w rest
      | CmdFailed stderr stdout exc_str =>
          Raise (RuntimeError
                   (first_truthy (strip stderr) (strip stdout) exc_str))
      end
  end.

Definition regenerate_dtsi (w : world) : result unit :=
  regenerate_loop w rake_candidates.

(** [dict(zip(names, layers))]: a later pair with a name already present
    replaces its value and keeps its place. *)
Fixpoint dict_set (A : Type) (d : list (pystr * A)) (k : pystr) (v : A)
  : list (pystr * A) :=
  match d with
  | [] => [(k, v)]
  | (k', v') :: d' =>
      if eqb_str k' k then (k', v) :: d' else (k', v') :: dict_set d' k v
  end.

Definition dict_of (A : Type) (pairs : list (pystr * A)) : list (pystr * A) :=
  fold_left (fun d kv => dict_set d (fst kv) (snd kv)) pairs [].

Definition no_layer_msg (layer_name : pystr) : pystr :=
  str "Could not find layer block for '" ++ layer_name
  ++ str "' in config/glove80.keymap.".

(** The loop [for layer_name, keys in layer_map.items()]. *)
Fixpoint sync_layers (items : list (pystr * list key)) (updated_text : pystr)
    (changed_layers : list pystr) : result (pystr * list pystr) :=
  match items with
  | [] => Ok (updated_text, changed_layers)
  | (layer_name, keys) :: rest =>
      r <- sync_layer_bindings updated_text layer_name keys ;;
      let '(updated_text', count, changed_layer) := r in
      if negb (count =? 1) then Raise (RuntimeError (no_layer_msg layer_name))
      else
        sync_layers rest updated_text'
          (if changed_layer then changed_layers ++ [layer_name]
           else changed_layers)
  end.

Definition no_cdb_msg : pystr :=
  str "Could not find Custom Defined Behaviors section in config/glove80.keymap.".

Definition in_sync_msg : pystr := str "config/glove80.keymap already in sync.".

(** The call of [sync_custom_defined_behaviors] in [main] and the test of
    its count. *)
Definition cdb_step (config_text dtsi_text : pystr) : result pystr :=
  r <- sync_custom_defined_behaviors config_text dtsi_text ;;
  let '(updated_text, replaced) := r in
  if negb (replaced =? 1) then Raise (RuntimeError no_cdb_msg)
  else Ok updated_text.

(** The patches of a run, in memory: the patched text and the names of the
    layers that changed. *)
Definition patch_all (w : world) : result (pystr * list pystr) :=
  let layer_map := dict_of (combine (json_layer_names w) (json_layers w)) in
  updated_text <- cdb_step (build_keymap w) (keymap_dtsi w) ;;
  sync_layers layer_map updated_text [].

(** What [main] does once the patches are done. *)
Definition report (args : arguments) (config_text updated_text : pystr)
    (changed_layers : list pystr) : list event :=
  let changed := negb (eqb_str updated_text config_text) in
  (if arg_write args then
     [EWrite updated_text;
      EPrint (if changed then str "Updated config/glove80.keymap."
              else in_sync_msg)]
   else
     [EPrint (if changed then str "Would update config/glove80.keymap."
              else in_sync_msg);
      EPrint (str "Run with --write to apply changes.")])
  ++ match changed_layers with
     | [] => []
     | _ =>
         [EPrint (str "Layer blocks changed: " ++ join (str ", ") changed_layers)]
     end.

(** [main]: the events of the run in order, and its return value or the
    exception it ends with. *)
Definition main (args : arguments) (w : world) : list event * result nat :=
  match (if arg_skip_rake args then Ok tt else regenerate_dtsi w) with
  | Raise e => ([], Raise e)
  | Ok _ =>
      match patch_all w with
      | Raise e => ([], Raise e)
      | Ok (updated_text, changed_layers) =>
          (report args (build_keymap w) updated_text changed_layers, Ok 0)
      end
  end.

(** The texts written to config/glove80.keymap, in order. *)
Definition writes (events : list event) : list pystr :=
  flat_map (fun ev => match ev with EWrite t => [t] | EPrint _ => [] end) events.

(** * Notions the properties are stated with *)

(** ** Strings *)

(** [s.startswith(needle)] *)
Fixpoint starts_with (needle s : pystr) : bool :=
  match needle, s with
  | [], _ => true
  | x :: needle', y :: s' => N.eqb x y && starts_with needle' s'
  | _ :: _, [] => false
  end.

(** The number of offsets of [s] at which [needle] starts. *)
Fixpoint occurrences (needle s : pystr) : nat :=
  (if starts_with needle s then 1 else 0)
  + match s with
    | [] => 0
    | _ :: s' => occurrences needle s'
    end.

(** Only whitespace. *)
Definition all_ws (w : pystr) : bool := forallb isspace w.

(** Every run of whitespace replaced by one space; [in_ws] tells that the
    character before was whitespace. *)
Fixpoint collapse_aux (in_ws : bool) (s : pystr) : pystr :=
  match s with
  | [] => []
  | c :: s' =>
      if isspace c then
        if in_ws then collapse_aux true s' else sp :: collapse_aux true s'
      else c :: collapse_aux false s'
  end.

Definition collapse (s : pystr) : pystr := collapse_aux false s.

Definition lt_char : char := 60%N.
Definition rbrace : char := 125%N.
Definition GT_SEMI : pystr := Eval cbv in str ">;".

(** ** Tokens and rows *)

(** No name read by [_resolve_nested] below [n] holds the marker "&kp",
    except the dicts whose name is the marker itself. *)
Fixpoint marker_free (n : node) : bool :=
  match n with
  | NNone => true
  | NLeaf s => occurrences KP s =? 0
  | NDict (Key value params) =>
      (eqb_str value KP || (occurrences KP value =? 0))
      && match params with
         | p :: _ => marker_free p
         | [] => true
         end
  end.

(** The outer "&kp" key whose first parameter is the modifier [modifier]
    around an inner "&kp" dict with the parameters [inner]. *)
Definition kp_modified (modifier : pystr) (inner rest1 rest2 : list node) : key :=
  Key KP (NDict (Key modifier (NDict (Key KP inner) :: rest2)) :: rest1).

(** One rendered row: the indentation, then the tokens separated by one
    space. *)
Definition row_line (row : list pystr) : pystr := repeat sp 12 ++ join [sp] row.

(** Consecutive groups of the given widths. *)
Fixpoint chunk (A : Type) (widths : list nat) (l : list A) : list (list A) :=
  match widths with
  | [] => []
  | w :: widths' => firstn w l :: chunk widths' (skipn w l)
  end.

(** The layer block as the specification words it. *)
Definition render_rows (tokens : list pystr) : pystr :=
  join [nl] (map row_line (chunk [10; 12; 12; 12; 18; 16] tokens)).

(** ** The delimiters read from left to right

    Both delimiters of a layer block are literals separated by [\s*], and
    every [\s*] stands before a literal that starts with a character that is
    not whitespace.  [scan] reads such a sequence without backtracking; the
    properties below show that the matcher does the same. *)

Inductive tok : Type :=
| TLitS (l : pystr)
| TWs.

Definition tok_rx (t : tok) : list rx :=
  match t with
  | TLitS l => lit l
  | TWs => ws
  end.

Definition toks_rx (ts : list tok) : list rx := flat_map tok_rx ts.

(** The rest of [s] after the delimiter, if [s] starts with one. *)
Fixpoint scan (ts : list tok) (s : pystr) : option pystr :=
  match ts with
  | [] => Some s
  | TLitS l :: ts' =>
      if starts_with l s then scan ts' (skipn (length l) s) else None
  | TWs :: ts' => scan ts' (lstrip s)
  end.

(** The strings the delimiter stands for. *)
Fixpoint delim (ts : list tok) (g : pystr) : Prop :=
  match ts with
  | [] => g = []
  | TLitS l :: ts' => exists g', g = l ++ g' /\ delim ts' g'
  | TWs :: ts' => exists w g', all_ws w = true /\ g = w ++ g' /\ delim ts' g'
  end.

Fixpoint wf_toks (ts : list tok) : bool :=
  match ts with
  | [] => true
  | TLitS _ :: ts' => wf_toks ts'
  | TWs :: ts' =>
      match ts' with
      | TLitS (c :: _) :: _ => negb (isspace c)
      | _ => false
      end && wf_toks ts'
  end.

Definition open_toks (layer_name : pystr) : list tok :=
  [TLitS (LAYER_ ++ layer_name); TWs; TLitS (str "{"); TWs;
   TLitS (str "bindings"); TWs; TLitS (str "="); TWs; TLitS (str "<" ++ [nl])].

Definition close_toks : list tok :=
  [TLitS [nl]; TWs; TLitS (str ">;" ++ [nl]); TWs; TLitS (str "};")].

(** The closing delimiter at the start of [s]: the end of the body and the
    end of the match. *)
Definition close_at (s : pystr) (pos : nat) : option (nat * nat) :=
  match scan close_toks s with
  | Some r => Some (pos, pos + (length s - length r))
  | None => None
  end.

(** The first offset from [pos] on at which the closing delimiter is read. *)
Definition find_close (s : pystr) (pos : nat) : option (nat * nat) :=
  first_suffix close_at s pos.

(** A match of the layer pattern at the start of [s], which is at offset
    [pos]: the ends of the opening delimiter, of the body and of the match. *)
Definition layer_match_at (layer_name s : pystr) (pos : nat)
  : option (list nat * nat) :=
  match scan (open_toks layer_name) s with
  | None => None
  | Some r =>
      let p1 := pos + (length s - length r) in
      match find_close r p1 with
      | Some (b, e) => Some ([p1; b], e)
      | None => None
      end
  end.

(** [text] read as the leftmost region of the layer: the text before it,
    the opening delimiter, the body, the closing delimiter and the text
    after it.  No closing delimiter is read inside the body, and the pattern
    has no match that starts before the region. *)
Definition layer_region (layer_name text pre g1 body g3 post : pystr) : Prop :=
  text = pre ++ g1 ++ body ++ g3 ++ post
  /\ delim (open_toks layer_name) g1
  /\ delim close_toks g3
  /\ (forall k, k < length body ->
      scan close_toks (skipn k (body ++ g3 ++ post)) = None)
  /\ (forall j, j < length pre ->
      rx_match (layer_pattern layer_name) (skipn j text) j = None).

Definition region_match (pre g1 body g3 : pystr) : rmatch :=
  Match (length pre)
    [length pre + length g1; length pre + length g1 + length body]
    (length pre + length g1 + length body + length g3).

(** The document holds the two markers of the "Custom Defined Behaviors"
    region, the closing one after the opening one. *)
Definition has_cdb_region (text : pystr) : Prop :=
  exists pre body post, text = pre ++ CDB_OPEN ++ body ++ CDB_CLOSE ++ post.

(** The closing marker at the start of [s]. *)
Definition cdb_close_at (s : pystr) (pos : nat) : option (list nat * nat) :=
  if starts_with CDB_CLOSE s then Some ([], pos + length CDB_CLOSE) else None.

(** ** A document as a sequence of layer blocks

    [head], then for every layer its opening delimiter, body, closing
    delimiter and the text up to the next block. *)
Record slot : Type := Slot {
  s_name : pystr;
  s_keys : list key;
  s_open : pystr;
  s_body : pystr;
  s_close : pystr;
  s_tail : pystr
}.

Definition slot_text (s : slot) : pystr :=
  s_open s ++ s_body s ++ s_close s ++ s_tail s.

Definition assemble (head : pystr) (slots : list slot) : pystr :=
  head ++ flat_map slot_text slots.

Definition set_body (s : slot) (body : pystr) : slot :=
  Slot (s_name s) (s_keys s) (s_open s) body (s_close s) (s_tail s).

(** The block of the layer once patched: the rendered keys when they differ
    from the body up to whitespace. *)
Definition finish (s : slot) : slot :=
  match render_bindings (s_keys s) with
  | Ok block =>
      if eqb_str (normalize (s_body s)) (normalize block) then s
      else set_body s block
  | Raise _ => s
  end.

Definition variant (s s' : slot) : Prop := s' = s \/ s' = finish s.

(** Whichever of the other blocks are patched, the pattern of every layer
    finds the block of that layer. *)
Definition own_regions (head : pystr) (slots : list slot) : Prop :=
  forall slots', Forall2 variant slots slots' ->
  forall before s after, slots' = before ++ s :: after ->
    search (layer_pattern (s_name s)) (assemble head slots')
    = Some (region_match (head ++ flat_map slot_text before)
              (s_open s) (s_body s) (s_close s)).

(** The layer map of the canonical source for these blocks. *)
Definition layers_of (slots : list slot) : list (pystr * list key) :=
  map (fun s => (s_name s, s_keys s)) slots.

Definition mem (x : pystr) (l : list pystr) : bool := existsb (eqb_str x) l.

(** The blocks after the layers named in [done] have been patched. *)
Definition patched (done : list pystr) (s : slot) : slot :=
  if mem (s_name s) done then finish s else s.

(** A layer name without [<] and without newline. *)
Definition plain_name (n : pystr) : bool :=
  negb (existsb (fun c => (c =? lt_char)%N || (c =? nl)%N) n).

Definition ends_nonspace (b : pystr) : bool := negb (isspace (last b sp)).

(** A rendered block that cannot be mistaken for a delimiter: it holds no
    ">;", does not end with whitespace, and holds no "layer_" followed by
    one of the names. *)
Definition tidy_block (names : list pystr) (block : pystr) : bool :=
  (occurrences GT_SEMI block =? 0) && ends_nonspace block
  && forallb (fun n => occurrences (LAYER_ ++ n) block =? 0) names.

(** In the document made of [head] and [slots], the leftmost region of
    every layer is the block of that layer. *)
Definition regions_ok (head : pystr) (slots : list slot) : Prop :=
  forall before s after, slots = before ++ s :: after ->
    layer_region (s_name s) (assemble head slots)
      (head ++ flat_map slot_text before) (s_open s) (s_body s) (s_close s)
      (s_tail s ++ flat_map slot_text after).

(** In the document as given, the pattern of every layer finds the block of
    that layer. *)
Definition found_in_place (head : pystr) (slots : list slot) : Prop :=
  forall before s after, slots = before ++ s :: after ->
    search (layer_pattern (s_name s)) (assemble head slots)
    = Some (region_match (head ++ flat_map slot_text before)
              (s_open s) (s_body s) (s_close s)).

(** The layer has 80 keys and a plain name, and its rendered block is tidy
    with respect to the names of all the layers. *)
Definition tidy_layer (names : list pystr) (s : slot) : Prop :=
  length (s_keys s) = 80
  /\ plain_name (s_name s) = true
  /\ tidy_block names (render_rows (map key_to_token (s_keys s))) = true.

(** ** The layer map *)

(** [d.get(k)] on a dict kept as the list of its items. *)
Fixpoint dict_get (A : Type) (d : list (pystr * A)) (k : pystr) : option A :=
  match d with
  | [] => None
  | (k', v) :: d' => if eqb_str k' k then Some v else dict_get d' k
  end.

(** The world with other layers in keymap.json. *)
Definition with_layers (w : world) (layers : list (list key)) : world :=
  World (run_cmd w) (json_layer_names w) layers (build_keymap w) (keymap_dtsi w).

(** The document holds an opening delimiter of the layer and, after it, a
    closing delimiter. *)
Definition has_layer_region (layer_name text : pystr) : Prop :=
  exists pre g1 body g3 post,
    text = pre ++ g1 ++ body ++ g3 ++ post
    /\ delim (open_toks layer_name) g1
    /\ delim close_toks g3.

(** [l] is [l'] with some elements left out, the order kept. *)
Inductive subseq (A : Type) : list A -> list A -> Prop :=
| subseq_nil : subseq [] []
| subseq_skip x l l' : subseq l l' -> subseq l (x :: l')
| subseq_keep x l l' : subseq l l' -> subseq (x :: l) (x :: l').

(** ** The rake step *)

Definition no_rake_msg : pystr :=
  str "Unable to find rake executable to regenerate keymap.dtsi.".

(** The command is not installed. *)
Definition not_found (w : world) (cmd : pystr) : Prop :=
  run_cmd w cmd = CmdNotFound.

(** ** What a token is made of *)

(** The node without the parameters after the first, at every depth. *)
Fixpoint prune (n : node) : node :=
  match n with
  | NNone => NNone
  | NLeaf s => NLeaf s
  | NDict (Key value params) =>
      NDict (Key value match params with
                       | p :: _ => [prune p]
                       | [] => []
                       end)
  end.

Definition prune_key (k : key) : key :=
  let '(Key behavior params) := k in
  Key behavior match params with
               | p :: _ => [prune p]
               | [] => []
               end.

(** The strings on the chain of first parameters. *)
Fixpoint node_names (n : node) : list pystr :=
  match n with
  | NNone => []
  | NLeaf s => [s]
  | NDict (Key value params) =>
      value :: match params with
               | p :: _ => node_names p
               | [] => []
               end
  end.

Definition key_names (k : key) : list pystr :=
  let '(Key behavior params) := k in
  behavior :: match params with
              | p :: _ => node_names p
              | [] => []
              end.

Definition gt_char : char := 62%N.

(** ** The replacement template *)

(** A character after a backslash that leaves both in place. *)
Definition plain_after (e : char) : bool :=
  negb (e =? backslash)%N && negb (is_ascii_letter e) && negb (is_digit e).

(** Every backslash of [s] is followed by such a character. *)
Fixpoint verbatim (s : pystr) : bool :=
  match s with
  | [] => true
  | c :: s' =>
      if (c =? backslash)%N then
        match s' with
        | [] => false
        | e :: s'' => plain_after e && verbatim s''
        end
      else verbatim s'
  end.

(** A letter that is no escape of a template after a backslash. *)
Definition bad_escape (e : char) : bool :=
  is_ascii_letter e && negb (e =? 103)%N
  && match escape_char e with Some _ => false | None => true end.

(** The text between the markers after a patch. *)
Definition cdb_body (dtsi_text : pystr) : pystr :=
  rstrip dtsi_text ++ [nl; nl] ++ str "};" ++ [nl].

(** * Sample inputs *)

(** A key as the layout editor stores [&kp A]. *)
Definition sample_key : key := Key KP [NDict (Key (str "A") [])].

(** Sample documents: a layer block for the layer "Base". *)
Definition sample_keys : list key := repeat sample_key 80.
Definition sample_block : pystr := render_rows (map key_to_token sample_keys).
Definition base : pystr := str "Base".
Definition sample_open : pystr :=
  str "    layer_Base {" ++ [nl] ++ str "      bindings = <" ++ [nl].
Definition sample_close : pystr :=
  [nl] ++ str "      >;" ++ [nl] ++ str "    };" ++ [nl].

(** The block is there, with one token on each line. *)
Definition doc_reflowed : pystr :=
  str "keymap {" ++ [nl] ++ sample_open
  ++ flat_map (fun t => [nl; sp; sp] ++ t) (map key_to_token sample_keys)
  ++ sample_close ++ str "};" ++ [nl].

(** The block is stale. *)
Definition doc_stale : pystr :=
  str "keymap {" ++ [nl] ++ sample_open ++ str "&kp B &kp C"
  ++ sample_close ++ str "};" ++ [nl].

(** The stale block replaced by the rendered one. *)
Definition doc_fresh : pystr :=
  str "keymap {" ++ [nl] ++ sample_open ++ sample_block
  ++ sample_close ++ str "};" ++ [nl].

(** Two blocks of the same layer, both stale. *)
Definition doc_twice : pystr :=
  str "keymap {" ++ [nl] ++ sample_open ++ str "&kp B &kp C" ++ sample_close
  ++ sample_open ++ str "&kp D" ++ sample_close ++ str "};" ++ [nl].

(** The first of the two blocks replaced, the second as it was. *)
Definition doc_twice_first : pystr :=
  str "keymap {" ++ [nl] ++ sample_open ++ sample_block ++ sample_close
  ++ sample_open ++ str "&kp D" ++ sample_close ++ str "};" ++ [nl].

(** A generated keymap.dtsi, and a document with two regions between the
    markers. *)
Definition sample_dtsi : pystr :=
  str "#define HYPER LC(LS(LG(LALT)))" ++ [nl] ++ str "/*HACK*//{" ++ [nl].

Definition doc_two_cdb : pystr :=
  str "#include <behaviors.dtsi>" ++ [nl]
  ++ CDB_OPEN ++ str "first" ++ CDB_CLOSE ++ [nl]
  ++ CDB_OPEN ++ str "second" ++ CDB_CLOSE ++ [nl].

Definition doc_two_cdb_patched : pystr :=
  str "#include <behaviors.dtsi>" ++ [nl]
  ++ cdb_replacement sample_dtsi ++ [nl]
  ++ CDB_OPEN ++ str "second" ++ CDB_CLOSE ++ [nl].

Definition no_rake (cmd : pystr) : cmd_outcome := CmdNotFound.

Definition world_two_cdb : world :=
  World no_rake [] [] doc_two_cdb sample_dtsi.

(** A document that is in sync with [sample_dtsi] and the layer "Base". *)
Definition doc_in_sync : pystr :=
  str "#include <behaviors.dtsi>" ++ [nl]
  ++ cdb_replacement sample_dtsi ++ [nl]
  ++ doc_fresh.

Definition world_in_sync : world :=
  World no_rake [base] [sample_keys] doc_in_sync sample_dtsi.

(** A layer whose first key is named with the text of a closing delimiter
    inside. *)
Definition closing_key : key :=
  Key (str "A" ++ [nl] ++ str ">;" ++ [nl] ++ str "};") [].
Definition closing_keys : list key := closing_key :: repeat sample_key 79.

(** Two layers, "Base" and "Lower", each with a stale block. *)
Definition other_key : key := Key KP [NDict (Key (str "B") [])].
Definition other_keys : list key := repeat other_key 80.
Definition lower : pystr := str "Lower".
Definition plain_close : pystr := [nl] ++ str "      >;" ++ [nl] ++ str "    };".

Definition slot_base : slot :=
  Slot base sample_keys
    (str "layer_Base {" ++ [nl] ++ str "      bindings = <" ++ [nl])
    (str "&kp B &kp C") plain_close ([nl] ++ str "    ").

Definition slot_lower : slot :=
  Slot lower other_keys
    (str "layer_Lower {" ++ [nl] ++ str "      bindings = <" ++ [nl])
    (str "&trans") plain_close ([nl] ++ str "};" ++ [nl]).

Definition two_head : pystr := str "keymap {" ++ [nl] ++ str "    ".

(** Two layers with unique names, the name of the second ending with
    "layer_Base": the pattern of "Base" matches inside the opening delimiter
    of the block of "Alt_layer_Base", which comes first. *)
Definition alt : pystr := str "Alt_layer_Base".

Definition doc_alias : pystr :=
  str "keymap {" ++ [nl]
  ++ str "    layer_Alt_layer_Base {" ++ [nl] ++ str "      bindings = <" ++ [nl]
  ++ str "&trans" ++ plain_close ++ [nl]
  ++ str "    layer_Base {" ++ [nl] ++ str "      bindings = <" ++ [nl]
  ++ str "&kp B &kp C" ++ plain_close ++ [nl]
  ++ str "};" ++ [nl].

Definition world_short_layer : world :=
  World no_rake [base] [[sample_key]] doc_in_sync sample_dtsi.

(** The first rake is installed and fails with a blank standard error. *)
Definition failing_rake (cmd : pystr) : cmd_outcome :=
  CmdFailed [nl] (str "rake aborted!" ++ [nl]) (str "Command returned 1").

Definition world_failing_rake : world :=
  World failing_rake [base] [sample_keys] doc_in_sync sample_dtsi.

(** A generated keymap.dtsi with a macro continued over two lines, and one
    with a regular expression in a comment. *)
Definition dtsi_continued : pystr :=
  str "#define HYPER LC(LS( " ++ [backslash; nl] ++ str "  LG(LALT)))" ++ [nl].

Definition dtsi_escape : pystr :=
  str "/* matches " ++ [backslash] ++ str "d+ */" ++ [nl].

(** * Properties *)

(** ** Strings *)

Lemma eqb_str_spec (a b : pystr) : eqb_str a b = true <-> a = b.
Proof.
  revert b; induction a as [|x a IH]; intros [|y b]; simpl;
    try (split; [discriminate | congruence]); try tauto.
  rewrite andb_true_iff, N.eqb_eq, IH. split.
  - intros [-> ->]; reflexivity.
  - intros E; injection E; auto.
Qed.

Lemma eqb_str_refl (a : pystr) : eqb_str a a = true.
Proof. apply eqb_str_spec; reflexivity. Qed.

Lemma eqb_str_neq (a b : pystr) : a <> b -> eqb_str a b = false.
Proof.
  intros H. destruct (eqb_str a b) eqn:E; [|reflexivity].
  apply eqb_str_spec in E. contradiction.
Qed.

(** ** The layer renderer *)

Lemma render_row_fold (tokens : list pystr) (widths : list nat) :
  forall out i,
    fst (fold_left (render_row tokens) widths (out, i))
    = out ++ map (fun r => INDENT ++ join [sp] r) (chunk widths (skipn i tokens)).
Proof.
  induction widths as [|w widths IH]; intros out i; simpl.
  - now rewrite app_nil_r.
  - rewrite IH. rewrite <- app_assoc. simpl. unfold slice.
    replace (i + w - i) with w by lia.
    now rewrite skipn_skipn, (Nat.add_comm w i).
Qed.

Lemma render_bindings_ok (keys : list key) :
  length keys = 80 ->
  render_bindings keys = Ok (render_rows (map key_to_token keys)).
Proof.
  intros H. unfold render_bindings.
  rewrite length_map, H. simpl negb. cbv iota.
  rewrite render_row_fold. reflexivity.
Qed.

Lemma render_bindings_raise (keys : list key) :
  length keys <> 80 ->
  render_bindings keys = Raise (ValueError (expected_keys_msg (length keys))).
Proof.
  intros H. unfold render_bindings. rewrite length_map.
  destruct (Nat.eqb_spec (length keys) (sum ROW_WIDTHS)) as [E|E].
  - exfalso. apply H. exact E.
  - reflexivity.
Qed.

Lemma chunk_concat (A : Type) (widths : list nat) :
  forall l : list A, concat (chunk widths l) ++ skipn (sum widths) l = l.
Proof.
  induction widths as [|w widths IH]; intros l; simpl.
  - reflexivity.
  - rewrite <- app_assoc, (Nat.add_comm w), <- skipn_skipn, IH.
    apply firstn_skipn.
Qed.

Lemma chunk_lengths (A : Type) (widths : list nat) :
  forall l : list A,
    sum widths <= length l -> map (@length A) (chunk widths l) = widths.
Proof.
  induction widths as [|w widths IH]; intros l H; simpl in *.
  - reflexivity.
  - rewrite IH by (rewrite length_skipn; lia).
    rewrite length_firstn. f_equal. lia.
Qed.

Lemma chunk_rows (A : Type) (l : list A) :
  length l = 80 ->
  exists r1 r2 r3 r4 r5 r6,
    chunk [10; 12; 12; 12; 18; 16] l = [r1; r2; r3; r4; r5; r6]
    /\ l = r1 ++ r2 ++ r3 ++ r4 ++ r5 ++ r6
    /\ length r1 = 10 /\ length r2 = 12 /\ length r3 = 12
    /\ length r4 = 12 /\ length r5 = 18 /\ length r6 = 16.
Proof.
  intros H.
  pose proof (chunk_concat [10; 12; 12; 12; 18; 16] l) as Hc.
  pose proof (@chunk_lengths A [10; 12; 12; 12; 18; 16] l) as Hl.
  rewrite skipn_all2, app_nil_r in Hc by (simpl; lia).
  specialize (Hl ltac:(simpl; lia)).
  remember (chunk [10; 12; 12; 12; 18; 16] l) as rows eqn:Hr.
  destruct rows as [|r1 [|r2 [|r3 [|r4 [|r5 [|r6 [|r7 rows]]]]]]];
    try discriminate Hl.
  exists r1, r2, r3, r4, r5, r6. split; [reflexivity|].
  simpl in Hc. rewrite app_nil_r in Hc. split; [now symmetry|].
  simpl in Hl. injection Hl as -> -> -> -> -> ->. repeat split.
Qed.

(** C4. For a sequence of exactly 80 keys, [render_bindings] returns the
    tokens of the keys, in order, in six consecutive rows of 10, 12, 12, 12,
    18 and 16 tokens; the tokens of a row are separated by one space, every
    row starts with 12 spaces, the rows are separated by one newline and
    nothing follows the last row. *)
Theorem render_bindings_layout (keys : list key) :
  length keys = 80 ->
  exists r1 r2 r3 r4 r5 r6 : list pystr,
    map key_to_token keys = r1 ++ r2 ++ r3 ++ r4 ++ r5 ++ r6
    /\ length r1 = 10 /\ length r2 = 12 /\ length r3 = 12
    /\ length r4 = 12 /\ length r5 = 18 /\ length r6 = 16
    /\ render_bindings keys
       = Ok (row_line r1 ++ [nl] ++ row_line r2 ++ [nl] ++ row_line r3 ++ [nl]
             ++ row_line r4 ++ [nl] ++ row_line r5 ++ [nl] ++ row_line r6).
Proof.
  intros H.
  destruct (@chunk_rows pystr (map key_to_token keys)) as
    (r1 & r2 & r3 & r4 & r5 & r6 & Hc & Ht & Hl).
  { now rewrite length_map. }
  exists r1, r2, r3, r4, r5, r6.
  split; [exact Ht|].
  repeat (split; [tauto|]).
  rewrite (render_bindings_ok _ H). unfold render_rows. rewrite Hc.
  reflexivity.
Qed.

Lemma render_bindings_layout_witness :
  exists r1 r2 r3 r4 r5 r6 : list pystr,
    map key_to_token (repeat sample_key 80) = r1 ++ r2 ++ r3 ++ r4 ++ r5 ++ r6
    /\ length r1 = 10 /\ length r2 = 12 /\ length r3 = 12
    /\ length r4 = 12 /\ length r5 = 18 /\ length r6 = 16
    /\ render_bindings (repeat sample_key 80)
       = Ok (row_line r1 ++ [nl] ++ row_line r2 ++ [nl] ++ row_line r3 ++ [nl]
             ++ row_line r4 ++ [nl] ++ row_line r5 ++ [nl] ++ row_line r6).
Proof. apply (render_bindings_layout (repeat sample_key 80)). reflexivity. Defined.

(** C5. [render_bindings] raises its error exactly when the number of keys
    differs from 80; the error carries no output, and a result, when there
    is one, holds the tokens of all the keys, none dropped and none added. *)
Theorem render_bindings_shape (keys : list key) :
  (render_bindings keys = Raise (ValueError (expected_keys_msg (length keys)))
   <-> length keys <> 80)
  /\ ((exists out, render_bindings keys = Ok out) <-> length keys = 80)
  /\ (forall out, render_bindings keys = Ok out ->
      exists rows, concat rows = map key_to_token keys
                   /\ map (@length pystr) rows = ROW_WIDTHS
                   /\ out = join [nl] (map row_line rows)).
Proof.
  destruct (Nat.eq_dec (length keys) 80) as [E|E].
  - pose proof (render_bindings_ok keys E) as R.
    split; [|split].
    + rewrite R. split; [discriminate | intros N; contradiction].
    + split; [auto | intros _; eauto].
    + intros out Hout. rewrite R in Hout. injection Hout as <-.
      destruct (@chunk_rows pystr (map key_to_token keys)) as
        (r1 & r2 & r3 & r4 & r5 & r6 & Hc & Ht & Hl).
      { now rewrite length_map. }
      exists [r1; r2; r3; r4; r5; r6]. split; [|split].
      * simpl. rewrite app_nil_r. now symmetry.
      * simpl. unfold ROW_WIDTHS.
        destruct Hl as (-> & -> & -> & -> & -> & ->). reflexivity.
      * unfold render_rows. now rewrite Hc.
  - pose proof (render_bindings_raise keys E) as R.
    split; [|split].
    + tauto.
    + rewrite R. split; [intros [out Ho]; discriminate | intros N; contradiction].
    + intros out Hout. rewrite R in Hout. discriminate.
Qed.

(** ** The token resolver *)

Lemma starts_with_sep (needle a b : pystr) (c : char) :
  ~ In c needle ->
  starts_with needle (a ++ c :: b) = starts_with needle a.
Proof.
  revert a; induction needle as [|x needle IH]; intros a H; simpl.
  - reflexivity.
  - destruct a as [|y a]; simpl.
    + destruct (N.eqb_spec x c) as [->|_]; [|reflexivity].
      exfalso; apply H; now left.
    + rewrite IH; [reflexivity|]. intros I; apply H; now right.
Qed.

Lemma occurrences_sep (needle a b : pystr) (c : char) :
  needle <> [] -> ~ In c needle ->
  occurrences needle (a ++ c :: b) = occurrences needle a + occurrences needle b.
Proof.
  intros Hne Hc. induction a as [|y a IH].
  - simpl app. change (occurrences needle (c :: b))
      with ((if starts_with needle (c :: b) then 1 else 0) + occurrences needle b).
    pose proof (@starts_with_sep needle [] b c Hc) as E. simpl app in E.
    rewrite E.
    destruct needle; [contradiction|]. reflexivity.
  - change (occurrences needle ((y :: a) ++ c :: b))
      with ((if starts_with needle ((y :: a) ++ c :: b) then 1 else 0)
            + occurrences needle (a ++ c :: b)).
    rewrite starts_with_sep by assumption. rewrite IH. simpl. lia.
Qed.

Lemma occurrences_nil (needle : pystr) : needle <> [] -> occurrences needle [] = 0.
Proof. destruct needle; [contradiction | reflexivity]. Qed.

Lemma KP_nonempty : KP <> [].
Proof. discriminate. Qed.

Lemma KP_sep (c : char) :
  c = sp \/ c = lparen \/ c = rparen -> ~ In c KP.
Proof.
  intros [-> | [-> | ->]]; simpl; intros [H | [H | [H | []]]]; discriminate.
Qed.

Lemma occurrences_wrap (v r : pystr) :
  occurrences KP v = 0 -> occurrences KP r = 0 ->
  occurrences KP (v ++ [lparen] ++ r ++ [rparen]) = 0.
Proof.
  intros Hv Hr.
  change (v ++ [lparen] ++ r ++ [rparen]) with (v ++ lparen :: r ++ rparen :: []).
  rewrite occurrences_sep by (auto using KP_nonempty, KP_sep).
  rewrite occurrences_sep by (auto using KP_nonempty, KP_sep).
  rewrite Hv, Hr. reflexivity.
Qed.

Lemma occurrences_kp_sp (t : pystr) :
  occurrences KP t = 0 -> occurrences KP (KP ++ [sp] ++ t) = 1.
Proof.
  intros Ht. change (KP ++ [sp] ++ t) with (KP ++ sp :: t).
  rewrite occurrences_sep by (auto using KP_nonempty, KP_sep).
  rewrite Ht. reflexivity.
Qed.

(** Induction along the first parameters, the only ones the script reads. *)
Lemma node_chain_ind (P : node -> Prop) :
  P NNone ->
  (forall s, P (NLeaf s)) ->
  (forall v, P (NDict (Key v []))) ->
  (forall v p ps, P p -> P (NDict (Key v (p :: ps)))) ->
  forall n, P n.
Proof.
  intros H0 H1 H2 H3. fix IH 1.
  intros [| s | [v [|p ps]]].
  - exact H0.
  - apply H1.
  - apply H2.
  - apply H3, IH.
Qed.

Lemma resolve_marker_free (n : node) :
  marker_free n = true ->
  forall r, _resolve_nested n = Some r -> occurrences KP r = 0.
Proof.
  induction n as [| s | v | v p ps IH] using node_chain_ind; intros Hf r Hr.
  - discriminate.
  - simpl in *. injection Hr as <-. now apply Nat.eqb_eq.
  - simpl in Hf, Hr. rewrite andb_true_r in Hf.
    destruct (eqb_str v KP) eqn:E; [discriminate|].
    injection Hr as <-. simpl in Hf. now apply Nat.eqb_eq.
  - simpl in Hf. apply andb_true_iff in Hf as [Hv Hp].
    specialize (IH Hp).
    change (_resolve_nested (NDict (Key v (p :: ps))))
      with (if eqb_str v KP then _resolve_nested p
            else match _resolve_nested p with
                 | Some (c :: cs) => Some (v ++ [lparen] ++ (c :: cs) ++ [rparen])
                 | _ => Some v
                 end) in Hr.
    destruct (eqb_str v KP) eqn:E.
    + now apply IH.
    + simpl in Hv. apply Nat.eqb_eq in Hv.
      destruct (_resolve_nested p) as [[|c cs]|] eqn:Ep;
        injection Hr as <-; try assumption.
      apply (@occurrences_wrap v (c :: cs)); [assumption | now apply IH].
Qed.

(** What the inner wrapper contributes: the token of [kp_modified] is built
    from the modifier and the resolved first parameter of the inner "&kp"
    dict, whose own name does not appear. *)
Lemma key_to_token_kp_modified (modifier : pystr) (inner rest1 rest2 : list node) :
  modifier <> KP ->
  key_to_token (kp_modified modifier inner rest1 rest2)
  = match
      match match inner with p :: _ => _resolve_nested p | [] => None end with
      | Some (c :: cs) => modifier ++ [lparen] ++ (c :: cs) ++ [rparen]
      | _ => modifier
      end
    with
    | c :: cs => KP ++ [sp] ++ (c :: cs)
    | [] => KP
    end.
Proof.
  intros Hm. unfold kp_modified, key_to_token.
  change (eqb_str KP CUSTOM) with false. cbv iota.
  rewrite eqb_str_refl.
  change (_resolve_nested (NDict (Key modifier (NDict (Key KP inner) :: rest2))))
    with (if eqb_str modifier KP then _resolve_nested (NDict (Key KP inner))
          else match _resolve_nested (NDict (Key KP inner)) with
               | Some (c :: cs) => Some (modifier ++ [lparen] ++ (c :: cs) ++ [rparen])
               | _ => Some modifier
               end).
  rewrite (eqb_str_neq Hm).
  change (_resolve_nested (NDict (Key KP inner)))
    with (if eqb_str KP KP
          then match inner with p :: _ => _resolve_nested p | [] => None end
          else match match inner with p :: _ => _resolve_nested p | [] => None end with
               | Some (c :: cs) => Some (KP ++ [lparen] ++ (c :: cs) ++ [rparen])
               | _ => Some KP
               end).
  rewrite eqb_str_refl.
  destruct (match inner with p :: _ => _resolve_nested p | [] => None end)
    as [[|c cs]|]; reflexivity.
Qed.

(** C3, amended. For every key whose outer behavior is "&kp" and that has a
    first parameter, whatever chain of modifiers and inner "&kp" dicts that
    parameter holds and however deep, the token holds "&kp" exactly once,
    provided no name or leaf string on the chain of first parameters holds
    "&kp" (a dict named exactly "&kp" apart). *)
Theorem key_to_token_marker_once (first : node) (rest : list node) :
  marker_free first = true ->
  occurrences KP (key_to_token (Key KP (first :: rest))) = 1.
Proof.
  intros Hfree. unfold key_to_token.
  change (eqb_str KP CUSTOM) with false. cbv iota.
  rewrite eqb_str_refl.
  destruct (_resolve_nested first) as [[|c cs]|] eqn:E; try reflexivity.
  apply occurrences_kp_sp. now apply (resolve_marker_free first).
Qed.

Lemma key_to_token_marker_once_witness :
  occurrences KP
    (key_to_token
       (Key KP
          [NDict (Key (str "LC")
             [NDict (Key (str "LS")
                [NDict (Key KP [NDict (Key (str "A") [])])])])])) = 1.
Proof.
  apply (@key_to_token_marker_once
           (NDict (Key (str "LC")
              [NDict (Key (str "LS")
                 [NDict (Key KP [NDict (Key (str "A") [])])])])) []).
  reflexivity.
Defined.

(** C3 as stated fails: the name below the inner wrapper may hold the marker.
    The key is [&kp] around [LS] around [&kp] around a dict named "&kpX";
    its token is "&kp LS(&kpX)". *)
Lemma key_to_token_marker_twice :
  key_to_token (kp_modified (str "LS") [NDict (Key (str "&kpX") [])] [] [])
  = str "&kp LS(&kpX)"
  /\ occurrences KP
       (key_to_token (kp_modified (str "LS") [NDict (Key (str "&kpX") [])] [] []))
     = 2.
Proof. split; reflexivity. Qed.

(** ** The matcher on the script's patterns *)

Lemma lstrip_length (s : pystr) : length (lstrip s) <= length s.
Proof.
  induction s as [|c s IH]; simpl; [lia|].
  destruct (isspace c); simpl; lia.
Qed.

Lemma lstrip_split (s : pystr) :
  exists w, all_ws w = true /\ s = w ++ lstrip s.
Proof.
  induction s as [|c s (w & Hw & E)]; simpl.
  - exists []. split; reflexivity.
  - destruct (isspace c) eqn:Ec.
    + exists (c :: w). split; [simpl; now rewrite Ec|]. simpl. now f_equal.
    + exists []. split; reflexivity.
Qed.

Lemma lstrip_app_ws (w s : pystr) :
  all_ws w = true -> lstrip (w ++ s) = lstrip s.
Proof.
  induction w as [|c w IH]; simpl; [reflexivity|].
  intros H. apply andb_true_iff in H as [Hc Hw]. rewrite Hc. auto.
Qed.

Lemma lstrip_nonspace (c : char) (s : pystr) :
  isspace c = false -> lstrip (c :: s) = c :: s.
Proof. intros H; simpl; now rewrite H. Qed.

Lemma starts_with_app (l s : pystr) : starts_with l (l ++ s) = true.
Proof. induction l as [|x l IH]; simpl; [reflexivity|]. now rewrite N.eqb_refl. Qed.

Lemma starts_with_split (l s : pystr) :
  starts_with l s = true -> s = l ++ skipn (length l) s.
Proof.
  revert s; induction l as [|x l IH]; intros s H; simpl in *.
  - reflexivity.
  - destruct s as [|y s]; [discriminate|].
    apply andb_true_iff in H as [Hx Hl]. apply N.eqb_eq in Hx. subst y.
    simpl. f_equal. auto.
Qed.

Lemma skipn_app_exact (A : Type) (l s : list A) : skipn (length l) (l ++ s) = s.
Proof. induction l; simpl; auto. Qed.

Lemma rx_match_lit (l : pystr) (p : list rx) :
  forall s pos,
    rx_match (lit l ++ p) s pos
    = if starts_with l s then rx_match p (skipn (length l) s) (pos + length l)
      else None.
Proof.
  induction l as [|x l IH]; intros s pos.
  - simpl. now rewrite Nat.add_0_r.
  - destruct s as [|y s]; [reflexivity|].
    simpl. destruct (N.eqb x y); [|reflexivity].
    rewrite IH. simpl. now rewrite Nat.add_succ_r.
Qed.

(** A greedy [\s*] before a literal that is not whitespace skips exactly the
    leading whitespace. *)
Lemma rx_match_ws (c : char) (p : list rx) :
  isspace c = false ->
  forall s pos,
    rx_match (ws ++ RChar c :: p) s pos
    = rx_match (RChar c :: p) (lstrip s) (pos + (length s - length (lstrip s))).
Proof.
  intros Hc. induction s as [|d s IH]; intros pos.
  - simpl. reflexivity.
  - change (rx_match (ws ++ RChar c :: p) (d :: s) pos)
      with (match (if isspace d then rx_match (ws ++ RChar c :: p) s (S pos)
                   else None) with
            | Some r => Some r
            | None => rx_match (RChar c :: p) (d :: s) pos
            end).
    destruct (isspace d) eqn:Ed.
    + rewrite IH.
      assert (El : lstrip (d :: s) = lstrip s) by (simpl; now rewrite Ed).
      rewrite El. pose proof (lstrip_length s) as L.
      replace (pos + (length (d :: s) - length (lstrip s)))
        with (S pos + (length s - length (lstrip s)))
        by (change (length (d :: s)) with (S (length s)); lia).
      destruct (rx_match (RChar c :: p) (lstrip s) _) as [r|]; [reflexivity|].
      simpl. destruct (N.eqb_spec c d) as [->|_]; [congruence | reflexivity].
    + rewrite lstrip_nonspace by assumption.
      rewrite Nat.sub_diag, Nat.add_0_r. reflexivity.
Qed.

Lemma wf_toks_tail (t : tok) (ts : list tok) :
  wf_toks (t :: ts) = true -> wf_toks ts = true.
Proof.
  destruct t; simpl; [auto|]. intros H. now apply andb_true_iff in H as [_ H].
Qed.

Lemma scan_suffix (ts : list tok) :
  forall s r, scan ts s = Some r -> exists g, s = g ++ r /\ delim ts g.
Proof.
  induction ts as [|[l|] ts IH]; intros s r H; simpl in *.
  - injection H as <-. exists []. split; reflexivity.
  - destruct (starts_with l s) eqn:E; [|discriminate].
    apply IH in H as (g & Hg & Hd).
    exists (l ++ g). split.
    + rewrite <- app_assoc, <- Hg. now apply starts_with_split.
    + eauto.
  - apply IH in H as (g & Hg & Hd).
    destruct (lstrip_split s) as (w & Hw & Es).
    exists (w ++ g). split.
    + rewrite <- app_assoc, <- Hg. exact Es.
    + eauto.
Qed.

Lemma scan_length (ts : list tok) (s r : pystr) :
  scan ts s = Some r -> length r <= length s.
Proof.
  intros H. apply scan_suffix in H as (g & -> & _). rewrite length_app. lia.
Qed.

(** A delimiter starts with the first character of its first literal. *)
Lemma delim_head (l : pystr) (c : char) (ts : list tok) (g : pystr) :
  delim (TLitS (c :: l) :: ts) g -> exists g', g = c :: g'.
Proof. intros (g' & -> & _). simpl. eauto. Qed.

Lemma scan_delim (ts : list tok) :
  wf_toks ts = true ->
  forall g r, delim ts g -> scan ts (g ++ r) = Some r.
Proof.
  induction ts as [|[l|] ts IH]; intros Hwf g r Hd; simpl in *.
  - now subst g.
  - destruct Hd as (g' & -> & Hd). rewrite <- app_assoc.
    rewrite starts_with_app, skipn_app_exact. auto.
  - destruct Hd as (w & g' & Hw & -> & Hd).
    apply andb_true_iff in Hwf as [Hc Hwf].
    destruct ts as [|[[|c l]|] ts]; try discriminate.
    destruct (delim_head Hd) as (g'' & Eg).
    rewrite <- app_assoc, lstrip_app_ws by assumption.
    rewrite Eg at 1. simpl app. rewrite lstrip_nonspace.
    + change (c :: g'' ++ r) with ((c :: g'') ++ r). rewrite <- Eg. auto.
    + now apply negb_true_iff.
Qed.

Lemma rx_match_scan (ts : list tok) (q : list rx) :
  wf_toks ts = true ->
  forall s pos,
    rx_match (toks_rx ts ++ q) s pos
    = match scan ts s with
      | Some r => rx_match q r (pos + (length s - length r))
      | None => None
      end.
Proof.
  induction ts as [|[l|] ts IH]; intros Hwf s pos.
  - simpl. now rewrite Nat.sub_diag, Nat.add_0_r.
  - change (toks_rx (TLitS l :: ts) ++ q) with ((lit l ++ toks_rx ts) ++ q).
    rewrite <- app_assoc, rx_match_lit. simpl scan.
    destruct (starts_with l s) eqn:E; [|reflexivity].
    rewrite IH by (eapply wf_toks_tail; eauto).
    destruct (scan ts (skipn (length l) s)) as [r|] eqn:Er; [|reflexivity].
    f_equal. apply scan_length in Er. rewrite length_skipn in *.
    apply starts_with_split in E. apply (f_equal (@length _)) in E.
    rewrite length_app, length_skipn in E. lia.
  - pose proof Hwf as Hwf'. simpl in Hwf.
    apply andb_true_iff in Hwf as [Hc Hwf].
    destruct ts as [|[[|c l]|] ts]; try discriminate.
    change (toks_rx (TWs :: TLitS (c :: l) :: ts) ++ q)
      with (ws ++ RChar c :: (lit l ++ toks_rx ts) ++ q).
    rewrite rx_match_ws by (now apply negb_true_iff).
    change (RChar c :: (lit l ++ toks_rx ts) ++ q)
      with (toks_rx (TLitS (c :: l) :: ts) ++ q).
    rewrite IH by assumption.
    change (scan (TWs :: TLitS (c :: l) :: ts) s)
      with (scan (TLitS (c :: l) :: ts) (lstrip s)).
    destruct (scan (TLitS (c :: l) :: ts) (lstrip s)) as [r|] eqn:Er;
      [|reflexivity].
    f_equal. apply scan_length in Er. pose proof (lstrip_length s). lia.
Qed.

Section FirstSuffix.
Variable B : Type.
Variable f : pystr -> nat -> option B.

Lemma first_suffix_some (s : pystr) :
  forall pos b,
    first_suffix f s pos = Some b ->
    exists k, k <= length s
              /\ f (skipn k s) (pos + k) = Some b
              /\ forall j, j < k -> f (skipn j s) (pos + j) = None.
Proof.
  induction s as [|c s IH]; intros pos b H; simpl in H.
  - destruct (f [] pos) eqn:E; [|discriminate]. injection H as ->.
    exists 0. rewrite Nat.add_0_r. simpl. repeat split; auto. lia.
  - destruct (f (c :: s) pos) eqn:E.
    + injection H as ->. exists 0. rewrite Nat.add_0_r. simpl.
      repeat split; auto; lia.
    + apply IH in H as (k & Hk & Hf & Hj). exists (S k). simpl.
      rewrite Nat.add_succ_r. repeat split; auto; try lia.
      intros [|j] Hlt; simpl.
      * now rewrite Nat.add_0_r.
      * rewrite Nat.add_succ_r. apply Hj. lia.
Qed.

Lemma first_suffix_intro (s : pystr) :
  forall pos k b,
    k <= length s ->
    f (skipn k s) (pos + k) = Some b ->
    (forall j, j < k -> f (skipn j s) (pos + j) = None) ->
    first_suffix f s pos = Some b.
Proof.
  induction s as [|c s IH]; intros pos k b Hk Hf Hj.
  - simpl in Hk. assert (k = 0) by lia. subst k.
    simpl in *. rewrite Nat.add_0_r in Hf. now rewrite Hf.
  - destruct k as [|k].
    + simpl in *. rewrite Nat.add_0_r in Hf. now rewrite Hf.
    + pose proof (Hj 0 ltac:(lia)) as H0. simpl in H0.
      rewrite Nat.add_0_r in H0. simpl. rewrite H0.
      apply (IH (S pos) k).
      * simpl in Hk. lia.
      * simpl in Hf. now rewrite Nat.add_succ_r in Hf.
      * intros j Hlt. specialize (Hj (S j)). simpl in Hj.
        rewrite Nat.add_succ_r in Hj. apply Hj. lia.
Qed.

Lemma first_suffix_none (s : pystr) :
  forall pos,
    first_suffix f s pos = None ->
    forall k, k <= length s -> f (skipn k s) (pos + k) = None.
Proof.
  induction s as [|c s IH]; intros pos H k Hk; simpl in H.
  - simpl in Hk. assert (k = 0) by lia. subst k. simpl.
    rewrite Nat.add_0_r. destruct (f [] pos); [discriminate | reflexivity].
  - destruct (f (c :: s) pos) eqn:E; [discriminate|].
    destruct k as [|k]; simpl.
    + now rewrite Nat.add_0_r.
    + rewrite Nat.add_succ_r. apply (IH (S pos) H). simpl in Hk. lia.
Qed.

(** Some suffix has a result, so the first one is found. *)
Lemma first_suffix_exists (s : pystr) :
  forall pos k b,
    k <= length s -> f (skipn k s) (pos + k) = Some b ->
    exists b', first_suffix f s pos = Some b'.
Proof.
  intros pos k b Hk Hf.
  destruct (first_suffix f s pos) as [b'|] eqn:E; [eauto|].
  rewrite (first_suffix_none _ _ E Hk) in Hf. discriminate.
Qed.
End FirstSuffix.

(** The lazy [.*?] before the rest of a pattern tries the rest at every
    offset from the left. *)
Lemma star_loop_lazy (rest : pystr -> nat -> option (list nat * nat)) :
  forall s pos,
    star_loop false any_char rest s pos = first_suffix rest s pos.
Proof.
  induction s as [|c s IH]; intros pos; simpl.
  - destruct (rest [] pos); reflexivity.
  - rewrite IH. destruct (rest (c :: s) pos); reflexivity.
Qed.

Lemma first_suffix_ext (B : Type) (f g : pystr -> nat -> option B) :
  (forall s pos, f s pos = g s pos) ->
  forall s pos, first_suffix f s pos = first_suffix g s pos.
Proof.
  intros H. induction s as [|c s IH]; intros pos; simpl; rewrite H.
  - reflexivity.
  - now rewrite IH.
Qed.

Lemma first_suffix_map (B C : Type) (h : B -> C) (f : pystr -> nat -> option B) :
  forall s pos,
    first_suffix (fun s pos => option_map h (f s pos)) s pos
    = option_map h (first_suffix f s pos).
Proof.
  induction s as [|c s IH]; intros pos; simpl.
  - destruct (f [] pos); reflexivity.
  - destruct (f (c :: s) pos); [reflexivity | apply IH].
Qed.

Lemma layer_open_toks (layer_name : pystr) :
  layer_open layer_name = toks_rx (open_toks layer_name).
Proof. reflexivity. Qed.

Lemma layer_close_toks : layer_close = toks_rx close_toks ++ [].
Proof. reflexivity. Qed.

Lemma wf_open_toks (layer_name : pystr) : wf_toks (open_toks layer_name) = true.
Proof. reflexivity. Qed.

Lemma wf_close_toks : wf_toks close_toks = true.
Proof. reflexivity. Qed.

Lemma rx_match_close (s : pystr) (pos : nat) :
  rx_match ([RMark] ++ layer_close) s pos
  = option_map (fun be => ([fst be], snd be)) (close_at s pos).
Proof.
  change (rx_match ([RMark] ++ layer_close) s pos)
    with (match rx_match layer_close s pos with
          | Some (ms, e) => Some (pos :: ms, e)
          | None => None
          end).
  rewrite layer_close_toks, rx_match_scan by apply wf_close_toks.
  unfold close_at. destruct (scan close_toks s); reflexivity.
Qed.

(** The matcher on the layer pattern reads the opening delimiter, then looks
    for the first closing delimiter. *)
Lemma rx_match_layer (layer_name s : pystr) (pos : nat) :
  rx_match (layer_pattern layer_name) s pos = layer_match_at layer_name s pos.
Proof.
  unfold layer_pattern, layer_match_at.
  rewrite layer_open_toks, rx_match_scan by apply wf_open_toks.
  destruct (scan (open_toks layer_name) s) as [r|]; [|reflexivity].
  set (p1 := pos + (length s - length r)).
  change (rx_match ([RMark] ++ lazy_any ++ [RMark] ++ layer_close) r p1)
    with (match star_loop false any_char (rx_match ([RMark] ++ layer_close)) r p1 with
          | Some (ms, e) => Some (p1 :: ms, e)
          | None => None
          end).
  rewrite star_loop_lazy.
  rewrite (first_suffix_ext _ _ rx_match_close).
  rewrite first_suffix_map. unfold find_close.
  destruct (first_suffix close_at r p1) as [[b e]|]; reflexivity.
Qed.

Lemma match_at_none (p : list rx) (s : pystr) (pos : nat) :
  match_at p s pos = None <-> rx_match p s pos = None.
Proof.
  unfold match_at. destruct (rx_match p s pos) as [[ms e]|]; split;
    intros; try discriminate; reflexivity.
Qed.

Lemma close_at_none (s : pystr) (pos : nat) :
  close_at s pos = None <-> scan close_toks s = None.
Proof.
  unfold close_at. destruct (scan close_toks s); split;
    intros; try discriminate; reflexivity.
Qed.

(** What [search] finds for the layer pattern is the leftmost region. *)
Lemma search_layer_region (layer_name text : pystr) (m : rmatch) :
  search (layer_pattern layer_name) text = Some m ->
  exists pre g1 body g3 post,
    layer_region layer_name text pre g1 body g3 post
    /\ m = region_match pre g1 body g3.
Proof.
  unfold search. intros H.
  apply first_suffix_some in H as (k & Hk & Hm & Hleft).
  unfold match_at in Hm. rewrite rx_match_layer in Hm.
  unfold layer_match_at in Hm. change (0 + k) with k in Hm.
  destruct (scan (open_toks layer_name) (skipn k text)) as [r|] eqn:Eo;
    [|discriminate].
  destruct (scan_suffix _ _ Eo) as (g1 & Eg1 & Hg1).
  destruct (find_close r (k + (length (skipn k text) - length r)))
    as [[b e]|] eqn:Ec; [|discriminate].
  injection Hm as <-.
  unfold find_close in Ec.
  apply first_suffix_some in Ec as (k2 & Hk2 & Hc & Hmin).
  unfold close_at in Hc.
  destruct (scan close_toks (skipn k2 r)) as [r'|] eqn:Ecl; [|discriminate].
  injection Hc as <- <-.
  destruct (scan_suffix _ _ Ecl) as (g3 & Eg3 & Hg3).
  exists (firstn k text), g1, (firstn k2 r), g3, r'.
  assert (Lpre : length (firstn k text) = k) by (rewrite length_firstn; lia).
  assert (Lbody : length (firstn k2 r) = k2) by (rewrite length_firstn; lia).
  assert (Er : r = firstn k2 r ++ g3 ++ r').
  { rewrite <- Eg3. symmetry. apply firstn_skipn. }
  split; [split; [|split; [|split; [|split]]]|].
  - rewrite <- Er, <- Eg1. symmetry. apply firstn_skipn.
  - exact Hg1.
  - exact Hg3.
  - intros j Hj. rewrite <- Er. rewrite Lbody in Hj.
    apply (close_at_none _ (k + (length (skipn k text) - length r) + j)).
    now apply Hmin.
  - intros j Hj. rewrite Lpre in Hj.
    apply match_at_none. now apply (Hleft j).
  - unfold region_match. rewrite Lpre, Lbody.
    rewrite Eg1, Eg3, !length_app.
    f_equal; [f_equal; [lia | f_equal; lia] | lia].
Qed.

Lemma region_search (layer_name text pre g1 body g3 post : pystr) :
  layer_region layer_name text pre g1 body g3 post ->
  search (layer_pattern layer_name) text = Some (region_match pre g1 body g3).
Proof.
  intros (Et & Hg1 & Hg3 & Hmin & Hleft).
  unfold search.
  apply (first_suffix_intro (match_at (layer_pattern layer_name)) text 0
           (k := length pre)).
  - rewrite Et, length_app. lia.
  - unfold match_at. rewrite rx_match_layer. unfold layer_match_at.
    rewrite Et, skipn_app_exact.
    rewrite (scan_delim _ (wf_open_toks layer_name) _ (body ++ g3 ++ post) Hg1).
    unfold find_close.
    rewrite (first_suffix_intro close_at (body ++ g3 ++ post) _
               (k := length body)
               (b := (length pre + length g1 + length body,
                      length pre + length g1 + length body + length g3))).
    + unfold region_match. simpl. rewrite !length_app.
      do 3 f_equal. lia.
    + rewrite length_app. lia.
    + unfold close_at. rewrite skipn_app_exact.
      rewrite (scan_delim _ wf_close_toks _ post Hg3).
      rewrite !length_app. f_equal. f_equal; lia.
    + intros j Hj. apply close_at_none. now apply Hmin.
  - intros j Hj. apply match_at_none. now apply Hleft.
Qed.

Lemma firstn_app_exact (A : Type) (l s : list A) : firstn (length l) (l ++ s) = l.
Proof. induction l; simpl; [now destruct s | now f_equal]. Qed.

Lemma slice_app_mid (A : Type) (a b c : list A) :
  slice (a ++ b ++ c) (length a) (length a + length b) = b.
Proof.
  unfold slice. rewrite skipn_app_exact.
  replace (length a + length b - length a) with (length b) by lia.
  apply firstn_app_exact.
Qed.

Lemma region_slices (pre g1 body g3 post : pystr) :
  let text := pre ++ g1 ++ body ++ g3 ++ post in
  let m := region_match pre g1 body g3 in
  firstn (m_start m) text = pre
  /\ slice text (m_start m) (body_start m) = g1
  /\ slice text (body_start m) (body_end m) = body
  /\ slice text (body_end m) (m_end m) = g3
  /\ skipn (m_end m) text = post.
Proof.
  intros text m. subst text m.
  unfold body_start, body_end, region_match.
  simpl nth. simpl m_start. simpl m_end.
  split; [|split; [|split; [|split]]].
  - apply firstn_app_exact.
  - apply slice_app_mid.
  - replace (pre ++ g1 ++ body ++ g3 ++ post)
      with ((pre ++ g1) ++ body ++ g3 ++ post) by (now rewrite <- !app_assoc).
    replace (length pre + length g1)
      with (length (pre ++ g1)) by (rewrite !length_app; lia).
    apply slice_app_mid.
  - replace (pre ++ g1 ++ body ++ g3 ++ post)
      with ((pre ++ g1 ++ body) ++ g3 ++ post) by (now rewrite <- !app_assoc).
    replace (length pre + length g1 + length body)
      with (length (pre ++ g1 ++ body)) by (rewrite !length_app; lia).
    apply slice_app_mid.
  - replace (pre ++ g1 ++ body ++ g3 ++ post)
      with ((pre ++ g1 ++ body ++ g3) ++ post) by (now rewrite <- !app_assoc).
    replace (length pre + length g1 + length body + length g3)
      with (length (pre ++ g1 ++ body ++ g3)) by (rewrite !length_app; lia).
    apply skipn_app_exact.
Qed.

(** The per-layer patch on a document in which [search] finds the region
    between [pre] and [post]. *)
Lemma sync_layer_bindings_at
    (layer_name text pre g1 body g3 post : pystr) (keys : list key) (block : pystr) :
  text = pre ++ g1 ++ body ++ g3 ++ post ->
  search (layer_pattern layer_name) text = Some (region_match pre g1 body g3) ->
  render_bindings keys = Ok block ->
  sync_layer_bindings text layer_name keys
  = Ok (if eqb_str (normalize body) (normalize block)
        then (text, 1, false)
        else (pre ++ g1 ++ block ++ g3 ++ post, 1, true)).
Proof.
  intros Et Hs Hblock. unfold sync_layer_bindings. rewrite Hblock. simpl bind.
  rewrite Hs.
  destruct (region_slices pre g1 body g3 post) as (E0 & E1 & E2 & E3 & E4).
  rewrite <- Et in *. rewrite E0, E1, E2, E3, E4.
  destruct (eqb_str (normalize body) (normalize block)); [reflexivity|].
  now rewrite <- !app_assoc.
Qed.

(** The per-layer patch on a document read as its leftmost region. *)
Lemma sync_layer_bindings_region
    (layer_name text pre g1 body g3 post : pystr) (keys : list key) (block : pystr) :
  layer_region layer_name text pre g1 body g3 post ->
  render_bindings keys = Ok block ->
  sync_layer_bindings text layer_name keys
  = Ok (if eqb_str (normalize body) (normalize block)
        then (text, 1, false)
        else (pre ++ g1 ++ block ++ g3 ++ post, 1, true)).
Proof.
  intros Hreg Hblock.
  apply sync_layer_bindings_at;
    [apply Hreg | now apply (region_search Hreg) | exact Hblock].
Qed.

Lemma sync_layer_bindings_not_found (layer_name text : pystr) (keys : list key)
    (block : pystr) :
  render_bindings keys = Ok block ->
  search (layer_pattern layer_name) text = None ->
  sync_layer_bindings text layer_name keys = Ok (text, 0, false).
Proof.
  intros Hblock Hs. unfold sync_layer_bindings. now rewrite Hblock, Hs.
Qed.

(** ** The per-layer patch *)

Lemma split_acc_collapse (s : pystr) :
  forall w,
    split_acc w (collapse_aux false s) = split_acc w s
    /\ split_acc [] (collapse_aux true s) = split_acc [] s.
Proof.
  induction s as [|c s IH]; intros w; simpl.
  - split; reflexivity.
  - destruct (isspace c) eqn:Ec; simpl.
    + change (isspace sp) with true. cbv iota.
      destruct (IH []) as [_ ->]. split; reflexivity.
    + rewrite Ec. destruct (IH (w ++ [c])) as [-> _].
      destruct (IH [c]) as [-> _]. split; reflexivity.
Qed.

Lemma normalize_collapse (s : pystr) : normalize (collapse s) = normalize s.
Proof.
  unfold normalize, split, collapse.
  now destruct (split_acc_collapse s []) as [-> _].
Qed.

(** C6. When the layer pattern has a match and the body found there equals
    the freshly rendered block once every run of whitespace is collapsed to
    one space, [sync_layer_bindings] returns the document it was given,
    with count 1 and no change reported. *)
Theorem sync_layer_bindings_whitespace
    (config_text layer_name : pystr) (keys : list key) (block : pystr) (m : rmatch) :
  render_bindings keys = Ok block ->
  search (layer_pattern layer_name) config_text = Some m ->
  collapse (slice config_text (body_start m) (body_end m)) = collapse block ->
  sync_layer_bindings config_text layer_name keys = Ok (config_text, 1, false).
Proof.
  intros Hblock Hs Hc. unfold sync_layer_bindings.
  rewrite Hblock, Hs. simpl bind.
  rewrite <- (normalize_collapse (slice _ _ _)), Hc, normalize_collapse.
  now rewrite eqb_str_refl.
Qed.

Lemma sync_layer_bindings_whitespace_witness :
  sync_layer_bindings doc_reflowed base sample_keys = Ok (doc_reflowed, 1, false).
Proof.
  apply (@sync_layer_bindings_whitespace doc_reflowed base sample_keys
           sample_block (Match 13 [45; 685] 701)); vm_compute; reflexivity.
Defined.

(** C7. When [sync_layer_bindings] reports a change, the document is the
    text before the match, the opening delimiter as it was, the rendered
    block, the closing delimiter as it was, and the text after the match:
    only the body of the matched region differs. *)
Theorem sync_layer_bindings_frame
    (config_text layer_name : pystr) (keys : list key) (updated : pystr) :
  sync_layer_bindings config_text layer_name keys = Ok (updated, 1, true) ->
  exists pre g1 body g3 post block,
    render_bindings keys = Ok block
    /\ search (layer_pattern layer_name) config_text
       = Some (region_match pre g1 body g3)
    /\ config_text = pre ++ g1 ++ body ++ g3 ++ post
    /\ updated = pre ++ g1 ++ block ++ g3 ++ post
    /\ delim (open_toks layer_name) g1
    /\ delim close_toks g3.
Proof.
  intros H.
  destruct (render_bindings keys) as [block|e] eqn:Hblock.
  2:{ unfold sync_layer_bindings in H. rewrite Hblock in H. discriminate. }
  destruct (search (layer_pattern layer_name) config_text) as [m|] eqn:Hs.
  2:{ rewrite (sync_layer_bindings_not_found _ _ _ Hblock Hs) in H.
      discriminate. }
  destruct (search_layer_region _ _ Hs) as (pre & g1 & body & g3 & post & Hreg & ->).
  rewrite (sync_layer_bindings_region _ Hreg Hblock) in H.
  destruct (eqb_str (normalize body) (normalize block)); [discriminate|].
  injection H as <-.
  exists pre, g1, body, g3, post, block.
  destruct Hreg as (Et & Hg1 & Hg3 & _). repeat split; assumption.
Qed.

Lemma sync_layer_bindings_frame_witness :
  exists pre g1 body g3 post block,
    render_bindings sample_keys = Ok block
    /\ search (layer_pattern base) doc_stale = Some (region_match pre g1 body g3)
    /\ doc_stale = pre ++ g1 ++ body ++ g3 ++ post
    /\ doc_fresh = pre ++ g1 ++ block ++ g3 ++ post
    /\ delim (open_toks base) g1
    /\ delim close_toks g3.
Proof.
  apply (@sync_layer_bindings_frame doc_stale base sample_keys doc_fresh).
  vm_compute. reflexivity.
Defined.

Lemma skipn_app_ge (A : Type) (a b : list A) (n : nat) :
  length a <= n -> skipn n (a ++ b) = skipn (n - length a) b.
Proof.
  intros H. rewrite skipn_app, skipn_all2 by assumption. reflexivity.
Qed.

(** C10. When the layer pattern has a match, and so also when it has a later
    one from [later] to [e], [sync_layer_bindings] returns count 1 without
    error.  The match [m] it works on is the leftmost one; a change is
    reported exactly when the body of [m] and the rendered block differ
    after normalization, and then the body of [m] alone is replaced by the
    block, otherwise the document is returned as it is.  The document from
    [later] on, with the later region, is in the result unchanged. *)
Theorem sync_layer_bindings_leftmost
    (config_text layer_name : pystr) (keys : list key) (block : pystr)
    (m : rmatch) (later : nat) (ms : list nat) (e : nat) :
  render_bindings keys = Ok block ->
  search (layer_pattern layer_name) config_text = Some m ->
  m_end m <= later ->
  rx_match (layer_pattern layer_name) (skipn later config_text) later
  = Some (ms, e) ->
  exists updated changed,
    sync_layer_bindings config_text layer_name keys = Ok (updated, 1, changed)
    /\ (forall j, j < m_start m ->
        rx_match (layer_pattern layer_name) (skipn j config_text) j = None)
    /\ changed
       = negb (eqb_str
                 (normalize (slice config_text (body_start m) (body_end m)))
                 (normalize block))
    /\ (changed = false -> updated = config_text)
    /\ (changed = true ->
        updated = firstn (m_start m) config_text
                  ++ slice config_text (m_start m) (body_start m)
                  ++ block
                  ++ slice config_text (body_end m) (m_end m)
                  ++ skipn (m_end m) config_text)
    /\ skipn (later + length updated - length config_text) updated
       = skipn later config_text
    /\ slice updated (later + length updated - length config_text)
         (e + length updated - length config_text)
       = slice config_text later e.
Proof.
  intros Hblock Hs Hlater _.
  destruct (search_layer_region _ _ Hs) as (pre & g1 & body & g3 & post & Hreg & ->).
  rewrite (sync_layer_bindings_region _ Hreg Hblock).
  destruct Hreg as (Et & Hg1 & Hg3 & Hmin & Hleft).
  destruct (region_slices pre g1 body g3 post) as (E0 & E1 & E2 & E3 & E4).
  rewrite <- Et in *. rewrite E0, E1, E2, E3, E4.
  unfold region_match in *. simpl m_end in *. simpl m_start in *.
  destruct (eqb_str (normalize body) (normalize block)) eqn:En.
  - exists config_text, false. repeat split; auto; try discriminate.
    + f_equal. lia.
    + unfold slice. f_equal; [lia | f_equal; lia].
  - exists (pre ++ g1 ++ block ++ g3 ++ post), true.
    assert (Hsuf : skipn (later + length (pre ++ g1 ++ block ++ g3 ++ post)
                          - length config_text)
                     (pre ++ g1 ++ block ++ g3 ++ post)
                   = skipn later config_text).
    { rewrite Et.
      replace (pre ++ g1 ++ body ++ g3 ++ post)
        with ((pre ++ g1 ++ body ++ g3) ++ post) by (now rewrite <- !app_assoc).
      replace (pre ++ g1 ++ block ++ g3 ++ post)
        with ((pre ++ g1 ++ block ++ g3) ++ post) by (now rewrite <- !app_assoc).
      rewrite !skipn_app_ge; rewrite !length_app in *; try lia.
      f_equal. lia. }
    repeat split; auto; try discriminate.
    unfold slice. rewrite Hsuf. f_equal.
    rewrite Et, !length_app. lia.
Qed.

Lemma sync_layer_bindings_leftmost_witness :
  exists updated changed,
    sync_layer_bindings doc_twice base sample_keys = Ok (updated, 1, changed)
    /\ (forall j, j < 13 ->
        rx_match (layer_pattern base) (skipn j doc_twice) j = None)
    /\ changed
       = negb (eqb_str (normalize (slice doc_twice 45 56))
                 (normalize sample_block))
    /\ (changed = false -> updated = doc_twice)
    /\ (changed = true ->
        updated = firstn 13 doc_twice
                  ++ slice doc_twice 13 45
                  ++ sample_block
                  ++ slice doc_twice 56 72
                  ++ skipn 72 doc_twice)
    /\ skipn (77 + length updated - length doc_twice) updated
       = skipn 77 doc_twice
    /\ slice updated (77 + length updated - length doc_twice)
         (130 + length updated - length doc_twice)
       = slice doc_twice 77 130.
Proof.
  apply (@sync_layer_bindings_leftmost doc_twice base sample_keys sample_block
           (Match 13 [45; 56] 72) 77 [109; 114] 130);
    vm_compute; (reflexivity || lia).
Defined.

(** On the document with two stale blocks of the layer, the change is
    reported, the first block is replaced and the second stays stale. *)
Lemma sync_layer_bindings_twice_first :
  sync_layer_bindings doc_twice base sample_keys = Ok (doc_twice_first, 1, true).
Proof. vm_compute. reflexivity. Qed.

(** ** The "Custom Defined Behaviors" patch *)

Lemma rx_match_cdb_close (s : pystr) (pos : nat) :
  rx_match (lit CDB_CLOSE) s pos = cdb_close_at s pos.
Proof.
  rewrite <- (app_nil_r (lit CDB_CLOSE)), rx_match_lit. reflexivity.
Qed.

Lemma rx_match_cdb (s : pystr) (pos : nat) :
  rx_match CDB_PATTERN s pos
  = if starts_with CDB_OPEN s
    then first_suffix cdb_close_at (skipn (length CDB_OPEN) s)
           (pos + length CDB_OPEN)
    else None.
Proof.
  unfold CDB_PATTERN. rewrite rx_match_lit.
  destruct (starts_with CDB_OPEN s); [|reflexivity].
  change (rx_match (lazy_any ++ lit CDB_CLOSE))
    with (star_loop false any_char (rx_match (lit CDB_CLOSE))).
  rewrite star_loop_lazy.
  apply first_suffix_ext. apply rx_match_cdb_close.
Qed.

Lemma cdb_close_at_app (post : pystr) (pos : nat) :
  cdb_close_at (CDB_CLOSE ++ post) pos = Some ([], pos + length CDB_CLOSE).
Proof. unfold cdb_close_at. now rewrite starts_with_app. Qed.

(** A region at offset [length pre] gives a match there. *)
Lemma rx_match_cdb_region (pre body post : pystr) :
  exists e,
    rx_match CDB_PATTERN
      (skipn (length pre) (pre ++ CDB_OPEN ++ body ++ CDB_CLOSE ++ post))
      (length pre) = Some ([], e).
Proof.
  rewrite skipn_app_exact, rx_match_cdb, starts_with_app, skipn_app_exact.
  destruct (first_suffix_exists cdb_close_at (body ++ CDB_CLOSE ++ post)
              (length pre + length CDB_OPEN) (k := length body)
              (b := ([], length pre + length CDB_OPEN + length body
                         + length CDB_CLOSE))) as (b' & Hb').
  - rewrite length_app. lia.
  - now rewrite skipn_app_exact, cdb_close_at_app.
  - rewrite Hb'. apply first_suffix_some in Hb' as (k & _ & Hk & _).
    unfold cdb_close_at in Hk.
    destruct (starts_with CDB_CLOSE _); [|discriminate].
    injection Hk as <-. eauto.
Qed.

(** What [search] finds for the pattern of the region: the leftmost opening
    marker that has a closing marker after it, up to the first such closing
    marker. *)
Lemma search_cdb_region (text : pystr) (m : rmatch) :
  search CDB_PATTERN text = Some m ->
  exists pre body post,
    text = pre ++ CDB_OPEN ++ body ++ CDB_CLOSE ++ post
    /\ m_start m = length pre
    /\ m_end m = length pre + length CDB_OPEN + length body + length CDB_CLOSE
    /\ (forall j, j < length pre ->
        rx_match CDB_PATTERN (skipn j text) j = None)
    /\ (forall k, k < length body ->
        starts_with CDB_CLOSE (skipn k (body ++ CDB_CLOSE ++ post)) = false).
Proof.
  unfold search. intros H.
  apply first_suffix_some in H as (k & Hk & Hm & Hleft).
  change (0 + k) with k in Hm. unfold match_at in Hm.
  rewrite rx_match_cdb in Hm.
  destruct (starts_with CDB_OPEN (skipn k text)) eqn:Eo; [|discriminate].
  apply starts_with_split in Eo.
  set (r := skipn (length CDB_OPEN) (skipn k text)) in *.
  destruct (first_suffix cdb_close_at r (k + length CDB_OPEN))
    as [[ms e]|] eqn:Ec; [|discriminate].
  injection Hm as <-.
  apply first_suffix_some in Ec as (k2 & Hk2 & Hc & Hmin).
  unfold cdb_close_at in Hc.
  destruct (starts_with CDB_CLOSE (skipn k2 r)) eqn:Ecl; [|discriminate].
  injection Hc as <- <-.
  apply starts_with_split in Ecl.
  exists (firstn k text), (firstn k2 r), (skipn (length CDB_CLOSE) (skipn k2 r)).
  assert (Lpre : length (firstn k text) = k) by (rewrite length_firstn; lia).
  assert (Lbody : length (firstn k2 r) = k2) by (rewrite length_firstn; lia).
  assert (Er : r = firstn k2 r ++ CDB_CLOSE
                   ++ skipn (length CDB_CLOSE) (skipn k2 r)).
  { rewrite <- Ecl. symmetry. apply firstn_skipn. }
  rewrite Lpre, Lbody. repeat split.
  - rewrite <- Er, <- Eo. symmetry. apply firstn_skipn.
  - intros j Hj. apply match_at_none. now apply (Hleft j).
  - intros j Hj. rewrite <- Er. specialize (Hmin j Hj).
    unfold cdb_close_at in Hmin.
    destruct (starts_with CDB_CLOSE (skipn j r)); [discriminate | reflexivity].
Qed.

Lemma search_cdb_none (text : pystr) :
  search CDB_PATTERN text = None -> ~ has_cdb_region text.
Proof.
  intros H (pre & body & post & Et).
  destruct (rx_match_cdb_region pre body post) as (e & He).
  rewrite <- Et in He.
  assert (Hk : length pre <= length text) by (rewrite Et, length_app; lia).
  pose proof (first_suffix_none _ _ _ H Hk) as Hn.
  apply match_at_none in Hn. change (0 + length pre) with (length pre) in Hn.
  congruence.
Qed.

(** A replacement without backslash is a well-formed template that stands
    for itself. *)
Lemma parse_template_plain (repl : pystr) :
  existsb (N.eqb backslash) repl = false ->
  parse_template repl = Some (map TLit repl).
Proof.
  unfold parse_template. induction repl as [|c repl IH]; intros H.
  - reflexivity.
  - change (existsb (N.eqb backslash) (c :: repl))
      with (N.eqb backslash c || existsb (N.eqb backslash) repl) in H.
    apply orb_false_iff in H as [Hc H]. rewrite N.eqb_sym in Hc.
    cbn [parse_template_st].
    rewrite Hc. simpl negb. cbv iota. now rewrite (IH H).
Qed.

Lemma expand_template_plain (repl whole : pystr) :
  expand_template (map TLit repl) whole = repl.
Proof.
  unfold expand_template. induction repl as [|c repl IH]; simpl; [|rewrite IH];
    reflexivity.
Qed.

(** C1, amended. With a well-formed replacement template, the step of the
    "Custom Defined Behaviors" region in [main] raises its error exactly
    when the document does not hold the two markers in order.  When it does,
    however often, the step succeeds: the leftmost opening marker with a
    closing marker after it, up to the first such closing marker, is
    replaced, and the text after it, with any later region, is kept. *)
Theorem cdb_step_found (config_text dtsi_text : pystr) (t : list titem) :
  parse_template (cdb_replacement dtsi_text) = Some t ->
  (cdb_step config_text dtsi_text = Raise (RuntimeError no_cdb_msg)
   <-> ~ has_cdb_region config_text)
  /\ (has_cdb_region config_text ->
      exists pre body post,
        config_text = pre ++ CDB_OPEN ++ body ++ CDB_CLOSE ++ post
        /\ (forall pre2 body2 post2,
            config_text = pre2 ++ CDB_OPEN ++ body2 ++ CDB_CLOSE ++ post2 ->
            length pre <= length pre2)
        /\ (forall body2 post2,
            config_text = pre ++ CDB_OPEN ++ body2 ++ CDB_CLOSE ++ post2 ->
            length body <= length body2)
        /\ cdb_step config_text dtsi_text
           = Ok (pre ++ expand_template t (CDB_OPEN ++ body ++ CDB_CLOSE) ++ post)).
Proof.
  intros Ht.
  unfold cdb_step, sync_custom_defined_behaviors, subn1. rewrite Ht.
  destruct (search CDB_PATTERN config_text) as [m|] eqn:Hs; simpl bind.
  - destruct (search_cdb_region _ Hs)
      as (pre & body & post & Et & Hstart & Hend & Hleft & Hmin).
    assert (Hhas : has_cdb_region config_text) by (exists pre, body, post; exact Et).
    split.
    + split; [discriminate | intros N; contradiction].
    + intros _. exists pre, body, post. split; [exact Et|]. split; [|split].
      * intros pre2 body2 post2 E2.
        destruct (Nat.le_gt_cases (length pre) (length pre2)) as [L|L]; [exact L|].
        destruct (rx_match_cdb_region pre2 body2 post2) as (e & He).
        rewrite <- E2, (Hleft _ L) in He. discriminate.
      * intros body2 post2 E2.
        destruct (Nat.le_gt_cases (length body) (length body2)) as [L|L]; [exact L|].
        rewrite Et in E2. apply app_inv_head in E2. apply app_inv_head in E2.
        specialize (Hmin _ L). rewrite E2, skipn_app_exact, starts_with_app in Hmin.
        discriminate.
      * f_equal. rewrite Hstart, Hend.
        replace (slice config_text (length pre)
                   (length pre + length CDB_OPEN + length body + length CDB_CLOSE))
          with (CDB_OPEN ++ body ++ CDB_CLOSE).
        2:{ rewrite Et.
            replace (CDB_OPEN ++ body ++ CDB_CLOSE ++ post)
              with ((CDB_OPEN ++ body ++ CDB_CLOSE) ++ post)
              by (now rewrite <- !app_assoc).
            replace (length pre + length CDB_OPEN + length body + length CDB_CLOSE)
              with (length pre + length (CDB_OPEN ++ body ++ CDB_CLOSE))
              by (rewrite !length_app; lia).
            symmetry. apply slice_app_mid. }
        rewrite Et at 1. rewrite firstn_app_exact. f_equal. f_equal.
        rewrite Et.
        replace (pre ++ CDB_OPEN ++ body ++ CDB_CLOSE ++ post)
          with ((pre ++ CDB_OPEN ++ body ++ CDB_CLOSE) ++ post)
          by (now rewrite <- !app_assoc).
        replace (length pre + length CDB_OPEN + length body + length CDB_CLOSE)
          with (length (pre ++ CDB_OPEN ++ body ++ CDB_CLOSE))
          by (rewrite !length_app; lia).
        apply skipn_app_exact.
  - pose proof (@search_cdb_none _ Hs) as Hno. split.
    + split; [intros _; exact Hno | reflexivity].
    + intros Hhas. contradiction.
Qed.

Lemma cdb_step_found_witness :
  (cdb_step doc_two_cdb sample_dtsi = Raise (RuntimeError no_cdb_msg)
   <-> ~ has_cdb_region doc_two_cdb)
  /\ (has_cdb_region doc_two_cdb ->
      exists pre body post,
        doc_two_cdb = pre ++ CDB_OPEN ++ body ++ CDB_CLOSE ++ post
        /\ (forall pre2 body2 post2,
            doc_two_cdb = pre2 ++ CDB_OPEN ++ body2 ++ CDB_CLOSE ++ post2 ->
            length pre <= length pre2)
        /\ (forall body2 post2,
            doc_two_cdb = pre ++ CDB_OPEN ++ body2 ++ CDB_CLOSE ++ post2 ->
            length body <= length body2)
        /\ cdb_step doc_two_cdb sample_dtsi
           = Ok (pre ++ expand_template (map TLit (cdb_replacement sample_dtsi))
                          (CDB_OPEN ++ body ++ CDB_CLOSE) ++ post)).
Proof.
  apply (@cdb_step_found doc_two_cdb sample_dtsi
           (map TLit (cdb_replacement sample_dtsi))).
  vm_compute. reflexivity.
Defined.

(** C1 as stated fails: [doc_two_cdb] holds the region twice, the pattern
    matches at the offsets 26 and 100, and the run does not abort: the step
    replaces the first region and [main] writes the result. *)
Lemma cdb_two_regions_patched :
  rx_match CDB_PATTERN (skipn 26 doc_two_cdb) 26 = Some ([], 99)
  /\ rx_match CDB_PATTERN (skipn 100 doc_two_cdb) 100 = Some ([], 174)
  /\ sync_custom_defined_behaviors doc_two_cdb sample_dtsi
     = Ok (doc_two_cdb_patched, 1)
  /\ cdb_step doc_two_cdb sample_dtsi = Ok doc_two_cdb_patched
  /\ main (Args true true) world_two_cdb
     = ([EWrite doc_two_cdb_patched;
         EPrint (str "Updated config/glove80.keymap.")], Ok 0).
Proof. repeat split; vm_compute; reflexivity. Qed.

(** ** The orchestrator *)

Lemma writes_report (args : arguments) (config_text updated_text : pystr)
    (changed_layers : list pystr) :
  writes (report args config_text updated_text changed_layers)
  = if arg_write args then [updated_text] else [].
Proof.
  unfold report, writes. rewrite flat_map_app.
  destruct (arg_write args); destruct changed_layers; reflexivity.
Qed.

(** C2, amended. A run that ends with an exception writes nothing.  A run
    that returns writes the patched text exactly once in write mode, whether
    or not it differs from the text read, and writes nothing in a dry run. *)
Theorem main_writes (args : arguments) (w : world) :
  match snd (main args w) with
  | Raise _ => writes (fst (main args w)) = []
  | Ok _ =>
      exists updated_text changed_layers,
        patch_all w = Ok (updated_text, changed_layers)
        /\ writes (fst (main args w))
           = if arg_write args then [updated_text] else []
  end.
Proof.
  unfold main.
  destruct (if arg_skip_rake args then Ok tt else regenerate_dtsi w);
    [|reflexivity].
  destruct (patch_all w) as [[updated_text changed_layers]|e]; [|reflexivity].
  simpl snd. simpl fst. exists updated_text, changed_layers.
  split; [reflexivity | apply writes_report].
Qed.

(** C2 as stated fails: on [world_in_sync] every patch finds its region and
    leaves the text as it is, and the run in write mode still writes it. *)
Lemma main_writes_unchanged :
  cdb_step doc_in_sync sample_dtsi = Ok doc_in_sync
  /\ sync_layer_bindings doc_in_sync base sample_keys = Ok (doc_in_sync, 1, false)
  /\ patch_all world_in_sync = Ok (doc_in_sync, [])
  /\ main (Args true true) world_in_sync
     = ([EWrite doc_in_sync; EPrint in_sync_msg], Ok 0).
Proof. repeat split; vm_compute; reflexivity. Qed.

(** ** Applying the per-layer patch twice *)

Lemma all_ws_In (w : pystr) (c : char) :
  all_ws w = true -> In c w -> isspace c = true.
Proof.
  unfold all_ws. rewrite forallb_forall. auto.
Qed.

Lemma all_ws_app (a b : pystr) :
  all_ws (a ++ b) = all_ws a && all_ws b.
Proof. apply forallb_app. Qed.

(** An opening delimiter is the literal with the name, then characters other
    than [<], then [<] and the newline. *)
Lemma open_shape (layer_name g : pystr) :
  delim (open_toks layer_name) g ->
  exists W, g = (LAYER_ ++ layer_name) ++ W ++ [lt_char; nl] /\ ~ In lt_char W.
Proof.
  intros (g1 & -> & w1 & g2 & Hw1 & -> & g3 & -> & w2 & g4 & Hw2 & -> & g5 & ->
          & w3 & g6 & Hw3 & -> & g7 & -> & w4 & g8 & Hw4 & -> & g9 & -> & ->).
  exists (w1 ++ str "{" ++ w2 ++ str "bindings" ++ w3 ++ str "=" ++ w4).
  split.
  - rewrite <- !app_assoc. reflexivity.
  - rewrite !in_app_iff.
    intros [H | [H | [H | [H | [H | [H | H]]]]]];
      try (match goal with
           | Hw : all_ws ?w = true, Hin : In lt_char ?w |- _ =>
               let Hc := fresh in
               pose proof (@all_ws_In _ _ Hw Hin) as Hc; vm_compute in Hc;
               discriminate Hc
           end);
      simpl in H; repeat (destruct H as [H|H]; [discriminate H|]); exact H.
Qed.

Lemma app_prefix_by_length (A : Type) (g r q x : list A) :
  g ++ r = q ++ x -> length g <= length q ->
  exists q', q = g ++ q' /\ r = q' ++ x.
Proof.
  intros E L. apply app_eq_app in E as [l [[-> ->] | [-> ->]]].
  - rewrite length_app in L. assert (length l = 0) by lia.
    destruct l; [|discriminate]. exists []. now rewrite !app_nil_r.
  - eauto.
Qed.

(** An opening delimiter that starts before another one ends no later:
    both end at the first [<] after the name. *)
Lemma open_before_open (layer_name g r P g1 X : pystr) :
  delim (open_toks layer_name) g ->
  delim (open_toks layer_name) g1 ->
  g ++ r = (P ++ g1) ++ X ->
  length g <= length (P ++ g1).
Proof.
  intros Hg Hg1 E.
  destruct (open_shape Hg) as (W & -> & HW).
  destruct (open_shape Hg1) as (W1 & -> & _).
  set (LN := LAYER_ ++ layer_name) in *.
  destruct (Nat.le_gt_cases (length (LN ++ W ++ [lt_char; nl]))
              (length (P ++ LN ++ W1 ++ [lt_char; nl]))) as [L|L]; [exact L|].
  exfalso. rewrite !length_app in L. simpl length in L.
  (* the [<] of [g1], seen in both readings of the text *)
  set (i := length P + length LN + length W1).
  assert (E1 : nth_error ((P ++ LN ++ W1 ++ [lt_char; nl]) ++ X) i = Some lt_char).
  { replace ((P ++ LN ++ W1 ++ [lt_char; nl]) ++ X)
      with ((P ++ LN ++ W1) ++ lt_char :: nl :: X)
      by (rewrite <- !app_assoc; reflexivity).
    rewrite nth_error_app2 by (rewrite !length_app; lia).
    replace (i - length (P ++ LN ++ W1)) with 0
      by (rewrite !length_app; lia).
    reflexivity. }
  rewrite <- E in E1.
  replace ((LN ++ W ++ [lt_char; nl]) ++ r)
    with (LN ++ W ++ (lt_char :: nl :: r)) in E1
    by (rewrite <- !app_assoc; reflexivity).
  rewrite nth_error_app2 in E1 by lia.
  rewrite nth_error_app1 in E1 by lia.
  apply nth_error_In in E1. contradiction.
Qed.

Lemma skipn_app_lt (A : Type) (a b : list A) (j : nat) :
  j <= length a -> skipn j (a ++ b) = skipn j a ++ b.
Proof.
  intros H. rewrite skipn_app. replace (j - length a) with 0 by lia. reflexivity.
Qed.

Lemma close_at_delim (g3 post : pystr) (pos : nat) :
  delim close_toks g3 ->
  close_at (g3 ++ post) pos = Some (pos, pos + length g3).
Proof.
  intros H. unfold close_at. rewrite (scan_delim _ wf_close_toks _ post H).
  rewrite length_app. do 2 f_equal. lia.
Qed.

(** The patch of the leftmost region makes no match that starts earlier. *)
Lemma leftmost_after_patch (layer_name pre g1 body g3 post block : pystr) :
  layer_region layer_name (pre ++ g1 ++ body ++ g3 ++ post) pre g1 body g3 post ->
  forall j, j < length pre ->
    rx_match (layer_pattern layer_name)
      (skipn j (pre ++ g1 ++ block ++ g3 ++ post)) j = None.
Proof.
  intros (_ & Hg1 & Hg3 & _ & Hleft) j Hj.
  rewrite rx_match_layer. unfold layer_match_at.
  destruct (scan (open_toks layer_name) _) as [r|] eqn:Es; [|reflexivity].
  exfalso.
  rewrite skipn_app_lt in Es by lia.
  destruct (scan_suffix _ _ Es) as (g & Eg & Hg).
  assert (L : length g <= length (skipn j pre ++ g1)).
  { apply (@open_before_open layer_name g r (skipn j pre) g1
             (block ++ g3 ++ post)); auto.
    rewrite <- Eg, <- !app_assoc. reflexivity. }
  destruct (@app_prefix_by_length _ g r (skipn j pre ++ g1) (block ++ g3 ++ post))
    as (q' & Eq & _); auto.
  { rewrite <- Eg, <- !app_assoc. reflexivity. }
  specialize (Hleft j Hj).
  rewrite rx_match_layer in Hleft. unfold layer_match_at in Hleft.
  rewrite skipn_app_lt in Hleft by lia.
  replace (skipn j pre ++ g1 ++ body ++ g3 ++ post)
    with (g ++ q' ++ body ++ g3 ++ post) in Hleft
    by (rewrite (app_assoc (skipn j pre)), Eq, <- !app_assoc; reflexivity).
  rewrite (scan_delim _ (wf_open_toks layer_name) _ _ Hg) in Hleft.
  set (p1 := j + _) in Hleft.
  destruct (first_suffix_exists close_at (q' ++ body ++ g3 ++ post) p1
              (k := length (q' ++ body))
              (b := (p1 + length (q' ++ body),
                     p1 + length (q' ++ body) + length g3))) as (b' & Hb').
  - rewrite !length_app. lia.
  - replace (q' ++ body ++ g3 ++ post) with ((q' ++ body) ++ g3 ++ post)
      by (now rewrite <- !app_assoc).
    rewrite skipn_app_exact. now apply close_at_delim.
  - unfold find_close in Hleft. rewrite Hb' in Hleft.
    destruct b'. discriminate.
Qed.

Lemma occurrences_infix (needle u v : pystr) :
  1 <= occurrences needle (u ++ needle ++ v).
Proof.
  induction u as [|x u IH].
  - simpl app. pose proof (starts_with_app needle v) as H.
    destruct (needle ++ v); simpl; rewrite H; lia.
  - change (occurrences needle ((x :: u) ++ needle ++ v))
      with ((if starts_with needle ((x :: u) ++ needle ++ v) then 1 else 0)
            + occurrences needle (u ++ needle ++ v)).
    lia.
Qed.

(** A closing delimiter read from inside a block without ">;" starts in
    the trailing whitespace of the block. *)
Lemma close_in_block (block g3 post r' : pystr) (k : nat) :
  occurrences GT_SEMI block = 0 ->
  delim close_toks g3 ->
  k <= length block ->
  scan close_toks (skipn k (block ++ g3 ++ post)) = Some r' ->
  all_ws (skipn k block) = true.
Proof.
  intros Hocc Hg3 Hk Hs.
  rewrite skipn_app_lt in Hs by assumption.
  destruct (scan_suffix _ _ Hs) as (g & Eg & Hg).
  destruct Hg as (t1 & -> & w1 & t2 & Hw1 & -> & t3 & -> & _).
  destruct Hg3 as (u1 & -> & _).
  assert (Eg' : skipn k block ++ nl :: u1 ++ post
                = (nl :: w1) ++ (62%N :: 59%N :: nl :: t3 ++ r')).
  { simpl in Eg. rewrite Eg, <- !app_assoc. reflexivity. }
  clear Eg. rename Eg' into Eg.
  apply app_eq_app in Eg as [l [[Eb El] | [Eb El]]].
  - destruct l as [|c l].
    + rewrite app_nil_r in Eb. rewrite Eb. simpl. now rewrite Hw1.
    + exfalso. injection El as <- El.
      destruct l as [|c l].
      * simpl in El. discriminate El.
      * injection El as <- El.
        pose proof (occurrences_infix GT_SEMI (firstn k block ++ nl :: w1) l) as Ho.
        replace ((firstn k block ++ nl :: w1) ++ GT_SEMI ++ l) with block in Ho.
        { lia. }
        rewrite <- (firstn_skipn k block) at 1. rewrite Eb.
        rewrite <- !app_assoc. reflexivity.
  - assert (Ha : all_ws (skipn k block ++ l) = true).
    { rewrite <- Eb. simpl. now rewrite Hw1. }
    rewrite all_ws_app in Ha. now apply andb_true_iff in Ha as [Ha _].
Qed.

Lemma split_acc_ws_tail (w : pystr) :
  all_ws w = true ->
  forall a acc, split_acc acc (a ++ w) = split_acc acc a.
Proof.
  intros Hw.
  assert (Hbase : forall acc, split_acc acc w = flush acc).
  { induction w as [|c w IH]; intros acc; simpl; [reflexivity|].
    simpl in Hw. apply andb_true_iff in Hw as [Hc Hw].
    rewrite Hc, (IH Hw). simpl. apply app_nil_r. }
  induction a as [|c a IH]; intros acc; simpl.
  - apply Hbase.
  - destruct (isspace c); now rewrite IH.
Qed.

Lemma normalize_ws_tail (a w : pystr) :
  all_ws w = true -> normalize (a ++ w) = normalize a.
Proof.
  intros Hw. unfold normalize, split. now rewrite split_acc_ws_tail.
Qed.

(** C8, amended. For a layer of 80 keys whose rendered block does not
    hold ">;", applying [sync_layer_bindings] to the document it returned,
    with the same layer name and keys, returns that document again with the
    same count (1 when the layer has a region, 0 when it has none) and no
    change reported. *)
Theorem sync_layer_bindings_idempotent
    (config_text layer_name : pystr) (keys : list key) (block : pystr)
    (updated : pystr) (count : nat) (changed : bool) :
  render_bindings keys = Ok block ->
  occurrences GT_SEMI block = 0 ->
  sync_layer_bindings config_text layer_name keys = Ok (updated, count, changed) ->
  sync_layer_bindings updated layer_name keys = Ok (updated, count, false).
Proof.
  intros Hblock Hocc H.
  destruct (search (layer_pattern layer_name) config_text) as [m|] eqn:Hs.
  2:{ rewrite (sync_layer_bindings_not_found _ _ _ Hblock Hs) in H.
      injection H as <- <- <-.
      apply (sync_layer_bindings_not_found _ _ _ Hblock Hs). }
  destruct (search_layer_region _ _ Hs) as (pre & g1 & body & g3 & post & Hreg & ->).
  rewrite (sync_layer_bindings_region _ Hreg Hblock) in H.
  destruct (eqb_str (normalize body) (normalize block)) eqn:En.
  { injection H as <- <- <-.
    rewrite (sync_layer_bindings_region _ Hreg Hblock), En. reflexivity. }
  injection H as <- <- <-.
  pose proof Hreg as (Et & Hg1 & Hg3 & Hmin & Hleft).
  set (R := block ++ g3 ++ post).
  (* the closing delimiter found after the new block *)
  destruct (first_suffix_exists close_at R 0 (k := length block)
              (b := (0 + length block, 0 + length block + length g3)))
    as (b' & Hb').
  { unfold R. rewrite length_app. lia. }
  { unfold R. rewrite skipn_app_exact. now apply close_at_delim. }
  apply first_suffix_some in Hb' as (k2 & Hk2 & Hc & Hmin2).
  assert (Lk2 : k2 <= length block).
  { destruct (Nat.le_gt_cases k2 (length block)) as [L|L]; [exact L|].
    specialize (Hmin2 _ L). unfold R in Hmin2.
    rewrite skipn_app_exact, (close_at_delim _ _ Hg3) in Hmin2. discriminate. }
  unfold close_at in Hc.
  destruct (scan close_toks (skipn k2 R)) as [r'|] eqn:Ecl; [|discriminate].
  clear Hc. destruct (scan_suffix _ _ Ecl) as (g3' & Eg3' & Hg3').
  assert (Ebody : firstn k2 R = firstn k2 block).
  { unfold R. rewrite firstn_app. replace (k2 - length block) with 0 by lia.
    simpl. apply app_nil_r. }
  assert (ER : R = firstn k2 block ++ g3' ++ r').
  { rewrite <- Ebody, <- Eg3'. symmetry. apply firstn_skipn. }
  assert (Hreg' : layer_region layer_name (pre ++ g1 ++ block ++ g3 ++ post)
                    pre g1 (firstn k2 block) g3' r').
  { split; [|split; [|split; [|split]]]; auto.
    - fold R. now rewrite ER.
    - intros k Hk. rewrite <- ER. rewrite length_firstn in Hk.
      apply (close_at_none _ (0 + k)). apply Hmin2. lia.
    - rewrite Et in Hreg. apply (leftmost_after_patch block Hreg). }
  change (pre ++ g1 ++ R) with (pre ++ g1 ++ block ++ g3 ++ post).
  rewrite (sync_layer_bindings_region _ Hreg' Hblock).
  assert (Hn : normalize (firstn k2 block) = normalize block).
  { rewrite <- (firstn_skipn k2 block) at 2. symmetry.
    apply normalize_ws_tail.
    apply (@close_in_block block g3 post r' k2); auto. }
  rewrite Hn, eqb_str_refl. reflexivity.
Qed.

Lemma sync_layer_bindings_idempotent_witness :
  sync_layer_bindings doc_fresh base sample_keys = Ok (doc_fresh, 1, false).
Proof.
  apply (@sync_layer_bindings_idempotent doc_stale base sample_keys sample_block
           doc_fresh 1 true); vm_compute; reflexivity.
Defined.

(** C8 as stated fails twice over.  A document without a region of the
    layer is returned with count 0 both times, not as found.  And with a key
    whose name holds a closing delimiter, the second application finds a
    shorter body, reports a change again and returns another document. *)
Lemma sync_layer_bindings_twice_differs :
  sync_layer_bindings (str "keymap { };") base sample_keys
  = Ok (str "keymap { };", 0, false)
  /\ exists d1 d2,
       length closing_keys = 80
       /\ sync_layer_bindings doc_stale base closing_keys = Ok (d1, 1, true)
       /\ sync_layer_bindings d1 base closing_keys = Ok (d2, 1, true)
       /\ eqb_str d1 d2 = false.
Proof.
  split; [vm_compute; reflexivity|].
  eexists _, _. split; [reflexivity|].
  split; [vm_compute; reflexivity|].
  split; vm_compute; reflexivity.
Qed.

(** ** The order of the layers *)

Lemma mem_In (x : pystr) (l : list pystr) : mem x l = true <-> In x l.
Proof.
  unfold mem. rewrite existsb_exists. split.
  - intros (y & Hy & E). apply eqb_str_spec in E. now subst.
  - intros H. exists x. split; [assumption | apply eqb_str_refl].
Qed.

Lemma patched_not_in (done : list pystr) (s : slot) :
  ~ In (s_name s) done -> patched done s = s.
Proof.
  intros H. unfold patched. destruct (mem (s_name s) done) eqn:E; [|reflexivity].
  apply mem_In in E. contradiction.
Qed.

Lemma patched_in (done : list pystr) (s : slot) :
  In (s_name s) done -> patched done s = finish s.
Proof.
  intros H. unfold patched. apply mem_In in H. now rewrite H.
Qed.

Lemma patched_cons_other (n : pystr) (done : list pystr) (s : slot) :
  s_name s <> n -> patched (n :: done) s = patched done s.
Proof.
  intros H. unfold patched, mem. simpl.
  rewrite (eqb_str_neq H). reflexivity.
Qed.

Lemma patched_variants (done : list pystr) (slots : list slot) :
  Forall2 variant slots (map (patched done) slots).
Proof.
  induction slots as [|s slots IH]; simpl; constructor; [|exact IH].
  unfold variant, patched. destruct (mem (s_name s) done); auto.
Qed.

Lemma assemble_split (head : pystr) (before after : list slot) (s : slot) :
  assemble head (before ++ s :: after)
  = (head ++ flat_map slot_text before) ++ s_open s ++ s_body s ++ s_close s
    ++ s_tail s ++ flat_map slot_text after.
Proof.
  unfold assemble. rewrite flat_map_app. simpl. unfold slot_text at 2.
  now rewrite <- !app_assoc.
Qed.

(** One patch, with the layers in [done] patched before: the block of the
    layer is patched, the rest of the document stays. *)
Lemma sync_layer_bindings_slot (head : pystr) (slots : list slot)
    (done : list pystr) (s : slot) :
  NoDup (map s_name slots) ->
  own_regions head slots ->
  In s slots ->
  ~ In (s_name s) done ->
  length (s_keys s) = 80 ->
  exists changed,
    sync_layer_bindings (assemble head (map (patched done) slots))
      (s_name s) (s_keys s)
    = Ok (assemble head (map (patched (s_name s :: done)) slots), 1, changed).
Proof.
  intros Hnd Hown Hin Hdone Hlen.
  destruct (in_split _ _ Hin) as (before & after & Es).
  rewrite Es in Hnd. rewrite map_app in Hnd. simpl in Hnd.
  pose proof (NoDup_remove_2 _ _ _ Hnd) as Hother.
  assert (Hb : forall s', In s' before -> s_name s' <> s_name s).
  { intros s' H' E. apply Hother, in_or_app. left. rewrite <- E. now apply in_map. }
  assert (Ha : forall s', In s' after -> s_name s' <> s_name s).
  { intros s' H' E. apply Hother, in_or_app. right. rewrite <- E. now apply in_map. }
  set (before' := map (patched done) before).
  set (after' := map (patched done) after).
  assert (E1 : map (patched done) slots = before' ++ s :: after').
  { rewrite Es, map_app. simpl. now rewrite patched_not_in. }
  assert (E2 : map (patched (s_name s :: done)) slots
               = before' ++ finish s :: after').
  { rewrite Es, map_app. simpl. rewrite (patched_in (s_name s :: done) s) by now left.
    f_equal; [|f_equal]; apply map_ext_in; intros s' H';
      apply patched_cons_other; auto. }
  pose proof (Hown _ (patched_variants done slots) before' s after' E1) as Hs.
  pose proof (render_bindings_ok _ Hlen) as Hblock.
  rewrite E1, E2. rewrite E1 in Hs.
  rewrite (sync_layer_bindings_at (s_name s) _ (s_keys s)
             (assemble_split head before' after' s) Hs Hblock).
  unfold finish. rewrite Hblock.
  destruct (eqb_str (normalize (s_body s)) _).
  - exists false. reflexivity.
  - exists true. rewrite assemble_split. reflexivity.
Qed.

Lemma sync_layers_patched (head : pystr) (slots : list slot) :
  NoDup (map s_name slots) ->
  Forall (fun s => length (s_keys s) = 80) slots ->
  own_regions head slots ->
  forall order done acc,
    NoDup (map fst order) ->
    (forall l, In l order -> In l (layers_of slots)) ->
    (forall l, In l order -> ~ In (fst l) done) ->
    exists changed_layers,
      sync_layers order (assemble head (map (patched done) slots)) acc
      = Ok (assemble head (map (patched (rev (map fst order) ++ done)) slots),
            changed_layers).
Proof.
  intros Hnd Hlen Hown.
  induction order as [|[n k] order IH]; intros done acc Hno Hin Hdone.
  - simpl. eauto.
  - destruct (proj1 (in_map_iff _ _ _) (Hin (n, k) (or_introl eq_refl)))
      as (s & Es & Hs).
    injection Es as En Ek.
    destruct (@sync_layer_bindings_slot head slots done s) as (changed & Hsync);
      auto.
    { rewrite En. apply (Hdone (n, k)). now left. }
    { rewrite Forall_forall in Hlen. now apply Hlen. }
    rewrite En, Ek in Hsync.
    simpl in Hno. apply NoDup_cons_iff in Hno as [Hn Hno].
    destruct (IH (n :: done)
                (if changed then acc ++ [n] else acc) Hno) as (cl & Hcl).
    + intros l Hl. apply Hin. now right.
    + intros l Hl [E|E].
      * apply Hn. rewrite E. now apply in_map.
      * apply (Hdone l); [now right | exact E].
    + exists cl. simpl sync_layers. rewrite Hsync. simpl bind.
      simpl rev. rewrite <- app_assoc. exact Hcl.
Qed.

(** When the pattern of every layer finds the block of that layer whichever
    of the other blocks are patched, any two orders of the layers give the
    same patched document. *)
Lemma sync_layers_order_own (head : pystr) (slots : list slot)
    (order1 order2 : list (pystr * list key)) :
  NoDup (map s_name slots) ->
  Forall (fun s => length (s_keys s) = 80) slots ->
  own_regions head slots ->
  Permutation (layers_of slots) order1 ->
  Permutation (layers_of slots) order2 ->
  exists changed1 changed2,
    sync_layers order1 (assemble head slots) []
    = Ok (assemble head (map finish slots), changed1)
    /\ sync_layers order2 (assemble head slots) []
       = Ok (assemble head (map finish slots), changed2).
Proof.
  intros Hnd Hlen Hown.
  assert (Hone : forall order, Permutation (layers_of slots) order ->
                   exists changed,
                     sync_layers order (assemble head slots) []
                     = Ok (assemble head (map finish slots), changed)).
  { intros order Hp.
    assert (Hnames : Permutation (map s_name slots) (map fst order)).
    { apply (Permutation_map fst) in Hp. unfold layers_of in Hp.
      rewrite map_map in Hp. exact Hp. }
    destruct (@sync_layers_patched head slots Hnd Hlen Hown order [] [])
      as (cl & Hcl).
    - eapply Permutation_NoDup; eauto.
    - intros l Hl. eapply Permutation_in; [symmetry; exact Hp | exact Hl].
    - intros l _ [].
    - exists cl.
      replace (map (patched []) slots) with slots in Hcl
        by (symmetry; rewrite <- (map_id slots) at 2; apply map_ext; reflexivity).
      rewrite Hcl. do 2 f_equal. f_equal.
      apply map_ext_in. intros s Hs. apply patched_in.
      rewrite app_nil_r, <- in_rev.
      eapply Permutation_in; [exact Hnames | now apply in_map]. }
  intros H1 H2.
  destruct (Hone _ H1) as (c1 & E1). destruct (Hone _ H2) as (c2 & E2).
  eauto.
Qed.

(** C9 as stated fails: the names "Base" and "Alt_layer_Base" are unique,
    both patches find a block in either order, and the two orders give
    different documents: the pattern of "Base" first matches inside the
    block of "Alt_layer_Base", so both patches write the same block and the
    later one wins. *)
Lemma sync_layers_order_matters :
  base <> alt
  /\ exists d1 d2 c1 c2,
       sync_layers [(base, sample_keys); (alt, other_keys)] doc_alias []
       = Ok (d1, c1)
       /\ sync_layers [(alt, other_keys); (base, sample_keys)] doc_alias []
          = Ok (d2, c2)
       /\ eqb_str d1 d2 = false.
Proof.
  split; [discriminate|].
  eexists _, _, _, _.
  split; [vm_compute; reflexivity|].
  split; vm_compute; reflexivity.
Qed.

(** ** Blocks that stay where they are *)

Lemma app_inv_length (A : Type) (a a' b b' : list A) :
  a ++ b = a' ++ b' -> length a = length a' -> a = a' /\ b = b'.
Proof.
  revert a'; induction a as [|x a IH]; intros [|y a'] E L; simpl in *;
    try discriminate.
  - auto.
  - injection E as -> E. destruct (IH a' E) as [-> ->]; [lia | auto].
Qed.

(** The match [search] reports determines the region. *)
Lemma region_of_search (layer_name text pre g1 body g3 post : pystr) :
  text = pre ++ g1 ++ body ++ g3 ++ post ->
  search (layer_pattern layer_name) text = Some (region_match pre g1 body g3) ->
  layer_region layer_name text pre g1 body g3 post.
Proof.
  intros Et Hs.
  destruct (search_layer_region _ _ Hs)
    as (pre' & g1' & body' & g3' & post' & Hreg & Em).
  unfold region_match in Em. injection Em as E0 E1 E2 E3.
  destruct Hreg as (Et' & Hreg).
  rewrite Et in Et'.
  apply app_inv_length in Et' as [<- Et']; [|lia].
  apply app_inv_length in Et' as [<- Et']; [|lia].
  apply app_inv_length in Et' as [<- Et']; [|lia].
  apply app_inv_length in Et' as [<- <-]; [|lia].
  split; [exact Et | exact Hreg].
Qed.

(** Whether the layer pattern matches at the start of [s] does not depend
    on the offset of [s]. *)
Lemma rx_match_layer_none (layer_name s : pystr) (pos : nat) :
  rx_match (layer_pattern layer_name) s pos = None
  <-> (forall r, scan (open_toks layer_name) s = Some r ->
       forall k, k <= length r -> scan close_toks (skipn k r) = None).
Proof.
  rewrite rx_match_layer. unfold layer_match_at.
  destruct (scan (open_toks layer_name) s) as [r|]; [|split; [discriminate | auto]].
  unfold find_close. split.
  - intros H r0 E k Hk. injection E as <-.
    destruct (first_suffix close_at r _) as [[b e]|] eqn:Ef; [discriminate|].
    apply (close_at_none _ (pos + (length s - length r) + k)).
    now apply (first_suffix_none _ _ _ Ef).
  - intros H.
    destruct (first_suffix close_at r _) as [[b e]|] eqn:Ef; [|reflexivity].
    apply first_suffix_some in Ef as (k & Hk & Hc & _).
    unfold close_at in Hc. rewrite (H r eq_refl k Hk) in Hc. discriminate.
Qed.

(** Before the leftmost region no opening delimiter of the layer is read,
    whatever follows the opening delimiter of the region. *)
Lemma no_open_before_region (layer_name text pre g1 body g3 post : pystr) :
  layer_region layer_name text pre g1 body g3 post ->
  forall Z j, j < length pre ->
    scan (open_toks layer_name) (skipn j (pre ++ g1 ++ Z)) = None.
Proof.
  intros (Et & Hg1 & Hg3 & _ & Hleft) Z j Hj.
  destruct (scan (open_toks layer_name) _) as [r|] eqn:Es; [|reflexivity].
  exfalso.
  rewrite skipn_app_lt in Es by lia.
  destruct (scan_suffix _ _ Es) as (g & Eg & Hg).
  assert (L : length g <= length (skipn j pre ++ g1)).
  { apply (@open_before_open layer_name g r (skipn j pre) g1 Z); auto.
    rewrite <- Eg, <- !app_assoc. reflexivity. }
  destruct (@app_prefix_by_length _ g r (skipn j pre ++ g1) Z)
    as (q' & Eq & _); auto.
  { rewrite <- Eg, <- !app_assoc. reflexivity. }
  specialize (Hleft j Hj).
  rewrite rx_match_layer_none in Hleft.
  assert (Esk : skipn j text = g ++ q' ++ body ++ g3 ++ post).
  { rewrite Et, skipn_app_lt by lia.
    rewrite (app_assoc (skipn j pre)), Eq, <- !app_assoc. reflexivity. }
  specialize (Hleft (q' ++ body ++ g3 ++ post)).
  rewrite Esk, (scan_delim _ (wf_open_toks layer_name) _ _ Hg) in Hleft.
  specialize (Hleft eq_refl (length (q' ++ body))).
  replace (q' ++ body ++ g3 ++ post) with ((q' ++ body) ++ g3 ++ post) in Hleft
    by (now rewrite <- !app_assoc).
  rewrite skipn_app_exact, (scan_delim _ wf_close_toks _ _ Hg3) in Hleft.
  discriminate Hleft. rewrite !length_app. lia.
Qed.

(** A closing delimiter is characters other than the closing brace, then
    the brace and the semicolon. *)
Lemma close_shape (g : pystr) :
  delim close_toks g ->
  exists V, g = V ++ [rbrace; 59%N] /\ ~ In rbrace V.
Proof.
  intros (g1 & -> & w1 & g2 & Hw1 & -> & g3 & -> & w2 & g4 & Hw2 & -> & g5 & -> & ->).
  exists ([nl] ++ w1 ++ (str ">;" ++ [nl]) ++ w2). split.
  - rewrite <- !app_assoc. reflexivity.
  - rewrite !in_app_iff.
    intros [H | [H | [H | H]]];
      try (match goal with
           | Hw : all_ws ?w = true, Hin : In rbrace ?w |- _ =>
               let Hc := fresh in
               pose proof (@all_ws_In _ _ Hw Hin) as Hc; vm_compute in Hc;
               discriminate Hc
           end);
      simpl in H; intuition discriminate.
Qed.

(** A closing delimiter that starts before another one ends no later. *)
Lemma close_before_close (g r b g3 Z : pystr) :
  delim close_toks g ->
  delim close_toks g3 ->
  g ++ r = (b ++ g3) ++ Z ->
  length g <= length (b ++ g3).
Proof.
  intros Hg Hg3 E.
  destruct (close_shape Hg) as (V & -> & HV).
  destruct (close_shape Hg3) as (V3 & -> & _).
  destruct (Nat.le_gt_cases (length (V ++ [rbrace; 59%N]))
              (length (b ++ V3 ++ [rbrace; 59%N]))) as [L|L]; [exact L|].
  exfalso. rewrite !length_app in L. simpl length in L.
  set (i := length b + length V3).
  assert (E1 : nth_error ((b ++ V3 ++ [rbrace; 59%N]) ++ Z) i = Some rbrace).
  { replace ((b ++ V3 ++ [rbrace; 59%N]) ++ Z)
      with ((b ++ V3) ++ rbrace :: 59%N :: Z)
      by (rewrite <- !app_assoc; reflexivity).
    rewrite nth_error_app2 by (rewrite !length_app; lia).
    replace (i - length (b ++ V3)) with 0 by (rewrite !length_app; lia).
    reflexivity. }
  rewrite <- E in E1. rewrite <- app_assoc in E1.
  rewrite nth_error_app1 in E1 by lia.
  apply nth_error_In in E1. contradiction.
Qed.

(** No closing delimiter is read inside a body, whatever follows the
    closing delimiter of the region. *)
Lemma no_close_any_tail (b g3 Z Z' : pystr) :
  delim close_toks g3 ->
  (forall k, k < length b -> scan close_toks (skipn k (b ++ g3 ++ Z)) = None) ->
  forall k, k < length b -> scan close_toks (skipn k (b ++ g3 ++ Z')) = None.
Proof.
  intros Hg3 Hmin k Hk.
  destruct (scan close_toks _) as [r|] eqn:Es; [|reflexivity].
  exfalso.
  rewrite skipn_app_lt in Es by lia.
  destruct (scan_suffix _ _ Es) as (g & Eg & Hg).
  assert (L : length g <= length (skipn k b ++ g3)).
  { apply (@close_before_close g r (skipn k b) g3 Z'); auto.
    rewrite <- Eg, <- !app_assoc. reflexivity. }
  destruct (@app_prefix_by_length _ g r (skipn k b ++ g3) Z')
    as (q' & Eq & _); auto.
  { rewrite <- Eg, <- !app_assoc. reflexivity. }
  specialize (Hmin k Hk). rewrite skipn_app_lt in Hmin by lia.
  rewrite (app_assoc (skipn k b)), Eq, <- app_assoc in Hmin.
  rewrite (scan_delim _ wf_close_toks _ _ Hg) in Hmin. discriminate.
Qed.

Lemma all_ws_last (w : pystr) :
  all_ws w = true -> w <> [] -> isspace (last w sp) = true.
Proof.
  intros Hw Hne. apply (@all_ws_In w); [exact Hw|].
  destruct (exists_last Hne) as (l & c & ->).
  rewrite last_last. apply in_or_app. right. now left.
Qed.

Lemma last_app_nonempty (A : Type) (a b : list A) (d : A) :
  b <> [] -> last (a ++ b) d = last b d.
Proof.
  intros Hb. destruct (exists_last Hb) as (l & c & ->).
  now rewrite app_assoc, !last_last.
Qed.

Lemma last_skipn (A : Type) (l : list A) (k : nat) (d : A) :
  k < length l -> last (skipn k l) d = last l d.
Proof.
  intros H. rewrite <- (firstn_skipn k l) at 2.
  rewrite last_app_nonempty; [reflexivity|].
  intros E. apply (f_equal (@length A)) in E. rewrite length_skipn in E.
  simpl in E. lia.
Qed.

(** No closing delimiter is read inside a rendered block without ">;"
    that does not end with whitespace. *)
Lemma tidy_no_close (block g3 post : pystr) :
  occurrences GT_SEMI block = 0 ->
  ends_nonspace block = true ->
  delim close_toks g3 ->
  forall k, k < length block ->
    scan close_toks (skipn k (block ++ g3 ++ post)) = None.
Proof.
  intros Hocc Hend Hg3 k Hk.
  destruct (scan close_toks _) as [r|] eqn:Es; [|reflexivity].
  exfalso.
  assert (Hw : all_ws (skipn k block) = true).
  { apply (@close_in_block block g3 post r k); auto. lia. }
  apply all_ws_last in Hw.
  - rewrite last_skipn in Hw by assumption.
    unfold ends_nonspace in Hend. rewrite Hw in Hend. discriminate.
  - intros E. apply (f_equal (@length _)) in E. rewrite length_skipn in E.
    simpl in E. lia.
Qed.

Lemma plain_name_In (n : pystr) (c : char) :
  plain_name n = true -> c = lt_char \/ c = nl -> ~ In c (LAYER_ ++ n).
Proof.
  intros Hp Hc Hin. apply in_app_or in Hin as [Hin|Hin].
  - destruct Hc as [-> | ->]; simpl in Hin; intuition discriminate.
  - unfold plain_name in Hp. apply negb_true_iff in Hp.
    assert (E : existsb (fun c => (c =? lt_char)%N || (c =? nl)%N) n = true).
    { apply existsb_exists. exists c. split; [exact Hin|].
      destruct Hc as [-> | ->]; reflexivity. }
    congruence.
Qed.

(** An opening delimiter of a plain name that starts before the end of
    another opening delimiter ends no later than it. *)
Lemma open_stops (layer_name g r X Z : pystr) :
  delim (open_toks layer_name) g ->
  plain_name layer_name = true ->
  X = [nl] \/ (exists X1, X = X1 ++ [lt_char; nl]) ->
  g ++ r = X ++ Z ->
  length g <= length X.
Proof.
  intros Hg Hp HX E.
  destruct (open_shape Hg) as (W & -> & HW).
  destruct HX as [-> | (X1 & ->)].
  - exfalso. rewrite <- !app_assoc in E. discriminate E.
  - set (LN := LAYER_ ++ layer_name) in *.
    destruct (Nat.le_gt_cases (length (LN ++ W ++ [lt_char; nl]))
                (length (X1 ++ [lt_char; nl]))) as [L|L]; [exact L|].
    exfalso. rewrite !length_app in L. simpl length in L.
    assert (E1 : nth_error ((X1 ++ [lt_char; nl]) ++ Z) (length X1)
                 = Some lt_char).
    { rewrite <- app_assoc. rewrite nth_error_app2 by lia.
      rewrite Nat.sub_diag. reflexivity. }
    rewrite <- E in E1.
    replace ((LN ++ W ++ [lt_char; nl]) ++ r)
      with ((LN ++ W) ++ lt_char :: nl :: r) in E1
      by (rewrite <- !app_assoc; reflexivity).
    rewrite nth_error_app1 in E1
      by (unfold LN; rewrite !length_app; simpl length; lia).
    apply nth_error_In in E1. apply in_app_or in E1 as [E1|E1].
    + revert E1. apply plain_name_In; auto.
    + contradiction.
Qed.

Lemma skipn_open_end (X1 : pystr) (j : nat) :
  j < length X1 + 2 ->
  skipn j (X1 ++ [lt_char; nl]) = [nl]
  \/ exists X2, skipn j (X1 ++ [lt_char; nl]) = X2 ++ [lt_char; nl].
Proof.
  intros Hj. destruct (Nat.le_gt_cases j (length X1)) as [L|L].
  - right. exists (skipn j X1). now apply skipn_app_lt.
  - left. rewrite skipn_app_ge by lia.
    replace (j - length X1) with 1 by lia. reflexivity.
Qed.

(** No opening delimiter of a plain name is read from inside a block that
    does not hold "layer_" and the name, when a newline follows the block. *)
Lemma no_open_in_block (layer_name block Y : pystr) (k : nat) :
  plain_name layer_name = true ->
  occurrences (LAYER_ ++ layer_name) block = 0 ->
  k <= length block ->
  scan (open_toks layer_name) (skipn k block ++ nl :: Y) = None.
Proof.
  intros Hp Hocc Hk. unfold open_toks.
  change (scan (TLitS (LAYER_ ++ layer_name) :: ?ts) ?s)
    with (if starts_with (LAYER_ ++ layer_name) s
          then scan ts (skipn (length (LAYER_ ++ layer_name)) s) else None).
  destruct (starts_with _ _) eqn:Es; [|reflexivity].
  exfalso. apply starts_with_split in Es.
  set (LN := LAYER_ ++ layer_name) in *.
  apply app_eq_app in Es as [l [[Eb El] | [Eb El]]].
  - pose proof (occurrences_infix LN (firstn k block) l) as Ho.
    rewrite <- Eb, firstn_skipn in Ho. lia.
  - destruct l as [|c l].
    + rewrite app_nil_r in Eb.
      pose proof (occurrences_infix LN (firstn k block) []) as Ho.
      assert (Eblk : firstn k block ++ LN ++ [] = block).
      { rewrite app_nil_r, Eb. apply firstn_skipn. }
      rewrite Eblk in Ho. lia.
    + injection El as <- _.
      apply (@plain_name_In layer_name nl Hp); [now right|].
      fold LN. rewrite Eb. apply in_or_app. right. now left.
Qed.

Lemma split_cases (A : Type) (B Aft before after : list A) (t s : A) :
  B ++ t :: Aft = before ++ s :: after ->
  (before = B /\ s = t /\ after = Aft)
  \/ (exists mid, B = before ++ s :: mid /\ after = mid ++ t :: Aft)
  \/ (exists mid, before = B ++ t :: mid /\ Aft = mid ++ s :: after).
Proof.
  intros E. apply app_eq_app in E as [l [[E1 E2] | [E1 E2]]].
  - destruct l as [|x l]; simpl in E2.
    + injection E2 as -> ->. left. rewrite app_nil_r in E1. auto.
    + injection E2 as -> ->. right. left. eauto.
  - destruct l as [|x l]; simpl in E2.
    + injection E2 as -> ->. left. rewrite app_nil_r in E1. auto.
    + injection E2 as -> ->. right. right. eauto.
Qed.

(** The region of a layer stays the leftmost one when its own body is
    replaced by a tidy block, ... *)
Lemma region_patched (layer_name pre g1 body g3 post block : pystr) :
  layer_region layer_name (pre ++ g1 ++ body ++ g3 ++ post) pre g1 body g3 post ->
  occurrences GT_SEMI block = 0 ->
  ends_nonspace block = true ->
  layer_region layer_name (pre ++ g1 ++ block ++ g3 ++ post) pre g1 block g3 post.
Proof.
  intros Hreg Hocc Hend.
  pose proof Hreg as (_ & Hg1 & Hg3 & _ & _).
  split; [reflexivity|]. split; [exact Hg1|]. split; [exact Hg3|]. split.
  - now apply tidy_no_close.
  - intros j Hj. apply rx_match_layer_none. intros r Hr.
    rewrite (no_open_before_region Hreg (block ++ g3 ++ post) Hj) in Hr.
    discriminate.
Qed.

(** ... when the text after it changes, ... *)
Lemma region_tail_changed (layer_name pre g1 body g3 post post' : pystr) :
  layer_region layer_name (pre ++ g1 ++ body ++ g3 ++ post) pre g1 body g3 post ->
  layer_region layer_name (pre ++ g1 ++ body ++ g3 ++ post') pre g1 body g3 post'.
Proof.
  intros Hreg.
  pose proof Hreg as (_ & Hg1 & Hg3 & Hmin & _).
  split; [reflexivity|]. split; [exact Hg1|]. split; [exact Hg3|]. split.
  - now apply (@no_close_any_tail body g3 post post' Hg3).
  - intros j Hj. apply rx_match_layer_none. intros r Hr.
    rewrite (no_open_before_region Hreg (body ++ g3 ++ post') Hj) in Hr.
    discriminate.
Qed.

(** ... and when the body of an earlier block, between an opening and a
    closing delimiter, is replaced by a block that does not hold "layer_"
    and the name. *)
Lemma region_head_changed
    (layer_name X old new Y g1 body g3 post : pystr) :
  (exists X1, X = X1 ++ [lt_char; nl]) ->
  (exists Y1, Y = nl :: Y1) ->
  plain_name layer_name = true ->
  occurrences (LAYER_ ++ layer_name) new = 0 ->
  layer_region layer_name ((X ++ old ++ Y) ++ g1 ++ body ++ g3 ++ post)
    (X ++ old ++ Y) g1 body g3 post ->
  layer_region layer_name ((X ++ new ++ Y) ++ g1 ++ body ++ g3 ++ post)
    (X ++ new ++ Y) g1 body g3 post.
Proof.
  intros (X1 & EX) (Y1 & EY) Hp Hocc Hreg.
  pose proof Hreg as (_ & Hg1 & Hg3 & Hmin & Hleft).
  split; [reflexivity|]. split; [exact Hg1|]. split; [exact Hg3|].
  split; [exact Hmin|].
  set (S := g1 ++ body ++ g3 ++ post) in *.
  intros j Hj. apply rx_match_layer_none. intros r Hr.
  destruct (Nat.le_gt_cases (length X) j) as [Lx|Lx].
  - destruct (Nat.le_gt_cases j (length X + length new)) as [Ln|Ln].
    + (* inside the new body *)
      exfalso.
      replace ((X ++ new ++ Y) ++ S) with (X ++ new ++ Y ++ S) in Hr
        by (now rewrite <- !app_assoc).
      rewrite skipn_app_ge in Hr by assumption.
      rewrite skipn_app_lt in Hr by lia.
      rewrite EY in Hr. simpl app in Hr.
      rewrite no_open_in_block in Hr by (auto; lia). discriminate.
    + (* after the new body: the same text as before the patch *)
      assert (Esk : skipn j ((X ++ new ++ Y) ++ S)
                    = skipn (j - length new + length old)
                        ((X ++ old ++ Y) ++ S)).
      { replace ((X ++ new ++ Y) ++ S) with ((X ++ new) ++ Y ++ S)
          by (now rewrite <- !app_assoc).
        replace ((X ++ old ++ Y) ++ S) with ((X ++ old) ++ Y ++ S)
          by (now rewrite <- !app_assoc).
        rewrite (@skipn_app_ge _ (X ++ new)) by (rewrite length_app; lia).
        rewrite (@skipn_app_ge _ (X ++ old)) by (rewrite length_app; lia).
        f_equal. rewrite !length_app. lia. }
      rewrite Esk in Hr.
      assert (Hj0 : j - length new + length old < length (X ++ old ++ Y)).
      { rewrite !length_app in *. lia. }
      pose proof (Hleft _ Hj0) as H0.
      rewrite rx_match_layer_none in H0. now apply H0.
  - (* before the new body *)
    exfalso.
    replace ((X ++ new ++ Y) ++ S) with (X ++ new ++ Y ++ S) in Hr
      by (now rewrite <- !app_assoc).
    rewrite skipn_app_lt in Hr by lia.
    destruct (scan_suffix _ _ Hr) as (g & Eg & Hg).
    assert (L : length g <= length (skipn j X)).
    { apply (@open_stops layer_name g r (skipn j X) (new ++ Y ++ S)); auto.
      rewrite EX. apply skipn_open_end.
      rewrite EX, length_app in Lx. simpl in Lx. lia. }
    destruct (@app_prefix_by_length _ g r (skipn j X) (new ++ Y ++ S))
      as (q & Eq & _); auto.
    assert (Hj0 : j < length (X ++ old ++ Y)) by (rewrite !length_app; lia).
    pose proof (Hleft _ Hj0) as H0.
    rewrite rx_match_layer_none in H0.
    assert (Esk : skipn j ((X ++ old ++ Y) ++ S)
                  = g ++ (q ++ old ++ Y ++ g1 ++ body) ++ g3 ++ post).
    { replace ((X ++ old ++ Y) ++ S) with (X ++ old ++ Y ++ S)
        by (now rewrite <- !app_assoc).
      rewrite skipn_app_lt by lia. rewrite Eq. unfold S.
      rewrite <- !app_assoc. reflexivity. }
    specialize (H0 ((q ++ old ++ Y ++ g1 ++ body) ++ g3 ++ post)).
    rewrite Esk, (scan_delim _ (wf_open_toks layer_name) _ _ Hg) in H0.
    specialize (H0 eq_refl (length (q ++ old ++ Y ++ g1 ++ body))).
    rewrite skipn_app_exact, (scan_delim _ wf_close_toks _ _ Hg3) in H0.
    discriminate H0.
    rewrite (@length_app _ (q ++ old ++ Y ++ g1 ++ body)). lia.
Qed.

Lemma flat_split (head : pystr) (B mid : list slot) (t : slot) :
  head ++ flat_map slot_text (B ++ t :: mid)
  = ((head ++ flat_map slot_text B) ++ s_open t) ++ s_body t
    ++ (s_close t ++ s_tail t ++ flat_map slot_text mid).
Proof.
  rewrite flat_map_app. simpl. unfold slot_text at 2.
  now rewrite <- !app_assoc.
Qed.

(** Patching one block with a tidy block keeps every block the leftmost
    region of its layer. *)
Lemma patch_keeps_regions (head : pystr) (B A : list slot) (t : slot)
    (block : pystr) :
  regions_ok head (B ++ t :: A) ->
  (forall s, In s (B ++ t :: A) ->
     plain_name (s_name s) = true
     /\ occurrences (LAYER_ ++ s_name s) block = 0) ->
  occurrences GT_SEMI block = 0 ->
  ends_nonspace block = true ->
  regions_ok head (B ++ set_body t block :: A).
Proof.
  intros Hok Hnames Hocc Hend before s after E.
  destruct (split_cases _ _ _ _ _ _ E)
    as [(-> & -> & ->) | [(mid & -> & ->) | (mid & -> & ->)]].
  - pose proof (Hok B t A eq_refl) as H.
    rewrite assemble_split in *. simpl.
    apply region_patched with (body := s_body t); auto.
  - pose proof (Hok before s (mid ++ t :: A)) as H.
    rewrite <- app_assoc in H. specialize (H eq_refl).
    change ((s :: mid) ++ t :: A) with (s :: (mid ++ t :: A)) in H.
    rewrite <- app_assoc.
    change ((s :: mid) ++ set_body t block :: A)
      with (s :: (mid ++ set_body t block :: A)).
    rewrite assemble_split in *.
    apply region_tail_changed with (post := s_tail s ++ flat_map slot_text (mid ++ t :: A)).
    exact H.
  - pose proof (Hok (B ++ t :: mid) s after) as H.
    rewrite <- app_assoc in H. specialize (H eq_refl).
    pose proof (Hok B t (mid ++ s :: after) eq_refl) as (_ & Ho & Hc & _).
    change (B ++ set_body t block :: mid ++ s :: after)
      with (B ++ (set_body t block :: mid) ++ s :: after).
    change (B ++ t :: mid ++ s :: after)
      with (B ++ (t :: mid) ++ s :: after) in H.
    rewrite app_assoc in H |- *.
    rewrite assemble_split in *.
    rewrite flat_split in *. simpl s_open. simpl s_body. simpl s_close.
    simpl s_tail.
    destruct (Hnames s) as (Hp & Hl).
    { apply in_or_app. right. right. apply in_or_app. right. now left. }
    apply region_head_changed with (old := s_body t); auto.
    + destruct (open_shape Ho) as (W & -> & _).
      exists ((head ++ flat_map slot_text B) ++ (LAYER_ ++ s_name t) ++ W).
      now rewrite <- !app_assoc.
    + destruct Hc as (g' & -> & _). eexists. reflexivity.
Qed.

Lemma tidy_block_spec (names : list pystr) (block : pystr) :
  tidy_block names block = true ->
  occurrences GT_SEMI block = 0
  /\ ends_nonspace block = true
  /\ forall n, In n names -> occurrences (LAYER_ ++ n) block = 0.
Proof.
  unfold tidy_block. rewrite !andb_true_iff, forallb_forall, Nat.eqb_eq.
  intros [[H1 H2] H3]. repeat split; auto.
  intros n Hn. apply Nat.eqb_eq. auto.
Qed.

Lemma variant_name (s s' : slot) : variant s s' -> s_name s' = s_name s.
Proof.
  intros [-> | ->]; [reflexivity|]. unfold finish.
  destruct (render_bindings (s_keys s)) as [block|e]; [|reflexivity].
  destruct (eqb_str _ _); reflexivity.
Qed.

(** Patching any of the blocks keeps every block the leftmost region of its
    layer. *)
Lemma variants_ok (head : pystr) (names : list pystr) :
  (forall n, In n names -> plain_name n = true) ->
  forall todo todo', Forall2 variant todo todo' ->
  forall done,
    (forall s, In s (done ++ todo) -> In (s_name s) names) ->
    Forall (tidy_layer names) todo ->
    regions_ok head (done ++ todo) ->
    regions_ok head (done ++ todo').
Proof.
  intros Hplain todo todo' HF.
  induction HF as [|t t' todo todo' V HF IH]; intros done Hnames Htidy Hok.
  - exact Hok.
  - inversion Htidy as [|? ? (Hlen & _ & Ht) Htidy']; subst.
    assert (Hok' : regions_ok head (done ++ t' :: todo)).
    { destruct V as [-> | ->]; [exact Hok|].
      unfold finish. rewrite (render_bindings_ok _ Hlen).
      destruct (eqb_str _ _); [exact Hok|].
      apply tidy_block_spec in Ht as (H1 & H2 & H3).
      apply patch_keeps_regions; auto. }
    replace (done ++ t' :: todo') with ((done ++ [t']) ++ todo')
      by (now rewrite <- app_assoc).
    apply IH; auto.
    + intros s Hs. rewrite <- app_assoc in Hs. simpl in Hs.
      apply in_app_or in Hs as [Hs | [<- | Hs]].
      * apply Hnames. apply in_or_app. now left.
      * rewrite (variant_name V). apply Hnames. apply in_or_app. right. now left.
      * apply Hnames. apply in_or_app. right. now right.
    + now rewrite <- app_assoc.
Qed.

(** In a document in which every layer is found in place, with plain names
    and tidy blocks, every layer stays in place whichever blocks are
    patched. *)
Lemma own_regions_tidy (head : pystr) (slots : list slot) :
  Forall (tidy_layer (map s_name slots)) slots ->
  found_in_place head slots ->
  own_regions head slots.
Proof.
  intros Htidy Hfound slots' HF before s after E.
  assert (Hok : regions_ok head slots).
  { intros b0 s0 a0 E0.
    apply region_of_search with (post := s_tail s0 ++ flat_map slot_text a0).
    - rewrite E0. apply assemble_split.
    - exact (Hfound b0 s0 a0 E0). }
  assert (Hok' : regions_ok head slots').
  { apply (@variants_ok head (map s_name slots)) with (todo := slots) (done := []);
      auto.
    - intros n Hn. apply in_map_iff in Hn as (s0 & <- & Hs0).
      rewrite Forall_forall in Htidy. now destruct (Htidy _ Hs0) as (_ & Hp & _).
    - intros s0 Hs0. now apply in_map. }
  apply region_search with (post := s_tail s ++ flat_map slot_text after).
  exact (Hok' before s after E).
Qed.

(** C9, amended. Take unique layer names without [<] and newline, 80 keys
    for each layer, rendered blocks that hold neither ">;" nor "layer_"
    followed by a layer name and do not end with whitespace, and a document
    in which the pattern of every layer finds the block of that layer.  Then
    any two orders of the layers give the same patched document: every
    block whose body differs from the rendered keys up to whitespace holds
    the rendered keys, and the rest of the document is as before. *)
Theorem sync_layers_order (head : pystr) (slots : list slot)
    (order1 order2 : list (pystr * list key)) :
  NoDup (map s_name slots) ->
  Forall (tidy_layer (map s_name slots)) slots ->
  found_in_place head slots ->
  Permutation (layers_of slots) order1 ->
  Permutation (layers_of slots) order2 ->
  exists changed1 changed2,
    sync_layers order1 (assemble head slots) []
    = Ok (assemble head (map finish slots), changed1)
    /\ sync_layers order2 (assemble head slots) []
       = Ok (assemble head (map finish slots), changed2).
Proof.
  intros Hnd Htidy Hfound.
  apply sync_layers_order_own; auto.
  - eapply Forall_impl; [|exact Htidy]. intros s (Hlen & _). exact Hlen.
  - now apply own_regions_tidy.
Qed.

Lemma found_in_place_two : found_in_place two_head [slot_base; slot_lower].
Proof.
  intros before s after E.
  destruct before as [|b0 [|b1 before]]; simpl in E.
  - injection E as <- <-. vm_compute. reflexivity.
  - injection E as <- <- <-. vm_compute. reflexivity.
  - injection E as _ _ E. destruct before; discriminate E.
Qed.

Lemma sync_layers_order_witness :
  exists changed1 changed2,
    sync_layers [(base, sample_keys); (lower, other_keys)]
      (assemble two_head [slot_base; slot_lower]) []
    = Ok (assemble two_head (map finish [slot_base; slot_lower]), changed1)
    /\ sync_layers [(lower, other_keys); (base, sample_keys)]
         (assemble two_head [slot_base; slot_lower]) []
       = Ok (assemble two_head (map finish [slot_base; slot_lower]), changed2).
Proof.
  apply (@sync_layers_order two_head [slot_base; slot_lower]
           [(base, sample_keys); (lower, other_keys)]
           [(lower, other_keys); (base, sample_keys)]).
  - repeat constructor; simpl; intuition discriminate.
  - repeat constructor; vm_compute; reflexivity.
  - exact found_in_place_two.
  - apply Permutation_refl.
  - apply perm_swap.
Defined.

(** * Further properties *)

(** ** The layer map built from keymap.json *)

Lemma dict_set_keys (A : Type) (d : list (pystr * A)) (k : pystr) (v : A) :
  map fst (dict_set d k v)
  = if mem k (map fst d) then map fst d else map fst d ++ [k].
Proof.
  induction d as [|[k' v'] d IH]; simpl.
  - reflexivity.
  - unfold mem in *. simpl.
    destruct (eqb_str k' k) eqn:E.
    + apply eqb_str_spec in E. subst k'. rewrite eqb_str_refl. reflexivity.
    + simpl. rewrite IH.
      destruct (eqb_str k k') eqn:E'.
      * apply eqb_str_spec in E'. subst k'. rewrite eqb_str_refl in E.
        discriminate.
      * simpl. destruct (existsb (eqb_str k) (map fst d)); reflexivity.
Qed.

Lemma dict_get_set (A : Type) (d : list (pystr * A)) (k k' : pystr) (v : A) :
  dict_get (dict_set d k v) k'
  = if eqb_str k k' then Some v else dict_get d k'.
Proof.
  induction d as [|[k0 v0] d IH]; simpl.
  - reflexivity.
  - destruct (eqb_str k0 k) eqn:E; simpl.
    + apply eqb_str_spec in E. subst k0. destruct (eqb_str k k'); reflexivity.
    + rewrite IH. destruct (eqb_str k0 k') eqn:E'; [|reflexivity].
      apply eqb_str_spec in E'. subst k0.
      destruct (eqb_str k k') eqn:E2; [|reflexivity].
      apply eqb_str_spec in E2. subst k'. rewrite eqb_str_refl in E.
      discriminate.
Qed.

Lemma dict_fold_keys (A : Type) (pairs d : list (pystr * A)) :
  NoDup (map fst d) ->
  NoDup (map fst (fold_left (fun d kv => dict_set d (fst kv) (snd kv)) pairs d))
  /\ forall k,
       In k (map fst (fold_left (fun d kv => dict_set d (fst kv) (snd kv)) pairs d))
       <-> In k (map fst d) \/ In k (map fst pairs).
Proof.
  revert d; induction pairs as [|[k0 v0] pairs IH]; intros d Hd; simpl.
  - split; [exact Hd | tauto].
  - assert (Hd' : NoDup (map fst (dict_set d k0 v0))
                  /\ forall k, In k (map fst (dict_set d k0 v0))
                               <-> In k (map fst d) \/ k0 = k).
    { rewrite dict_set_keys. destruct (mem k0 (map fst d)) eqn:E.
      - apply mem_In in E. split; [exact Hd|]. intros k. split; [tauto|].
        intros [H | <-]; assumption.
      - split.
        + apply NoDup_app; [exact Hd | repeat constructor; intros [] |].
          intros x Hx [<- | []]. apply mem_In in Hx. congruence.
        + intros k. rewrite in_app_iff. simpl. tauto. }
    destruct Hd' as [Hnd Hin]. destruct (IH _ Hnd) as [H1 H2].
    split; [exact H1|]. intros k. rewrite H2, Hin. tauto.
Qed.

(** X1. The layer map holds every name of the zipped pairs exactly once. *)
Theorem dict_of_keys (A : Type) (pairs : list (pystr * A)) :
  NoDup (map fst (dict_of pairs))
  /\ forall k, In k (map fst (dict_of pairs)) <-> In k (map fst pairs).
Proof.
  destruct (@dict_fold_keys A pairs [] (NoDup_nil _)) as [H1 H2].
  split; [exact H1|]. intros k. unfold dict_of. rewrite H2. simpl. tauto.
Qed.

Lemma dict_get_app (A : Type) (d1 d2 : list (pystr * A)) (k : pystr) :
  dict_get (d1 ++ d2) k
  = match dict_get d1 k with Some v => Some v | None => dict_get d2 k end.
Proof.
  induction d1 as [|[k0 v0] d1 IH]; simpl; [reflexivity|].
  destruct (eqb_str k0 k); [reflexivity | exact IH].
Qed.

Lemma dict_fold_get (A : Type) (pairs d : list (pystr * A)) (k : pystr) :
  dict_get (fold_left (fun d kv => dict_set d (fst kv) (snd kv)) pairs d) k
  = match dict_get (rev pairs) k with
    | Some v => Some v
    | None => dict_get d k
    end.
Proof.
  revert d; induction pairs as [|[k0 v0] pairs IH]; intros d; simpl.
  - reflexivity.
  - rewrite IH, dict_get_app, dict_get_set. simpl.
    destruct (dict_get (rev pairs) k); [reflexivity|].
    destruct (eqb_str k0 k); reflexivity.
Qed.

(** X2. When a name occurs several times in [layer_names], the layer map
    gives it the keys paired with its last occurrence; the keys of the
    earlier occurrences are dropped. *)
Theorem dict_of_last_wins (A : Type) (pairs : list (pystr * A)) (k : pystr) :
  dict_get (dict_of pairs) k = dict_get (rev pairs) k.
Proof.
  unfold dict_of. rewrite dict_fold_get. simpl.
  destruct (dict_get (rev pairs) k); reflexivity.
Qed.

Lemma dict_fold_unique (A : Type) (pairs d : list (pystr * A)) :
  NoDup (map fst (d ++ pairs)) ->
  fold_left (fun d kv => dict_set d (fst kv) (snd kv)) pairs d = d ++ pairs.
Proof.
  revert d; induction pairs as [|[k0 v0] pairs IH]; intros d Hd; simpl.
  - now rewrite app_nil_r.
  - assert (E : dict_set d k0 v0 = d ++ [(k0, v0)]).
    { rewrite map_app in Hd. simpl in Hd. apply NoDup_remove_2 in Hd.
      assert (Hk : ~ In k0 (map fst d)) by (intros H; apply Hd, in_or_app; now left).
      clear -Hk. induction d as [|[k' v'] d IHd]; simpl; [reflexivity|].
      destruct (eqb_str k' k0) eqn:E.
      - apply eqb_str_spec in E. subst. exfalso. apply Hk. now left.
      - rewrite IHd; [reflexivity|]. intros H. apply Hk. now right. }
    rewrite E, IH; rewrite <- app_assoc; [reflexivity | exact Hd].
Qed.

(** X3. With unique names the layer map is the zip itself: the layers are
    patched in the order of keymap.json, each with its own keys. *)
Theorem dict_of_unique (A : Type) (pairs : list (pystr * A)) :
  NoDup (map fst pairs) -> dict_of pairs = pairs.
Proof.
  intros H. unfold dict_of. now rewrite dict_fold_unique.
Qed.

Lemma dict_of_unique_witness :
  dict_of [(base, sample_keys); (lower, other_keys)]
  = [(base, sample_keys); (lower, other_keys)].
Proof.
  apply (@dict_of_unique _ [(base, sample_keys); (lower, other_keys)]).
  repeat constructor; simpl; intuition discriminate.
Defined.

Lemma combine_app_r (A B : Type) (l : list A) (l1 l2 : list B) :
  length l <= length l1 -> combine l (l1 ++ l2) = combine l l1.
Proof.
  revert l1; induction l as [|x l IH]; intros [|y l1] H; simpl in *;
    try reflexivity; try lia.
  f_equal. apply IH. lia.
Qed.

(** X4. Layers of keymap.json beyond the number of names are ignored: the
    run is the same with or without them, whatever they hold. *)
Theorem main_extra_layers (args : arguments) (w : world)
    (extra : list (list key)) :
  length (json_layer_names w) <= length (json_layers w) ->
  main args (with_layers w (json_layers w ++ extra)) = main args w.
Proof.
  intros H.
  assert (Hr : regenerate_dtsi (with_layers w (json_layers w ++ extra))
               = regenerate_dtsi w).
  { unfold regenerate_dtsi. induction rake_candidates as [|c cs IH].
    - reflexivity.
    - cbn [regenerate_loop with_layers run_cmd]. now rewrite <- IH. }
  unfold main, patch_all. rewrite Hr.
  cbn [with_layers json_layer_names json_layers build_keymap keymap_dtsi].
  rewrite combine_app_r by assumption. reflexivity.
Qed.

Lemma main_extra_layers_witness :
  main (Args true true) (with_layers world_in_sync
                           (json_layers world_in_sync ++ [[]; [sample_key]]))
  = main (Args true true) world_in_sync.
Proof.
  apply (@main_extra_layers (Args true true) world_in_sync [[]; [sample_key]]).
  simpl. lia.
Defined.

(** ** The loop over the layers *)

Lemma sync_layer_bindings_raise (text layer_name : pystr) (keys : list key)
    (e : exn) :
  sync_layer_bindings text layer_name keys = Raise e ->
  length keys <> 80 /\ e = ValueError (expected_keys_msg (length keys)).
Proof.
  intros H. unfold sync_layer_bindings in H.
  destruct (Nat.eq_dec (length keys) 80) as [E|E].
  - rewrite (render_bindings_ok _ E) in H. simpl bind in H.
    destruct (search _ _); [|discriminate].
    destruct (eqb_str _ _); discriminate.
  - rewrite (render_bindings_raise _ E) in H. simpl in H.
    injection H as <-. auto.
Qed.

Lemma sync_layer_bindings_short (text layer_name : pystr) (keys : list key) :
  length keys <> 80 ->
  sync_layer_bindings text layer_name keys
  = Raise (ValueError (expected_keys_msg (length keys))).
Proof.
  intros E. unfold sync_layer_bindings. now rewrite (render_bindings_raise _ E).
Qed.

Lemma sync_layers_bad (items : list (pystr * list key)) (n : pystr)
    (keys : list key) :
  In (n, keys) items -> length keys <> 80 ->
  forall text acc, exists e, sync_layers items text acc = Raise e.
Proof.
  intros Hin Hlen. induction items as [|[n0 k0] items IH]; intros text acc.
  - destruct Hin.
  - simpl sync_layers.
    destruct (sync_layer_bindings text n0 k0) as [[[t1 c] ch]|e] eqn:Es.
    + simpl bind. destruct (negb (c =? 1)); [eauto|].
      destruct Hin as [E|Hin].
      * injection E as -> ->.
        rewrite sync_layer_bindings_short in Es by assumption. discriminate.
      * apply IH. exact Hin.
    + simpl. eauto.
Qed.

(** X5. A layer of the layer map with other than 80 keys makes the run end
    with an exception before anything is written or printed, in write mode
    too, whatever the document holds. *)
Theorem main_bad_layer (args : arguments) (w : world) (n : pystr)
    (keys : list key) :
  In (n, keys) (dict_of (combine (json_layer_names w) (json_layers w))) ->
  length keys <> 80 ->
  exists e, main args w = ([], Raise e).
Proof.
  intros Hin Hlen. unfold main.
  destruct (if arg_skip_rake args then Ok tt else regenerate_dtsi w);
    [|eauto].
  unfold patch_all.
  destruct (cdb_step (build_keymap w) (keymap_dtsi w)) as [t|e]; [|simpl; eauto].
  simpl bind.
  destruct (sync_layers_bad _ _ _ Hin Hlen t []) as (e & ->). eauto.
Qed.

Lemma main_bad_layer_witness :
  exists e, main (Args true true) world_short_layer = ([], Raise e).
Proof.
  apply (@main_bad_layer (Args true true) world_short_layer base [sample_key]).
  - left. reflexivity.
  - simpl. lia.
Defined.

(** X6. The loop over the layers ends with an exception only for a layer of
    the map: the error of a layer with other than 80 keys, or the error
    that names a layer whose block was not found. *)
Theorem sync_layers_errors (items : list (pystr * list key)) :
  forall text acc e,
    sync_layers items text acc = Raise e ->
    exists n keys,
      In (n, keys) items
      /\ ((length keys <> 80
           /\ e = ValueError (expected_keys_msg (length keys)))
          \/ (length keys = 80 /\ e = RuntimeError (no_layer_msg n))).
Proof.
  induction items as [|[n0 k0] items IH]; intros text acc e H.
  - discriminate.
  - simpl sync_layers in H.
    destruct (sync_layer_bindings text n0 k0) as [[[t1 c] ch]|e0] eqn:Es.
    + simpl bind in H.
      destruct (negb (c =? 1)) eqn:Ec.
      * injection H as <-. exists n0, k0. split; [now left|]. right.
        split; [|reflexivity].
        destruct (Nat.eq_dec (length k0) 80) as [E|E]; [exact E|].
        rewrite sync_layer_bindings_short in Es by assumption. discriminate.
      * destruct (IH _ _ _ H) as (n & keys & Hin & Hc).
        exists n, keys. split; [now right | exact Hc].
    + simpl in H. injection H as <-.
      apply sync_layer_bindings_raise in Es as [E ->].
      exists n0, k0. split; [now left|]. left. auto.
Qed.

Lemma sync_layers_errors_witness :
  exists n keys,
    In (n, keys) [(lower, other_keys)]
    /\ ((length keys <> 80
         /\ RuntimeError (no_layer_msg lower)
            = ValueError (expected_keys_msg (length keys)))
        \/ (length keys = 80
            /\ RuntimeError (no_layer_msg lower) = RuntimeError (no_layer_msg n))).
Proof.
  apply (@sync_layers_errors [(lower, other_keys)] doc_fresh []).
  vm_compute. reflexivity.
Defined.

(** ** One layer patch *)

Lemma search_layer_found (layer_name text : pystr) :
  has_layer_region layer_name text ->
  exists m, search (layer_pattern layer_name) text = Some m.
Proof.
  intros (pre & g1 & body & g3 & post & -> & Hg1 & Hg3).
  unfold search.
  destruct (first_suffix_exists close_at (body ++ g3 ++ post)
              (length pre + (length (g1 ++ body ++ g3 ++ post)
                             - length (body ++ g3 ++ post)))
              (k := length body)
              (b := (length pre
                     + (length (g1 ++ body ++ g3 ++ post)
                        - length (body ++ g3 ++ post)) + length body,
                     length pre
                     + (length (g1 ++ body ++ g3 ++ post)
                        - length (body ++ g3 ++ post)) + length body
                     + (length (g3 ++ post) - length post))))
    as ([b e] & Hb).
  { rewrite length_app. lia. }
  { unfold close_at. rewrite skipn_app_exact.
    now rewrite (scan_delim _ wf_close_toks _ post Hg3). }
  apply (first_suffix_exists (match_at (layer_pattern layer_name)) _ 0
           (k := length pre)
           (b := Match (0 + length pre)
                   [length pre + (length (g1 ++ body ++ g3 ++ post)
                                  - length (body ++ g3 ++ post)); b] e)).
  - rewrite length_app. lia.
  - rewrite skipn_app_exact. unfold match_at. rewrite rx_match_layer.
    unfold layer_match_at.
    rewrite (scan_delim _ (wf_open_toks layer_name) _ _ Hg1).
    unfold find_close. change (0 + length pre) with (length pre).
    now rewrite Hb.
Qed.

(** The outcomes of one layer patch that returns. *)
Lemma sync_layer_bindings_cases (text layer_name : pystr) (keys : list key)
    (u : pystr) (c : nat) (ch : bool) :
  sync_layer_bindings text layer_name keys = Ok (u, c, ch) ->
  exists block,
    render_bindings keys = Ok block
    /\ ((search (layer_pattern layer_name) text = None
         /\ u = text /\ c = 0 /\ ch = false)
        \/ (exists pre g1 body g3 post,
              layer_region layer_name text pre g1 body g3 post
              /\ c = 1
              /\ ((eqb_str (normalize body) (normalize block) = true
                   /\ u = text /\ ch = false)
                  \/ (eqb_str (normalize body) (normalize block) = false
                      /\ u = pre ++ g1 ++ block ++ g3 ++ post
                      /\ ch = true)))).
Proof.
  intros H.
  destruct (render_bindings keys) as [block|e] eqn:Eb.
  2:{ unfold sync_layer_bindings in H. rewrite Eb in H. discriminate. }
  exists block. split; [reflexivity|].
  destruct (search (layer_pattern layer_name) text) as [m|] eqn:Es.
  - right. destruct (search_layer_region _ _ Es)
      as (pre & g1 & body & g3 & post & Hreg & _).
    exists pre, g1, body, g3, post. split; [exact Hreg|].
    rewrite (sync_layer_bindings_region _ Hreg Eb) in H.
    destruct (eqb_str (normalize body) (normalize block));
      injection H as <- <- <-; auto 6.
  - left. rewrite (sync_layer_bindings_not_found _ _ _ Eb Es) in H.
    injection H as <- <- <-. auto.
Qed.

(** X7. The flag a layer patch returns is accurate: it is set exactly when
    the text returned differs from the text given. *)
Theorem sync_layer_bindings_flag (text layer_name : pystr) (keys : list key)
    (u : pystr) (c : nat) (ch : bool) :
  sync_layer_bindings text layer_name keys = Ok (u, c, ch) ->
  (ch = true <-> u <> text).
Proof.
  intros H.
  destruct (sync_layer_bindings_cases _ _ _ H) as (block & _ & [Hn|Hf]).
  - destruct Hn as (_ & -> & _ & ->). split; [discriminate | congruence].
  - destruct Hf as (pre & g1 & body & g3 & post & Hreg & _ & [Hs|Hd]).
    + destruct Hs as (_ & -> & ->). split; [discriminate | congruence].
    + destruct Hd as (Hne & -> & ->). split; [|reflexivity].
      intros _ E. destruct Hreg as (Et & _). rewrite Et in E.
      apply app_inv_head in E. apply app_inv_head in E.
      apply app_inv_tail in E. subst block.
      rewrite eqb_str_refl in Hne. discriminate.
Qed.

Lemma sync_layer_bindings_flag_witness :
  true = true <-> doc_fresh <> doc_stale.
Proof.
  apply (@sync_layer_bindings_flag doc_stale base sample_keys doc_fresh 1 true).
  vm_compute. reflexivity.
Defined.

(** X8. With 80 keys, a layer patch finds its block exactly when the text
    holds, somewhere, an opening delimiter of the layer with a closing
    delimiter after it; otherwise it returns the text as it is, with the
    count 0. *)
Theorem sync_layer_bindings_found_iff (text layer_name : pystr)
    (keys : list key) :
  length keys = 80 ->
  (has_layer_region layer_name text ->
   exists u ch, sync_layer_bindings text layer_name keys = Ok (u, 1, ch))
  /\ (~ has_layer_region layer_name text ->
      sync_layer_bindings text layer_name keys = Ok (text, 0, false)).
Proof.
  intros Hlen. pose proof (render_bindings_ok _ Hlen) as Eb. split.
  - intros Hh. destruct (search_layer_found Hh) as (m & Es).
    destruct (search_layer_region _ _ Es)
      as (pre & g1 & body & g3 & post & Hreg & _).
    rewrite (sync_layer_bindings_region _ Hreg Eb).
    destruct (eqb_str _ _); eauto.
  - intros Hn. apply (sync_layer_bindings_not_found _ _ _ Eb).
    destruct (search (layer_pattern layer_name) text) as [m|] eqn:Es;
      [|reflexivity].
    destruct (search_layer_region _ _ Es)
      as (pre & g1 & body & g3 & post & (Et & Hg1 & Hg3 & _) & _).
    destruct Hn. exists pre, g1, body, g3, post. auto.
Qed.

Lemma sync_layer_bindings_found_iff_witness :
  (has_layer_region base doc_stale ->
   exists u ch, sync_layer_bindings doc_stale base sample_keys = Ok (u, 1, ch))
  /\ (~ has_layer_region base doc_stale ->
      sync_layer_bindings doc_stale base sample_keys = Ok (doc_stale, 0, false)).
Proof.
  apply (@sync_layer_bindings_found_iff doc_stale base sample_keys).
  reflexivity.
Defined.

(** X9. A block that was found is found again: after a layer patch that
    returned the count 1, the same patch on the text returned returns the
    count 1 too, whatever the keys render to. *)
Theorem sync_layer_bindings_found_again (text layer_name : pystr)
    (keys : list key) (u : pystr) (ch : bool) :
  sync_layer_bindings text layer_name keys = Ok (u, 1, ch) ->
  exists u' ch', sync_layer_bindings u layer_name keys = Ok (u', 1, ch').
Proof.
  intros H.
  destruct (sync_layer_bindings_cases _ _ _ H) as (block & Eb & [Hn|Hf]).
  - destruct Hn as (_ & _ & Hc & _). discriminate.
  - destruct Hf as (pre & g1 & body & g3 & post & Hreg & _ & Hu).
    destruct Hreg as (Et & Hg1 & Hg3 & _).
    assert (Hh : has_layer_region layer_name u).
    { destruct Hu as [(_ & -> & _)|(_ & -> & _)].
      - exists pre, g1, body, g3, post. auto.
      - exists pre, g1, block, g3, post. auto. }
    destruct (search_layer_found Hh) as (m & Es).
    destruct (search_layer_region _ _ Es)
      as (pre' & g1' & body' & g3' & post' & Hreg' & _).
    rewrite (sync_layer_bindings_region _ Hreg' Eb).
    destruct (eqb_str (normalize body') (normalize block)); eauto.
Qed.

Lemma sync_layer_bindings_found_again_witness :
  exists u' ch',
    sync_layer_bindings doc_fresh base sample_keys = Ok (u', 1, ch').
Proof.
  apply (@sync_layer_bindings_found_again doc_stale base sample_keys
           doc_fresh true).
  vm_compute. reflexivity.
Defined.

Lemma subseq_nil_l (A : Type) (l : list A) : subseq [] l.
Proof. induction l; constructor; assumption. Qed.

(** X10. When the loop over the layers returns, the list of changed layers
    is the list it started with followed by names of the layer map, in the
    order of the map; when no name was added, the text is returned as it
    was given. *)
Theorem sync_layers_changed (items : list (pystr * list key)) :
  forall text acc text' acc',
    sync_layers items text acc = Ok (text', acc') ->
    exists ch,
      acc' = acc ++ ch
      /\ subseq ch (map fst items)
      /\ (ch = [] -> text' = text).
Proof.
  induction items as [|[n0 k0] items IH]; intros text acc text' acc' H.
  - injection H as <- <-. exists []. rewrite app_nil_r.
    repeat split; constructor.
  - simpl sync_layers in H.
    destruct (sync_layer_bindings text n0 k0) as [[[t1 c] f]|e] eqn:Es;
      [|discriminate].
    simpl bind in H. destruct (negb (c =? 1)); [discriminate|].
    destruct (IH _ _ _ _ H) as (ch & Eacc & Hsub & Htext).
    destruct (sync_layer_bindings_cases _ _ _ Es) as (block & _ & Hc).
    destruct f.
    + exists (n0 :: ch). rewrite Eacc, <- app_assoc.
      split; [reflexivity|]. split; [now constructor | discriminate].
    + exists ch. split; [exact Eacc|]. split; [now constructor|].
      intros E. rewrite (Htext E).
      destruct Hc as [(_ & -> & _)|(pre & g1 & body & g3 & post & _ & _ & Hu)];
        [reflexivity|].
      destruct Hu as [(_ & -> & _)|(_ & _ & Hf)];
        [reflexivity | discriminate].
Qed.

Lemma sync_layers_changed_witness :
  exists ch,
    [base] = [] ++ ch
    /\ subseq ch (map fst [(base, sample_keys)])
    /\ (ch = [] -> doc_fresh = doc_stale).
Proof.
  apply (@sync_layers_changed [(base, sample_keys)] doc_stale [] doc_fresh
           [base]).
  vm_compute. reflexivity.
Defined.

(** ** The words of a rendered block *)

Lemma split_acc_sep (a b : pystr) (c : char) :
  isspace c = true ->
  forall w, split_acc w (a ++ c :: b) = split_acc w a ++ split b.
Proof.
  intros Hc. induction a as [|x a IH]; intros w.
  - cbn [app split_acc]. now rewrite Hc.
  - cbn [app split_acc]. destruct (isspace x).
    + now rewrite IH, app_assoc.
    + apply IH.
Qed.

Lemma split_ws_prefix (w b : pystr) :
  all_ws w = true -> split (w ++ b) = split b.
Proof.
  induction w as [|c w IH]; intros H; [reflexivity|].
  apply all_ws_In with (c := c) in H as Hc; [|now left].
  assert (Hw : all_ws w = true).
  { unfold all_ws in *. simpl in H. now apply andb_prop in H. }
  unfold split. cbn [app split_acc]. rewrite Hc. apply (IH Hw).
Qed.

Lemma split_join (c : char) (parts : list pystr) :
  isspace c = true ->
  split (join [c] parts) = flat_map split parts.
Proof.
  intros Hc. induction parts as [|p parts IH]; [reflexivity|].
  destruct parts as [|q parts].
  - cbn [join flat_map]. now rewrite app_nil_r.
  - change (join [c] (p :: q :: parts)) with (p ++ c :: join [c] (q :: parts)).
    unfold split at 1. rewrite (@split_acc_sep p _ c Hc). fold (split p).
    now rewrite IH.
Qed.

Lemma flat_map_concat (A B : Type) (f : A -> list B) (ll : list (list A)) :
  flat_map (fun l => flat_map f l) ll = flat_map f (concat ll).
Proof.
  induction ll as [|l ll IH]; [reflexivity|].
  cbn [flat_map concat]. now rewrite IH, flat_map_app.
Qed.

Lemma split_render_rows (tokens : list pystr) :
  length tokens = 80 ->
  split (render_rows tokens) = flat_map split tokens.
Proof.
  intros Hlen. unfold render_rows.
  rewrite split_join by reflexivity.
  rewrite flat_map_concat_map, map_map.
  erewrite map_ext.
  2:{ intros row. unfold row_line.
      rewrite split_ws_prefix by reflexivity.
      apply split_join. reflexivity. }
  rewrite <- flat_map_concat_map, flat_map_concat.
  pose proof (chunk_concat [10; 12; 12; 12; 18; 16] tokens) as Hc.
  rewrite skipn_all2 in Hc by (rewrite Hlen; simpl; lia).
  rewrite app_nil_r in Hc. now rewrite Hc.
Qed.

(** X11. The words of a rendered block are the words of the tokens of the
    keys, in the order of the keys: the rows and the indentation add none.
    So the text a block is compared by is the tokens' words joined by
    single spaces. *)
Theorem render_bindings_words (keys : list key) (block : pystr) :
  render_bindings keys = Ok block ->
  split block = flat_map split (map key_to_token keys)
  /\ normalize block = join [sp] (flat_map split (map key_to_token keys)).
Proof.
  intros H.
  destruct (Nat.eq_dec (length keys) 80) as [E|E].
  - rewrite (render_bindings_ok _ E) in H. injection H as <-.
    assert (Hs : split (render_rows (map key_to_token keys))
                 = flat_map split (map key_to_token keys)).
    { apply split_render_rows. now rewrite length_map. }
    unfold normalize. now rewrite Hs.
  - rewrite (render_bindings_raise _ E) in H. discriminate.
Qed.

Lemma render_bindings_words_witness :
  split sample_block = flat_map split (map key_to_token sample_keys)
  /\ normalize sample_block
     = join [sp] (flat_map split (map key_to_token sample_keys)).
Proof.
  apply (@render_bindings_words sample_keys sample_block).
  vm_compute. reflexivity.
Defined.

(** ** The rake step *)

(** X12. The first candidate that is installed decides the rake step: the
    step returns when that command succeeds, raises the message of that
    command when it fails, without trying a later candidate, and raises
    "Unable to find rake executable" when no candidate is installed. *)
Theorem regenerate_loop_outcome (w : world) (cands : list pystr) :
  match regenerate_loop w cands with
  | Ok _ =>
      exists before cmd after,
        cands = before ++ cmd :: after
        /\ Forall (not_found w) before
        /\ run_cmd w cmd = CmdOk
  | Raise e =>
      (Forall (not_found w) cands /\ e = RuntimeError no_rake_msg)
      \/ (exists before cmd after stderr stdout exc_str,
            cands = before ++ cmd :: after
            /\ Forall (not_found w) before
            /\ run_cmd w cmd = CmdFailed stderr stdout exc_str
            /\ e = RuntimeError
                     (first_truthy (strip stderr) (strip stdout) exc_str))
  end.
Proof.
  induction cands as [|c cands IH].
  - left. split; [constructor | reflexivity].
  - cbn [regenerate_loop]. destruct (run_cmd w c) as [| |se so ex] eqn:Ec.
    + exists [], c, cands. repeat split; [constructor | exact Ec].
    + destruct (regenerate_loop w cands) as [u|e].
      * destruct IH as (before & cmd & after & -> & Hb & Hc).
        exists (c :: before), cmd, after.
        repeat split; [now constructor | exact Hc].
      * destruct IH as [(Hall & ->)|IH].
        -- left. split; [now constructor | reflexivity].
        -- destruct IH as (before & cmd & after & se & so & ex & -> & Hb & Hc & ->).
           right. exists (c :: before), cmd, after, se, so, ex.
           repeat split; [now constructor | exact Hc].
    + right. exists [], c, cands, se, so, ex.
      repeat split; [constructor | exact Ec].
Qed.

Lemma lstrip_nil (s : pystr) : lstrip s = [] <-> all_ws s = true.
Proof.
  induction s as [|c s IH]; simpl; [tauto|].
  destruct (isspace c); simpl; [exact IH|]. split; discriminate.
Qed.

Lemma all_ws_rev (s : pystr) : all_ws (rev s) = all_ws s.
Proof.
  induction s as [|c s IH]; [reflexivity|].
  simpl rev. rewrite all_ws_app, IH. unfold all_ws. simpl.
  rewrite andb_true_r. apply andb_comm.
Qed.

Lemma lstrip_idem (s : pystr) : lstrip (lstrip s) = lstrip s.
Proof.
  induction s as [|c s IH]; [reflexivity|].
  simpl. destruct (isspace c) eqn:Ec; [exact IH|].
  simpl. now rewrite Ec.
Qed.

Lemma strip_nil (s : pystr) : strip s = [] <-> all_ws s = true.
Proof.
  unfold strip, rstrip. rewrite lstrip_nil, all_ws_rev.
  rewrite <- (all_ws_rev s), <- (lstrip_nil (rev s)).
  split; intros H.
  - apply lstrip_nil in H. now rewrite lstrip_idem in H.
  - now rewrite H.
Qed.

Lemma first_truthy_strip (stderr stdout exc_str : pystr) :
  first_truthy (strip stderr) (strip stdout) exc_str
  = if all_ws stderr then if all_ws stdout then exc_str else strip stdout
    else strip stderr.
Proof.
  unfold first_truthy.
  destruct (all_ws stderr) eqn:E1.
  - apply strip_nil in E1. rewrite E1.
    destruct (all_ws stdout) eqn:E2.
    + apply strip_nil in E2. now rewrite E2.
    + destruct (strip stdout) eqn:E; [|reflexivity].
      apply strip_nil in E. congruence.
  - destruct (strip stderr) eqn:E; [|reflexivity].
    apply strip_nil in E. congruence.
Qed.

Lemma regenerate_loop_skip (w : world) (before rest : list pystr) :
  Forall (not_found w) before ->
  regenerate_loop w (before ++ rest) = regenerate_loop w rest.
Proof.
  induction 1 as [|c before Hc _ IH]; [reflexivity|].
  cbn [app regenerate_loop]. unfold not_found in Hc. now rewrite Hc.
Qed.

(** X13. When the command that decides the rake step fails, the run ends
    with a RuntimeError and nothing is written or printed.  Its
    message is the standard error of the command, stripped, unless that is
    blank; then the standard output, stripped, unless that is blank too;
    then the text of the exception. *)
Theorem main_rake_failed (wr : bool) (w : world) (before after : list pystr)
    (cmd stderr stdout exc_str : pystr) :
  rake_candidates = before ++ cmd :: after ->
  Forall (not_found w) before ->
  run_cmd w cmd = CmdFailed stderr stdout exc_str ->
  main (Args wr false) w
  = ([], Raise (RuntimeError
                  (if all_ws stderr
                   then if all_ws stdout then exc_str else strip stdout
                   else strip stderr))).
Proof.
  intros Hc Hb Hf. unfold main. cbn [arg_skip_rake].
  unfold regenerate_dtsi. rewrite Hc, (regenerate_loop_skip _ Hb).
  cbn [regenerate_loop]. rewrite Hf, first_truthy_strip. reflexivity.
Qed.

Lemma main_rake_failed_witness :
  main (Args true false) world_failing_rake
  = ([], Raise (RuntimeError (str "rake aborted!"))).
Proof.
  apply (@main_rake_failed true world_failing_rake []
           [str "rake"] (str "/opt/homebrew/opt/ruby/bin/rake")
           [nl] (str "rake aborted!" ++ [nl]) (str "Command returned 1")).
  - reflexivity.
  - constructor.
  - reflexivity.
Defined.

(** ** What a token is made of *)

Lemma resolve_nested_prune (n : node) :
  _resolve_nested (prune n) = _resolve_nested n.
Proof.
  induction n as [| s | v | v p ps IH] using node_chain_ind;
    try reflexivity.
  cbn [prune _resolve_nested]. now rewrite IH.
Qed.

(** X14. Only the chain of first parameters reaches a token: the
    parameters after the first, of the key and of every dict below it, are
    never read. *)
Theorem key_to_token_first_params (k : key) :
  key_to_token (prune_key k) = key_to_token k.
Proof.
  destruct k as [behavior [|first rest]]; [reflexivity|].
  cbn [prune_key key_to_token]. rewrite resolve_nested_prune.
  destruct (eqb_str behavior CUSTOM); [|reflexivity].
  destruct first as [| s | [v ps]]; reflexivity.
Qed.

Lemma resolve_nested_chars (n : node) :
  forall s c,
    _resolve_nested n = Some s -> In c s ->
    c = lparen \/ c = rparen
    \/ exists name, In name (node_names n) /\ In c name.
Proof.
  induction n as [| s0 | v | v p ps IH] using node_chain_ind; intros s c H Hc.
  - discriminate.
  - injection H as <-. right. right. exists s0. split; [now left | exact Hc].
  - cbn [_resolve_nested] in H.
    destruct (eqb_str v KP); [discriminate|]. injection H as <-.
    right. right. exists v. split; [now left | exact Hc].
  - cbn [_resolve_nested] in H. cbn [node_names].
    assert (Hch : forall s', _resolve_nested p = Some s' -> In c s' ->
                  c = lparen \/ c = rparen
                  \/ exists name, In name (v :: node_names p) /\ In c name).
    { intros s' E Hin. destruct (IH _ _ E Hin) as [L|[R|(name & Hn & Hi)]]; auto.
      right. right. exists name. split; [now right | exact Hi]. }
    destruct (eqb_str v KP).
    + apply (Hch _ H Hc).
    + assert (Hv : In c v -> c = lparen \/ c = rparen
                  \/ exists name, In name (v :: node_names p) /\ In c name).
      { intros Hi. right. right. exists v. split; [now left | exact Hi]. }
      destruct (_resolve_nested p) as [[|x xs]|] eqn:E;
        injection H as <-; auto.
      rewrite in_app_iff in Hc. destruct Hc as [Hc|Hc]; auto.
      destruct Hc as [<-|Hc]; [now left|].
      change (x :: xs ++ [rparen]) with ((x :: xs) ++ [rparen]) in Hc.
      apply in_app_or in Hc as [Hc|Hc].
      * apply (Hch _ eq_refl Hc).
      * destruct Hc as [<-|[]]. right. now left.
Qed.

Lemma key_to_token_chars (k : key) (c : char) :
  In c (key_to_token k) ->
  In c [sp; lparen; rparen] \/ In c NONE_STR
  \/ exists name, In name (key_names k) /\ In c name.
Proof.
  destruct k as [behavior [|first rest]]; intros Hc.
  - right. right. exists behavior. split; [now left | exact Hc].
  - cbn [key_to_token] in Hc. cbn [key_names].
    assert (Hb : In c behavior ->
                 In c [sp; lparen; rparen] \/ In c NONE_STR
                 \/ exists name,
                      In name (behavior :: node_names first) /\ In c name).
    { intros Hi. right. right. exists behavior. split; [now left | exact Hi]. }
    destruct (eqb_str behavior CUSTOM).
    + destruct first as [| s | [v ps]].
      * right. now left.
      * right. right. exists s. split; [right; now left | exact Hc].
      * right. right. exists v. split; [right; now left | exact Hc].
    + assert (Hn : forall s, _resolve_nested first = Some s -> In c s ->
                   In c [sp; lparen; rparen] \/ In c NONE_STR
                   \/ exists name,
                        In name (behavior :: node_names first) /\ In c name).
      { intros s E Hi.
        destruct (@resolve_nested_chars first s c E Hi) as [->|[->|(name & Hn & Hi')]].
        - left. right. now left.
        - left. right. right. now left.
        - right. right. exists name. split; [now right | exact Hi']. }
      destruct (eqb_str behavior KP) eqn:Ekp.
      * apply eqb_str_spec in Ekp. subst behavior.
        destruct (_resolve_nested first) as [[|x xs]|] eqn:E; auto.
        rewrite !in_app_iff in Hc. destruct Hc as [Hc|[Hc|Hc]]; auto.
        -- destruct Hc as [<-|[]]. left. now left.
        -- apply (Hn _ eq_refl Hc).
      * destruct (_resolve_nested first) as [[|x xs]|] eqn:E; auto.
        rewrite !in_app_iff in Hc. destruct Hc as [Hc|[Hc|Hc]]; auto.
        -- destruct Hc as [<-|[]]. left. now left.
        -- apply (Hn _ eq_refl Hc).
Qed.

Lemma join_chars (sep : pystr) (parts : list pystr) (c : char) :
  In c (join sep parts) ->
  In c sep \/ exists p, In p parts /\ In c p.
Proof.
  induction parts as [|p parts IH]; intros H; [destruct H|].
  destruct parts as [|q parts].
  - right. exists p. split; [now left | exact H].
  - change (join sep (p :: q :: parts))
      with (p ++ sep ++ join sep (q :: parts)) in H.
    rewrite !in_app_iff in H. destruct H as [H|[H|H]]; auto.
    + right. exists p. split; [now left | exact H].
    + destruct (IH H) as [L|(p' & Hp & Hi)]; auto.
      right. exists p'. split; [now right | exact Hi].
Qed.

Lemma chunk_In (A : Type) (widths : list nat) :
  forall (l row : list A) (x : A),
    In row (chunk widths l) -> In x row -> In x l.
Proof.
  induction widths as [|w widths IH]; intros l row x Hr Hx; [destruct Hr|].
  cbn [chunk] in Hr. destruct Hr as [<-|Hr].
  - rewrite <- (firstn_skipn w l). apply in_or_app. now left.
  - rewrite <- (firstn_skipn w l). apply in_or_app. right.
    apply (IH _ _ _ Hr Hx).
Qed.

Lemma render_rows_chars (tokens : list pystr) (c : char) :
  In c (render_rows tokens) ->
  c = sp \/ c = nl \/ exists t, In t tokens /\ In c t.
Proof.
  intros H. unfold render_rows in H.
  apply join_chars in H as [[<-|[]]|(line & Hl & Hc)]; auto.
  apply in_map_iff in Hl as (row & <- & Hrow).
  unfold row_line in Hc. apply in_app_or in Hc as [Hc|Hc].
  - apply repeat_spec in Hc. auto.
  - apply join_chars in Hc as [[<-|[]]|(t & Ht & Hc)]; auto.
    right. right. exists t. split; [|exact Hc].
    apply (chunk_In _ _ _ _ Hrow Ht).
Qed.

Lemma block_chars (keys : list key) (block : pystr) (c : char) :
  render_bindings keys = Ok block -> In c block ->
  In c [sp; nl; lparen; rparen] \/ In c NONE_STR
  \/ exists k name, In k keys /\ In name (key_names k) /\ In c name.
Proof.
  intros H Hc.
  destruct (Nat.eq_dec (length keys) 80) as [E|E].
  2:{ rewrite (render_bindings_raise _ E) in H. discriminate. }
  rewrite (render_bindings_ok _ E) in H. injection H as <-.
  apply render_rows_chars in Hc as [->|[->|(t & Ht & Hc)]].
  - left. now left.
  - left. right. now left.
  - apply in_map_iff in Ht as (k & <- & Hk).
    destruct (key_to_token_chars _ _ Hc) as [L|[N|(name & Hn & Hi)]].
    + left. destruct L as [<-|[<-|[<-|[]]]]; simpl; auto.
    + right. now left.
    + right. right. exists k, name. auto.
Qed.

(** X15. Every character of a rendered block is a space, a newline, a
    parenthesis, a character of "None", or a character of a name on the
    chain of first parameters of one of the keys. *)
Theorem render_bindings_chars (keys : list key) (block : pystr) (c : char) :
  render_bindings keys = Ok block -> In c block ->
  In c [sp; nl; lparen; rparen] \/ In c NONE_STR
  \/ exists k name, In k keys /\ In name (key_names k) /\ In c name.
Proof. apply block_chars. Qed.

Lemma render_bindings_chars_witness :
  In lparen [sp; nl; lparen; rparen] \/ In lparen NONE_STR
  \/ exists k name,
       In k (Key (str "&mt") [NDict (Key (str "LC") [NLeaf (str "A")])]
             :: repeat sample_key 79)
       /\ In name (key_names k) /\ In lparen name.
Proof.
  apply (@render_bindings_chars
           (Key (str "&mt") [NDict (Key (str "LC") [NLeaf (str "A")])]
            :: repeat sample_key 79)
           (render_rows
              (map key_to_token
                 (Key (str "&mt") [NDict (Key (str "LC") [NLeaf (str "A")])]
                  :: repeat sample_key 79)))
           lparen).
  - vm_compute. reflexivity.
  - vm_compute. do 18 right. left. reflexivity.
Defined.

Lemma occurrences_absent (needle s : pystr) (c : char) :
  In c needle -> ~ In c s -> occurrences needle s = 0.
Proof.
  intros Hn. induction s as [|y s IH]; intros Hs.
  - destruct needle; [destruct Hn | reflexivity].
  - cbn [occurrences]. rewrite IH by (intros Hi; apply Hs; now right).
    destruct (starts_with needle (y :: s)) eqn:E; [|reflexivity].
    apply starts_with_split in E. destruct Hs. rewrite E.
    apply in_or_app. now left.
Qed.

(** X16. When no name on the chains of first parameters of the keys holds
    ">", the rendered block holds no ">;": nothing in it can be taken for
    the end of the layer block. *)
Theorem render_bindings_no_close (keys : list key) (block : pystr) :
  (forall k name, In k keys -> In name (key_names k) -> ~ In gt_char name) ->
  render_bindings keys = Ok block ->
  occurrences GT_SEMI block = 0.
Proof.
  intros Hk H. apply (@occurrences_absent GT_SEMI block gt_char).
  - now left.
  - intros Hc.
    destruct (@block_chars keys block gt_char H Hc) as [L|[N|(k & name & Hin & Hn & Hi)]].
    + destruct L as [E|[E|[E|[E|[]]]]]; discriminate.
    + destruct N as [E|[E|[E|[E|[]]]]]; discriminate.
    + apply (Hk _ _ Hin Hn Hi).
Qed.

Lemma render_bindings_no_close_witness :
  occurrences GT_SEMI sample_block = 0.
Proof.
  apply (@render_bindings_no_close sample_keys sample_block).
  - intros k name Hk Hn Hc. apply repeat_spec in Hk. subst k.
    cbn in Hn. destruct Hn as [<-|[<-|[]]]; cbn in Hc;
      repeat (destruct Hc as [Hc|Hc]; [discriminate|]); destruct Hc.
  - vm_compute. reflexivity.
Defined.

(** ** The replacement template *)

Lemma cdb_replacement_body (dtsi_text : pystr) :
  cdb_replacement dtsi_text = CDB_OPEN ++ cdb_body dtsi_text ++ CDB_CLOSE.
Proof.
  unfold cdb_replacement, cdb_body. rewrite <- !app_assoc. reflexivity.
Qed.

Lemma parse_plain_after (e : char) (s : pystr) :
  plain_after e = true ->
  parse_template_st TText (backslash :: e :: s)
  = option_map (fun t => TLit backslash :: TLit e :: t)
      (parse_template_st TText s).
Proof.
  unfold plain_after. intros H.
  apply andb_prop in H as [H H3]. apply andb_prop in H as [H1 H2].
  apply negb_true_iff in H1, H2, H3.
  assert (Hne : forall k, is_ascii_letter k || is_digit k = true ->
                (e =? k)%N = false).
  { intros k Hk. destruct (N.eqb_spec e k) as [->|_]; [|reflexivity].
    rewrite H2, H3 in Hk. discriminate. }
  assert (Hesc : escape_char e = None).
  { unfold escape_char. rewrite !Hne by reflexivity.
    fold backslash. now rewrite H1. }
  cbn [parse_template_st]. change (backslash =? backslash)%N with true.
  cbn [negb]. cbv iota.
  rewrite (Hne 103%N), (Hne 48%N), H3, Hesc, H2 by reflexivity.
  reflexivity.
Qed.

Lemma parse_verbatim_aux (n : nat) :
  forall a s,
    length a <= n -> verbatim a = true ->
    parse_template_st TText (a ++ s)
    = option_map (app (map TLit a)) (parse_template_st TText s).
Proof.
  induction n as [|n IH]; intros a s Hn Hv.
  - destruct a; [|simpl in Hn; lia]. simpl.
    destruct (parse_template_st TText s); reflexivity.
  - destruct a as [|c a].
    { simpl. destruct (parse_template_st TText s); reflexivity. }
    cbn [verbatim] in Hv. destruct (c =? backslash)%N eqn:Ec.
    + apply N.eqb_eq in Ec. subst c.
      destruct a as [|e a]; [discriminate|].
      apply andb_prop in Hv as [He Hv].
      change ((backslash :: e :: a) ++ s) with (backslash :: e :: a ++ s).
      rewrite (@parse_plain_after e _ He), IH by (simpl in Hn |- *; auto; lia).
      destruct (parse_template_st TText s); reflexivity.
    + change ((c :: a) ++ s) with (c :: a ++ s).
      cbn [parse_template_st]. rewrite Ec. cbn [negb]. cbv iota.
      rewrite IH by (simpl in Hn |- *; auto; lia).
      destruct (parse_template_st TText s); reflexivity.
Qed.

Lemma parse_verbatim_app (a s : pystr) :
  verbatim a = true ->
  parse_template_st TText (a ++ s)
  = option_map (app (map TLit a)) (parse_template_st TText s).
Proof. apply (@parse_verbatim_aux (length a)). lia. Qed.

Lemma parse_verbatim (a : pystr) :
  verbatim a = true -> parse_template a = Some (map TLit a).
Proof.
  intros H. unfold parse_template.
  rewrite <- (app_nil_r a) at 1. rewrite (@parse_verbatim_app a [] H).
  simpl. now rewrite app_nil_r.
Qed.

Lemma verbatim_app_aux (n : nat) :
  forall a b,
    length a <= n -> verbatim a = true -> verbatim b = true ->
    verbatim (a ++ b) = true.
Proof.
  induction n as [|n IH]; intros a b Hn Ha Hb.
  - destruct a; [exact Hb | simpl in Hn; lia].
  - destruct a as [|c a]; [exact Hb|].
    cbn [verbatim] in Ha. change ((c :: a) ++ b) with (c :: a ++ b).
    cbn [verbatim]. destruct (c =? backslash)%N.
    + destruct a as [|e a]; [discriminate|].
      apply andb_prop in Ha as [He Ha].
      change ((e :: a) ++ b) with (e :: a ++ b). cbv iota.
      rewrite He, IH by (simpl in Hn |- *; auto; lia). reflexivity.
    + apply IH; simpl in Hn |- *; auto; lia.
Qed.

Lemma verbatim_app (a b : pystr) :
  verbatim a = true -> verbatim b = true -> verbatim (a ++ b) = true.
Proof. apply (@verbatim_app_aux (length a)). lia. Qed.

(** A text whose last backslash, if it ends with one, is completed by the
    newline that follows it. *)
Lemma verbatim_close_aux (n : nat) :
  forall a b,
    length a <= n -> verbatim (a ++ [nl]) = true -> verbatim b = true ->
    verbatim (a ++ nl :: b) = true.
Proof.
  induction n as [|n IH]; intros a b Hn Ha Hb.
  - destruct a; [exact Hb | simpl in Hn; lia].
  - destruct a as [|c a]; [exact Hb|].
    change ((c :: a) ++ [nl]) with (c :: a ++ [nl]) in Ha.
    change ((c :: a) ++ nl :: b) with (c :: a ++ nl :: b).
    cbn [verbatim] in Ha |- *. destruct (c =? backslash)%N.
    + destruct a as [|e a].
      * simpl app in Ha |- *. cbv iota. now rewrite Hb.
      * change ((e :: a) ++ [nl]) with (e :: a ++ [nl]) in Ha.
        change ((e :: a) ++ nl :: b) with (e :: a ++ nl :: b).
        cbv iota in Ha |- *. apply andb_prop in Ha as [He Ha].
        rewrite He, IH by (simpl in Hn |- *; auto; lia). reflexivity.
    + apply IH; simpl in Hn |- *; auto; lia.
Qed.

Lemma verbatim_replacement (dtsi_text : pystr) :
  verbatim (rstrip dtsi_text ++ [nl]) = true ->
  verbatim (cdb_replacement dtsi_text) = true.
Proof.
  intros H. unfold cdb_replacement.
  rewrite !app_assoc, <- (app_assoc _ (rstrip dtsi_text)).
  rewrite <- !app_assoc.
  apply verbatim_app; [reflexivity|].
  apply verbatim_app; [reflexivity|].
  apply verbatim_app; [reflexivity|].
  apply verbatim_app; [reflexivity|].
  apply (@verbatim_close_aux (length (rstrip dtsi_text))); auto.
Qed.

Lemma search_cdb_intro (pre body post : pystr) :
  (forall j, j < length pre ->
   rx_match CDB_PATTERN
     (skipn j (pre ++ CDB_OPEN ++ body ++ CDB_CLOSE ++ post)) j = None) ->
  (forall k, k < length body ->
   starts_with CDB_CLOSE (skipn k (body ++ CDB_CLOSE ++ post)) = false) ->
  search CDB_PATTERN (pre ++ CDB_OPEN ++ body ++ CDB_CLOSE ++ post)
  = Some (Match (length pre) []
            (length pre + length CDB_OPEN + length body + length CDB_CLOSE)).
Proof.
  intros Hleft Hmin. unfold search.
  apply (first_suffix_intro (match_at CDB_PATTERN) _ 0 (k := length pre)).
  - rewrite length_app. lia.
  - unfold match_at.
    rewrite skipn_app_exact, rx_match_cdb, starts_with_app, skipn_app_exact.
    rewrite (first_suffix_intro cdb_close_at (body ++ CDB_CLOSE ++ post) _
               (k := length body)
               (b := ([], length pre + length CDB_OPEN + length body
                          + length CDB_CLOSE))).
    + reflexivity.
    + rewrite length_app. lia.
    + now rewrite skipn_app_exact, cdb_close_at_app.
    + intros j Hj. unfold cdb_close_at. now rewrite (Hmin j Hj).
  - intros j Hj. apply match_at_none. now apply Hleft.
Qed.

(** The step of the region once the search and the template are known. *)
Lemma cdb_step_at (pre body post dtsi_text : pystr) (t : list titem) :
  parse_template (cdb_replacement dtsi_text) = Some t ->
  search CDB_PATTERN (pre ++ CDB_OPEN ++ body ++ CDB_CLOSE ++ post)
  = Some (Match (length pre) []
            (length pre + length CDB_OPEN + length body + length CDB_CLOSE)) ->
  cdb_step (pre ++ CDB_OPEN ++ body ++ CDB_CLOSE ++ post) dtsi_text
  = Ok (pre ++ expand_template t (CDB_OPEN ++ body ++ CDB_CLOSE) ++ post).
Proof.
  intros Ht Hs.
  unfold cdb_step, sync_custom_defined_behaviors, subn1. rewrite Ht, Hs.
  cbn [m_start m_end bind Nat.eqb negb]. f_equal.
  rewrite firstn_app_exact. f_equal.
  replace (length pre + length CDB_OPEN + length body + length CDB_CLOSE)
    with (length pre + length (CDB_OPEN ++ body ++ CDB_CLOSE))
    by (rewrite !length_app; lia).
  replace (pre ++ CDB_OPEN ++ body ++ CDB_CLOSE ++ post)
    with (pre ++ (CDB_OPEN ++ body ++ CDB_CLOSE) ++ post)
    by (now rewrite <- !app_assoc).
  rewrite slice_app_mid. f_equal.
  rewrite (app_assoc pre (CDB_OPEN ++ body ++ CDB_CLOSE) post), <- length_app.
  apply skipn_app_exact.
Qed.

Lemma cdb_step_region (config_text dtsi_text : pystr) (t : list titem) :
  parse_template (cdb_replacement dtsi_text) = Some t ->
  has_cdb_region config_text ->
  exists pre body post,
    config_text = pre ++ CDB_OPEN ++ body ++ CDB_CLOSE ++ post
    /\ (forall j, j < length pre ->
        rx_match CDB_PATTERN (skipn j config_text) j = None)
    /\ (forall k, k < length body ->
        starts_with CDB_CLOSE (skipn k (body ++ CDB_CLOSE ++ post)) = false)
    /\ cdb_step config_text dtsi_text
       = Ok (pre ++ expand_template t (CDB_OPEN ++ body ++ CDB_CLOSE) ++ post).
Proof.
  intros Ht Hhas.
  destruct (search CDB_PATTERN config_text) as [m|] eqn:Hs.
  2:{ destruct (search_cdb_none Hs Hhas). }
  destruct (search_cdb_region _ Hs)
    as (pre & body & post & Et & Hstart & Hend & Hleft & Hmin).
  exists pre, body, post. repeat split; auto.
  subst config_text. apply (@cdb_step_at pre body post dtsi_text t Ht).
  now apply search_cdb_intro.
Qed.

(** X17. When every backslash of the stripped keymap.dtsi stands before a
    character that is no letter, digit or backslash (a backslash at its end
    stands before the newline that follows), the replacement is inserted
    character for character in the place of the region. *)
Theorem cdb_step_verbatim (config_text dtsi_text : pystr) :
  verbatim (rstrip dtsi_text ++ [nl]) = true ->
  has_cdb_region config_text ->
  exists pre body post,
    config_text = pre ++ CDB_OPEN ++ body ++ CDB_CLOSE ++ post
    /\ cdb_step config_text dtsi_text
       = Ok (pre ++ cdb_replacement dtsi_text ++ post).
Proof.
  intros Hv Hhas.
  pose proof (@parse_verbatim _ (@verbatim_replacement dtsi_text Hv)) as Ht.
  destruct (@cdb_step_region config_text dtsi_text _ Ht Hhas)
    as (pre & body & post & Et & _ & _ & Hstep).
  exists pre, body, post. split; [exact Et|].
  now rewrite Hstep, expand_template_plain.
Qed.

Lemma cdb_step_verbatim_witness :
  exists pre body post,
    doc_two_cdb = pre ++ CDB_OPEN ++ body ++ CDB_CLOSE ++ post
    /\ cdb_step doc_two_cdb dtsi_continued
       = Ok (pre ++ cdb_replacement dtsi_continued ++ post).
Proof.
  apply (@cdb_step_verbatim doc_two_cdb dtsi_continued).
  - vm_compute. reflexivity.
  - exists (str "#include <behaviors.dtsi>" ++ [nl]), (str "first"),
      ([nl] ++ CDB_OPEN ++ str "second" ++ CDB_CLOSE ++ [nl]).
    reflexivity.
Defined.

Lemma lstrip_app_nonspace (l r : pystr) (c : char) :
  isspace c = false -> lstrip (l ++ c :: r) = lstrip l ++ c :: r.
Proof.
  intros Hc. induction l as [|x l IH]; simpl.
  - now rewrite Hc.
  - destruct (isspace x); [exact IH | reflexivity].
Qed.

Lemma rstrip_app_nonspace (a b : pystr) (c : char) :
  isspace c = false -> rstrip (a ++ c :: b) = a ++ c :: rstrip b.
Proof.
  intros Hc. unfold rstrip.
  rewrite rev_app_distr. simpl rev. rewrite <- app_assoc. simpl app.
  rewrite lstrip_app_nonspace by exact Hc. rewrite rev_app_distr. simpl rev.
  now rewrite rev_involutive, <- app_assoc.
Qed.

Lemma rstrip_app_ws (s w : pystr) :
  all_ws w = true -> rstrip (s ++ w) = rstrip s.
Proof.
  intros Hw. unfold rstrip. rewrite rev_app_distr, lstrip_app_ws; [reflexivity|].
  now rewrite all_ws_rev.
Qed.

Lemma letter_not_space (e : char) :
  is_ascii_letter e = true -> isspace e = false.
Proof.
  unfold is_ascii_letter, isspace. intros H.
  apply orb_true_iff in H. rewrite !andb_true_iff, !N.leb_le in H.
  apply not_true_is_false. intros Hs.
  rewrite !orb_true_iff, !andb_true_iff, !N.leb_le, !N.eqb_eq in Hs. lia.
Qed.

Lemma letter_not_digit (e : char) :
  is_ascii_letter e = true -> is_digit e = false.
Proof.
  unfold is_ascii_letter, is_digit. intros H.
  apply orb_true_iff in H. rewrite !andb_true_iff, !N.leb_le in H.
  apply not_true_is_false. intros Hs.
  rewrite !andb_true_iff, !N.leb_le in Hs. lia.
Qed.

Lemma parse_bad_escape (e : char) (s : pystr) :
  bad_escape e = true ->
  parse_template_st TText (backslash :: e :: s) = None.
Proof.
  unfold bad_escape. intros H.
  apply andb_prop in H as [H H3]. apply andb_prop in H as [H1 H2].
  apply negb_true_iff in H2.
  pose proof (@letter_not_digit e H1) as Hd.
  assert (H48 : (e =? 48)%N = false).
  { destruct (N.eqb_spec e 48) as [->|_]; [discriminate | reflexivity]. }
  cbn [parse_template_st]. change (backslash =? backslash)%N with true.
  cbn [negb]. cbv iota. rewrite H2, H48, Hd.
  destruct (escape_char e); [discriminate|]. now rewrite H1.
Qed.

(** X18. A backslash of keymap.dtsi before an ASCII letter other than a, b,
    f, g, n, r, t and v, with the backslashes before it left in place, makes
    the step of the region end with the error of a bad template, whatever
    the document holds and before it is searched. *)
Theorem cdb_step_bad_escape (config_text a b : pystr) (e : char) :
  verbatim a = true ->
  bad_escape e = true ->
  cdb_step config_text (a ++ backslash :: e :: b) = Raise TemplateError.
Proof.
  intros Ha He.
  assert (Hl : is_ascii_letter e = true).
  { unfold bad_escape in He. apply andb_prop in He as [He _].
    now apply andb_prop in He as [He _]. }
  assert (Er : cdb_replacement (a ++ backslash :: e :: b)
               = (CDB_OPEN ++ a)
                 ++ backslash :: e
                    :: rstrip b ++ [nl; nl] ++ str "};" ++ [nl] ++ CDB_CLOSE).
  { rewrite cdb_replacement_body. unfold cdb_body.
    replace (a ++ backslash :: e :: b) with ((a ++ [backslash]) ++ e :: b)
      by (now rewrite <- app_assoc).
    rewrite rstrip_app_nonspace by (now apply letter_not_space).
    rewrite <- !app_assoc. reflexivity. }
  unfold cdb_step, sync_custom_defined_behaviors, subn1, parse_template.
  rewrite Er, parse_verbatim_app by (now apply verbatim_app).
  rewrite parse_bad_escape by exact He. reflexivity.
Qed.

Lemma cdb_step_bad_escape_witness :
  cdb_step doc_two_cdb dtsi_escape = Raise TemplateError.
Proof.
  apply (@cdb_step_bad_escape doc_two_cdb (str "/* matches ")
           (str "+ */" ++ [nl]) 100%N); reflexivity.
Defined.

(** X19. Whitespace at the end of keymap.dtsi makes no difference to the
    step of the region. *)
Theorem cdb_step_trailing_space (config_text dtsi_text w : pystr) :
  all_ws w = true ->
  cdb_step config_text (dtsi_text ++ w) = cdb_step config_text dtsi_text.
Proof.
  intros Hw. unfold cdb_step, sync_custom_defined_behaviors, cdb_replacement.
  now rewrite rstrip_app_ws by exact Hw.
Qed.

Lemma cdb_step_trailing_space_witness :
  cdb_step doc_two_cdb (sample_dtsi ++ [nl; sp; nl])
  = cdb_step doc_two_cdb sample_dtsi.
Proof.
  apply (@cdb_step_trailing_space doc_two_cdb sample_dtsi [nl; sp; nl]).
  reflexivity.
Defined.

Lemma starts_with_long (needle a r : pystr) :
  length needle <= length a ->
  starts_with needle (a ++ r) = starts_with needle a.
Proof.
  revert a. induction needle as [|x needle IH]; intros a H; [reflexivity|].
  destruct a as [|y a]; [simpl in H; lia|].
  simpl. rewrite IH by (simpl in H; lia). reflexivity.
Qed.

Lemma occurrences_skipn (needle : pystr) (k : nat) :
  forall s, occurrences needle (skipn k s) <= occurrences needle s.
Proof.
  induction k as [|k IH]; intros s; [simpl; lia|].
  destruct s as [|c s]; [simpl; lia|].
  change (skipn (S k) (c :: s)) with (skipn k s).
  specialize (IH s). cbn [occurrences]. lia.
Qed.

Lemma occurrences_at (needle : pystr) (k : nat) :
  forall s,
    k < length s -> starts_with needle (skipn k s) = true ->
    1 + occurrences needle (skipn (S k) s) <= occurrences needle s.
Proof.
  induction k as [|k IH]; intros s Hk H.
  - destruct s as [|c s]; [simpl in Hk; lia|].
    simpl skipn in *. cbn [occurrences]. rewrite H. lia.
  - destruct s as [|c s]; [simpl in Hk; lia|].
    change (skipn (S (S k)) (c :: s)) with (skipn (S k) s).
    change (skipn (S k) (c :: s)) with (skipn k s) in H.
    specialize (IH s ltac:(simpl in Hk; lia) H).
    cbn [occurrences]. lia.
Qed.

(** The needle occurs once in [x ++ needle]: at the end. *)
Lemma occurrences_once (needle x post : pystr) (k : nat) :
  occurrences needle (x ++ needle) = 1 ->
  k < length x ->
  starts_with needle (skipn k (x ++ needle ++ post)) = false.
Proof.
  intros H1 Hk.
  rewrite app_assoc, skipn_app.
  replace (k - length (x ++ needle)) with 0 by (rewrite length_app; lia).
  rewrite skipn_O, starts_with_long.
  2:{ rewrite length_skipn, length_app. lia. }
  destruct (starts_with needle (skipn k (x ++ needle))) eqn:E; [|reflexivity].
  apply occurrences_at in E; [|rewrite length_app; lia].
  rewrite skipn_app in E.
  replace (S k - length x) with 0 in E by lia. rewrite skipn_O in E.
  pose proof (occurrences_infix needle (skipn (S k) x) []) as Hi.
  rewrite app_nil_r in Hi. lia.
Qed.

(** With a closing marker far enough to the right, the pattern matches at
    an offset as soon as the opening marker is read there. *)
Lemma rx_match_cdb_open (a post : pystr) (j : nat) :
  j + length CDB_OPEN <= length a ->
  rx_match CDB_PATTERN (skipn j (a ++ CDB_CLOSE ++ post)) j = None ->
  starts_with CDB_OPEN (skipn j (a ++ CDB_CLOSE ++ post)) = false.
Proof.
  intros Hj H. rewrite rx_match_cdb in H.
  destruct (starts_with CDB_OPEN (skipn j (a ++ CDB_CLOSE ++ post)));
    [|reflexivity].
  rewrite skipn_skipn in H.
  rewrite skipn_app in H.
  replace (length CDB_OPEN + j - length a) with 0 in H by lia.
  rewrite skipn_O in H.
  destruct (first_suffix_exists cdb_close_at
              (skipn (length CDB_OPEN + j) a ++ CDB_CLOSE ++ post)
              (j + length CDB_OPEN)
              (k := length (skipn (length CDB_OPEN + j) a))
              (b := ([], j + length CDB_OPEN
                         + length (skipn (length CDB_OPEN + j) a)
                         + length CDB_CLOSE))) as (b' & Hb').
  - rewrite length_app. lia.
  - now rewrite skipn_app_exact, cdb_close_at_app.
  - rewrite Hb' in H. discriminate.
Qed.

(** X20. The step of the region is idempotent when the replacement is
    inserted character for character and holds the closing marker only at
    its end: applied to the document it returned, it returns that document
    again. *)
Theorem cdb_step_idempotent (config_text dtsi_text updated : pystr) :
  verbatim (rstrip dtsi_text ++ [nl]) = true ->
  occurrences CDB_CLOSE (cdb_replacement dtsi_text) = 1 ->
  cdb_step config_text dtsi_text = Ok updated ->
  cdb_step updated dtsi_text = Ok updated.
Proof.
  intros Hv Hocc H.
  pose proof (@parse_verbatim _ (@verbatim_replacement dtsi_text Hv)) as Ht.
  destruct (search CDB_PATTERN config_text) as [m|] eqn:Hs.
  2:{ unfold cdb_step, sync_custom_defined_behaviors, subn1 in H.
      rewrite Ht, Hs in H. discriminate. }
  destruct (search_cdb_region _ Hs)
    as (pre & body & post & Et & _ & _ & Hleft & Hmin).
  subst config_text.
  rewrite (@cdb_step_at pre body post dtsi_text _ Ht) in H
    by (now apply search_cdb_intro).
  rewrite expand_template_plain in H.
  assert (Eu : updated = pre ++ cdb_replacement dtsi_text ++ post)
    by congruence.
  clear H. subst updated.
  pose proof (cdb_replacement_body dtsi_text) as ER.
  rewrite ER in Hocc. rewrite ER. rewrite <- !app_assoc.
  rewrite (@cdb_step_at pre (cdb_body dtsi_text) post dtsi_text _ Ht).
  - now rewrite expand_template_plain, ER, <- !app_assoc.
  - apply search_cdb_intro.
    + intros j Hj.
      assert (Ho : starts_with CDB_OPEN
                     (skipn j (pre ++ CDB_OPEN ++ body ++ CDB_CLOSE ++ post))
                   = false).
      { replace (pre ++ CDB_OPEN ++ body ++ CDB_CLOSE ++ post)
          with ((pre ++ CDB_OPEN ++ body) ++ CDB_CLOSE ++ post)
          by (now rewrite <- !app_assoc).
        apply rx_match_cdb_open.
        - rewrite !length_app. lia.
        - rewrite <- !app_assoc. now apply Hleft. }
      rewrite rx_match_cdb.
      replace (starts_with CDB_OPEN
                 (skipn j (pre ++ CDB_OPEN ++ cdb_body dtsi_text
                           ++ CDB_CLOSE ++ post)))
        with false; [reflexivity|].
      rewrite <- Ho.
      rewrite !(app_assoc pre CDB_OPEN).
      rewrite !(skipn_app j (pre ++ CDB_OPEN)).
      rewrite !starts_with_long; [reflexivity| |];
        rewrite length_skipn, length_app; lia.
    + intros k Hk.
      pose proof (@occurrences_once CDB_CLOSE
                    (CDB_OPEN ++ cdb_body dtsi_text) post
                    (length CDB_OPEN + k)) as Hn.
      rewrite <- !app_assoc in Hn. rewrite skipn_app in Hn.
      rewrite skipn_all2 in Hn by lia.
      replace (length CDB_OPEN + k - length CDB_OPEN) with k in Hn by lia.
      apply Hn; [exact Hocc | rewrite length_app; lia].
Qed.

Lemma cdb_step_idempotent_witness :
  cdb_step doc_two_cdb_patched sample_dtsi = Ok doc_two_cdb_patched.
Proof.
  apply (@cdb_step_idempotent doc_two_cdb sample_dtsi doc_two_cdb_patched);
    vm_compute; reflexivity.
Defined.
